(** * imguralbum.py: the album downloader, embedded and verified

    The development follows [ImgurAlbumDownloader] of [imguralbum.py]:
    the constructor ([__init__]: URL check, listing fetch, extraction of
    the (hash, ext) pairs) and the download loop ([save_images]).

    Python values are modelled as the code has them: [str] as [string],
    the [re] module by a backtracking matcher over the pattern's syntax
    tree (ordered alternatives, greedy and lazy repetition, numbered
    groups), exceptions by an error monad, the file system by a finite map
    from paths to file contents, the callbacks by the events they leave
    in a trace. *)

From Stdlib Require Import Ascii String Strings.Byte NArith ZArith List Lia Permutation.
From stdpp Require Import base option list sorting gmap strings pretty.

Local Open Scope string_scope.
Local Open Scope stdpp_scope.

(** ** Text *)

Module Str.

(** [take n s] is Python's [s[:n]]. *)
Fixpoint take (n : nat) (s : string) : string :=
  match n, s with
  | S n', String a s' => String a (take n' s')
  | _, _ => ""
  end.

(** [strip l s] removes the prefix [l] from [s], when [s] starts with it. *)
Fixpoint strip (l s : string) : option string :=
  match l with
  | "" => Some s
  | String a l' =>
      match s with
      | String b s' => if decide (a = b) then strip l' s' else None
      | "" => None
      end
  end.

(** All characters of [s] satisfy [p]. *)
Fixpoint all (p : ascii → bool) (s : string) : bool :=
  match s with
  | "" => true
  | String a s' => p a && all p s'
  end.

End Str.

Import Str.

(** ** The [re] module *)

Module Re.

(** The character sets the two patterns use. *)
Inductive cclass : Type :=
  | Dot      (* .           any character but a newline *)
  | Alnum    (* [a-zA-Z0-9] *)
  | Digit.   (* [0-9]       *)

Definition between (lo hi : N) (a : ascii) : bool :=
  ((lo <=? N_of_ascii a) && (N_of_ascii a <=? hi))%N.

Definition in_class (c : cclass) (a : ascii) : bool :=
  match c with
  | Dot => negb (N_of_ascii a =? 10)%N
  | Alnum => between 97 122 a || between 65 90 a || between 48 57 a
  | Digit => between 48 57 a
  end.

(** Pattern syntax. Groups carry the number Python gives them (the rank
    of their opening parenthesis); [(?:...)] is plain nesting. *)
Inductive regex : Type :=
  | Lit (l : string)                 (* literal text *)
  | Plus (c : cclass)                (* c+   greedy *)
  | StarLazy (c : cclass)            (* c*?  lazy *)
  | Seq (r1 r2 : regex)              (* r1 r2 *)
  | Alt (r1 r2 : regex)              (* r1|r2, left first *)
  | Opt (r : regex)                  (* r?   greedy *)
  | Group (n : nat) (r : regex).     (* (r)  capturing *)

Abbreviation groups := (gmap nat string).

Section matcher.
Context {A : Type}.

(** [c*] greedy: take as many characters as possible, give back one at
    a time while the rest of the pattern fails. *)
Fixpoint star_greedy (c : cclass) (s : string) (k : string → option A)
  : option A :=
  match s with
  | String a s' =>
      if in_class c a then
        match star_greedy c s' k with
        | Some x => Some x
        | None => k s
        end
      else k s
  | "" => k s
  end.

Definition plus_greedy (c : cclass) (s : string) (k : string → option A)
  : option A :=
  match s with
  | String a s' => if in_class c a then star_greedy c s' k else None
  | "" => None
  end.

(** [c*?] lazy: try the rest of the pattern first, take one more
    character each time it fails. *)
Fixpoint star_lazy (c : cclass) (s : string) (k : string → option A)
  : option A :=
  match k s with
  | Some x => Some x
  | None =>
      match s with
      | String a s' => if in_class c a then star_lazy c s' k else None
      | "" => None
      end
  end.

(** The text a group consumed: what lies between the input it started
    on and the input left when it finished. *)
Definition consumed (s rest : string) : string :=
  take (String.length s - String.length rest) s.

(** Backtracking match of [r] at the head of [s]; [k] is the rest of
    the pattern, called on the remaining input and the groups set so
    far. The first success in Python's search order is the result. *)
Fixpoint rmatch (r : regex) (s : string) (g : groups)
    (k : string → groups → option A) : option A :=
  match r with
  | Lit l =>
      match strip l s with
      | Some s' => k s' g
      | None => None
      end
  | Plus c => plus_greedy c s (λ s', k s' g)
  | StarLazy c => star_lazy c s (λ s', k s' g)
  | Seq r1 r2 => rmatch r1 s g (λ s' g', rmatch r2 s' g' k)
  | Alt r1 r2 =>
      match rmatch r1 s g k with
      | Some x => Some x
      | None => rmatch r2 s g k
      end
  | Opt r1 =>
      match rmatch r1 s g k with
      | Some x => Some x
      | None => k s g
      end
  | Group n r1 => rmatch r1 s g (λ s' g', k s' (<[n := consumed s s']> g'))
  end.
End matcher.

(** [re.match(r, s)]: match at the start of [s]; text after the match is
    ignored. *)
Definition re_match (r : regex) (s : string) : option groups :=
  rmatch r s ∅ (λ _ g, Some g).

(** [m.group(n)] as [findall] reads it: a group that did not take part
    reads as the empty string. *)
Definition group (g : groups) (n : nat) : string := default "" (g !! n).

(** One attempt of [findall] at the head of [s]: the groups and the
    input left after the match. *)
Definition match_here (r : regex) (s : string) : option (groups * string) :=
  rmatch r s ∅ (λ rest g, Some (g, rest)).

(** [re.findall(r, s)]: scan left to right; at each position try the
    pattern, on success record the groups and resume where the match
    ended. [skip] counts the characters of the last match still to be
    passed over. (A match of no characters resumes one position on; the
    patterns of this program always consume text.) *)
Fixpoint scan (r : regex) (skip : nat) (s : string) : list groups :=
  match skip with
  | S n =>
      match s with
      | String _ s' => scan r n s'
      | "" => []
      end
  | 0 =>
      match match_here r s with
      | Some (g, rest) =>
          g :: match s with
               | String _ s' =>
                   scan r (String.length s - String.length rest - 1) s'
               | "" => []
               end
      | None =>
          match s with
          | String _ s' => scan r 0 s'
          | "" => []
          end
      end
  end.

Definition findall (r : regex) (s : string) : list groups := scan r 0 s.

End Re.

Import Re.

Declare Scope regex_scope.
Delimit Scope regex_scope with re.
Bind Scope regex_scope with regex.
Infix "⋅" := Seq (at level 45, right associativity) : regex_scope.
Infix "∣" := Alt (at level 50, left associativity) : regex_scope.

(** The album URL pattern of [__init__]:
    [(https?)\:\/\/(www\.)?(?:m\.)?imgur\.com/(?:(?:a|gallery)/)?([a-zA-Z0-9]+)(#[0-9]+)?] *)
Definition album_url_re : regex :=
  (Group 1 (Lit "http" ⋅ Opt (Lit "s")) ⋅ Lit "://" ⋅
   Opt (Group 2 (Lit "www.")) ⋅ Opt (Lit "m.") ⋅ Lit "imgur.com/" ⋅
   Opt ((Lit "a" ∣ Lit "gallery") ⋅ Lit "/") ⋅
   Group 3 (Plus Alnum) ⋅ Opt (Group 4 (Lit "#" ⋅ Plus Digit)))%re.

(** ** Exceptions *)

(** The exception classes the program meets, with Python's class
    hierarchy: [requests]' exceptions derive from [RequestException]
    (itself an [IOError], that is [OSError]); [urllib3]'s [MaxRetryError]
    and PIL's [UnidentifiedImageError] are listed next to them by
    [save_images]. PIL's [DecompressionBombError], which [Image.open]
    raises on an image of too many pixels, derives from [Exception]
    only. [FileNotFoundError] and [IsADirectoryError] are what the file
    system calls raise. [KeyboardInterrupt] stands for what
    [except Exception] does not catch. *)
Inductive exc_class : Type :=
  | BaseException | Exception | KeyboardInterrupt
  | OSError | AttributeError | TypeError | ValueError
  | FileNotFoundError | IsADirectoryError
  | ImgurAlbumException
  | RequestException | ConnectionError | Timeout | HTTPError
  | TooManyRedirects | RetryError
  | MaxRetryError
  | UnidentifiedImageError | DecompressionBombError.

Global Instance exc_class_eq_dec : EqDecision exc_class.
Proof. solve_decision. Defined.

Definition base_class (c : exc_class) : option exc_class :=
  match c with
  | BaseException => None
  | Exception | KeyboardInterrupt => Some BaseException
  | OSError | AttributeError | TypeError | ValueError
  | ImgurAlbumException | MaxRetryError | DecompressionBombError =>
      Some Exception
  | RequestException | UnidentifiedImageError
  | FileNotFoundError | IsADirectoryError => Some OSError
  | ConnectionError | Timeout | HTTPError | TooManyRedirects | RetryError =>
      Some RequestException
  end.

(** [issubclass c d], by climbing at most [n] bases. *)
Fixpoint issubclass_upto (n : nat) (c d : exc_class) : bool :=
  bool_decide (c = d) ||
  match n, base_class c with
  | S n', Some b => issubclass_upto n' b d
  | _, _ => false
  end.

Definition issubclass : exc_class → exc_class → bool := issubclass_upto 4.

Definition class_name (c : exc_class) : string :=
  match c with
  | BaseException => "BaseException" | Exception => "Exception"
  | KeyboardInterrupt => "KeyboardInterrupt" | OSError => "OSError"
  | AttributeError => "AttributeError" | TypeError => "TypeError"
  | ValueError => "ValueError"
  | FileNotFoundError => "FileNotFoundError"
  | IsADirectoryError => "IsADirectoryError"
  | DecompressionBombError => "DecompressionBombError"
  | ImgurAlbumException => "ImgurAlbumException"
  | RequestException => "RequestException"
  | ConnectionError => "ConnectionError" | Timeout => "Timeout"
  | HTTPError => "HTTPError" | TooManyRedirects => "TooManyRedirects"
  | RetryError => "RetryError" | MaxRetryError => "MaxRetryError"
  | UnidentifiedImageError => "UnidentifiedImageError"
  end.

(** An exception object: its class and its message ([str(e)]; for
    [ImgurAlbumException] the [msg] attribute). *)
Record exc : Type := Exc { exc_cls : exc_class; exc_msg : string }.

Global Instance exc_eq_dec : EqDecision exc.
Proof. solve_decision. Defined.

Definition isinstance (e : exc) (c : exc_class) : bool :=
  issubclass (exc_cls e) c.

(** [except (c1, ..., cn)] *)
Definition caught_by (cs : list exc_class) (e : exc) : bool :=
  existsb (isinstance e) cs.

(** The names of the attributes an exception object of each class carries
    (besides [args], which all have): [ImgurAlbumException.__init__] sets
    [msg]; [RequestException.__init__] sets [response] and [request];
    [MaxRetryError] has [pool], [url] and [reason]; an [OSError] has
    [errno], [strerror] and [filename]. None of them has [code]. *)
Definition exc_attributes (c : exc_class) : list string :=
  "args" ::
  (if issubclass c ImgurAlbumException then ["msg"] else []) ++
  (if issubclass c OSError then ["errno"; "strerror"; "filename"] else []) ++
  (if issubclass c RequestException then ["response"; "request"] else []) ++
  (if issubclass c MaxRetryError then ["pool"; "url"; "reason"] else []).

(** ** Values *)

(** The Python values that attribute lookup and [%]-formatting see here. *)
Inductive pyval : Type :=
  | PNone
  | PBool (b : bool)
  | PInt (z : Z)
  | PStr (s : string)
  | PPairs (l : list (string * string))   (* list of 2-tuples of str *)
  | PStrs (l : list string)               (* list of str *)
  | PCounts (l : list (string * nat))     (* list of (str, int) *)
  | PFunction (name : string)             (* a function of the class body *)
  | PMethod (name : string)               (* that function bound to an instance *)
  | PObject (type_name : string).         (* any other object *)

(** ** The world: files, network, interpreter *)

(** What a run leaves behind for an observer: the requests sent, the
    calls made to the registered callbacks (each named), the lines printed
    in verbose mode. *)
Inductive event : Type :=
  | EvGet (url : string)
  | EvImage (callback : string) (counter : nat) (url path : string)
  | EvSuccess (callback : string) (counter : nat) (url path : string)
  | EvComplete (callback : string)
  | EvPrint (line : string).

Global Instance event_eq_dec : EqDecision event.
Proof. solve_decision. Defined.

Global Instance byte_eq_dec : EqDecision byte := Byte.byte_eq_dec.

(** The world holds the regular files, by path, and the trace of the
    run. The directories, and what makes a file system call fail, are
    part of the surroundings ([env] below): a run of this program
    creates one directory, the album folder, and looks at it no more. *)
Record world : Type := World {
  files : gmap string (list byte);
  trace : list event
}.

(** What [requests] hands back: [status_code], [text] (the decoded body)
    and [content] (the raw body). *)
Record http_response : Type := HttpResponse {
  status_code : Z;
  text : string;
  content : list byte
}.

(** The surroundings of one run. [http_get url] is the outcome of
    [session.get(url, ...)] once the adapter's retries are over: a final
    response, or the exception raised. [image_size] is
    [Image.open(BytesIO(data)).size], or the exception [Image.open]
    raises. The last three say what of the file system the world does
    not hold: [is_dir path], a directory sits at [path];
    [makedirs_error path], the exception that [os.makedirs(path)] raises
    there, if it raises (no permission, a file in the way);
    [open_error path], the exception that [open(path, 'wb')] raises
    for a path that is no directory, if it raises (a folder of the
    path is missing, no permission, a full disk). *)
Record env : Type := MkEnv {
  http_get : string → exc + http_response;
  image_size : list byte → exc + (Z * Z);
  is_dir : string → bool;
  makedirs_error : string → option exc;
  open_error : string → option exc
}.

(** Surroundings where no directory sits at any path and the file
    system calls succeed. *)
Definition Env (http_get : string → exc + http_response)
    (image_size : list byte → exc + (Z * Z)) : env :=
  MkEnv http_get image_size (λ _, false) (λ _, None) (λ _, None).

(** One interpreter process. Python fixes no iteration order for a [set];
    for strings the order follows hashes salted per process, so
    [list(set(xs))] is some enumeration of the distinct elements of [xs],
    the same within a process and free to differ between two. *)
Record process : Type := Process {
  list_of_set : list (string * string) → list (string * string);
  list_of_set_NoDup (xs : list (string * string)) : NoDup (list_of_set xs);
  list_of_set_elem (xs : list (string * string)) (x : string * string) :
    x ∈ list_of_set xs ↔ x ∈ xs
}.

(** ** Computations that raise *)

Inductive outcome (A : Type) : Type :=
  | Ret (a : A)
  | Raise (e : exc).
Global Arguments Ret {A} a.
Global Arguments Raise {A} e.

Definition M (A : Type) : Type := world → outcome A * world.

Definition ret {A} (a : A) : M A := λ w, (Ret a, w).
Definition raise {A} (e : exc) : M A := λ w, (Raise e, w).
Definition bind {A B} (m : M A) (k : A → M B) : M B :=
  λ w, match m w with
       | (Ret a, w') => k a w'
       | (Raise e, w') => (Raise e, w')
       end.

(** [try: body except cs as e: handler e] *)
Definition try_except {A} (body : M A) (cs : list exc_class)
    (handler : exc → M A) : M A :=
  λ w, match body w with
       | (Ret a, w') => (Ret a, w')
       | (Raise e, w') =>
           if caught_by cs e then handler e w' else (Raise e, w')
       end.

Global Instance M_ret : MRet M := @ret.
Global Instance M_bind : MBind M := λ A B k m, bind m k.

Definition emit (ev : list event) : M unit :=
  λ w, (Ret tt, World (files w) (trace w ++ ev)).

Definition when (b : bool) (m : M unit) : M unit := if b then m else ret tt.

(** [for x in xs: body x] *)
Fixpoint for_each {A} (xs : list A) (body : A → M unit) : M unit :=
  match xs with
  | [] => ret tt
  | x :: xs' => body x ;; for_each xs' body
  end.

Definition get_world : M world := λ w, (Ret w, w).

Definition set_files (f : gmap string (list byte)) : M unit :=
  λ w, (Ret tt, World f (trace w)).

(** ** Library calls *)

(** [session.get(url, headers=..., allow_redirects=True, timeout=30)] *)
Definition session_get (e : env) (url : string) : M http_response :=
  emit [EvGet url] ;;
  match http_get e url with
  | inr r => mret r
  | inl ex => raise ex
  end.

(** [bool(response)] is [response.ok]: no 4xx or 5xx status. *)
Definition response_bool (r : http_response) : bool :=
  negb ((400 <=? status_code r) && (status_code r <? 600))%Z.

(** [requests.codes['ok']] *)
Definition codes_ok : Z := 200.

(** [Image.open(BytesIO(data))], [im.size], [im.close()] *)
Definition image_open_size (e : env) (data : list byte) : M (Z * Z) :=
  match image_size e data with
  | inr wh => mret wh
  | inl ex => raise ex
  end.

(** [e.name] on an exception object *)
Definition exc_getattr (e : exc) (name : string) : M pyval :=
  if bool_decide (name ∈ exc_attributes (exc_cls e)) then
    mret (if bool_decide (name = "msg") then PStr (exc_msg e)
          else PObject name)
  else
    raise (Exc AttributeError
             ("'" ++ class_name (exc_cls e) ++ "' object has no attribute '"
              ++ name ++ "'")).

(** [fmt % v] for a format with one [%d], [fmt] given as the text before
    it. *)
Definition format_d (before : string) (v : pyval) : M string :=
  match v with
  | PInt z => mret (before ++ pretty z)
  | PBool b => mret (before ++ (if b then "1" else "0"))
  | _ => raise (Exc TypeError "%d format: a real number is required")
  end.

(** [s.rjust(width, fill)], the [{:fill>width}] of [str.format] *)
Fixpoint repeat_char (n : nat) (a : ascii) : string :=
  match n with
  | 0 => ""
  | S n' => String a (repeat_char n' a)
  end.

Definition rjust (width : nat) (fill : ascii) (s : string) : string :=
  repeat_char (width - String.length s) fill ++ s.

Fixpoint ends_with (a : ascii) (s : string) : bool :=
  match s with
  | "" => false
  | String b "" => bool_decide (a = b)
  | String _ s' => ends_with a s'
  end.

Definition starts_with (a : ascii) (s : string) : bool :=
  match s with
  | String b _ => bool_decide (a = b)
  | "" => false
  end.

(** [os.path.join(a, b)] (posixpath) *)
Definition os_path_join (a b : string) : string :=
  if starts_with "/" b then b
  else if bool_decide (a = "") || ends_with "/" a then a ++ b
  else a ++ "/" ++ b.

(** [os.path.isfile(path)]: a regular file is there. *)
Definition os_path_isfile (path : string) : M bool :=
  w ← get_world; mret (bool_decide (is_Some (files w !! path))).

(** [os.path.exists(path)]: a regular file or a directory is there. *)
Definition os_path_exists (e : env) (path : string) : M bool :=
  w ← get_world;
  mret (bool_decide (is_Some (files w !! path)) || is_dir e path).

(** [str(e)] of the [OSError] of a system call on [path]. *)
Definition errno_message (errno reason path : string) : string :=
  "[Errno " ++ errno ++ "] " ++ reason ++ ": '" ++ path ++ "'".

(** [os.makedirs(path)]: the empty path can never be created. *)
Definition os_makedirs (e : env) (path : string) : M unit :=
  if bool_decide (path = "") then
    raise (Exc FileNotFoundError
             (errno_message "2" "No such file or directory" path))
  else
    match makedirs_error e path with
    | Some ex => raise ex
    | None => mret tt
    end.

(** [os.remove(path)] (on Linux, where removing a directory fails with
    [IsADirectoryError]). *)
Definition os_remove (e : env) (path : string) : M unit :=
  if is_dir e path then
    raise (Exc IsADirectoryError (errno_message "21" "Is a directory" path))
  else
    w ← get_world;
    match files w !! path with
    | Some _ => set_files (delete path (files w))
    | None =>
        raise (Exc FileNotFoundError
                 (errno_message "2" "No such file or directory" path))
    end.

(** The exception of [open(path, 'wb')], if it raises. *)
Definition write_error (e : env) (path : string) : option exc :=
  if is_dir e path then
    Some (Exc IsADirectoryError (errno_message "21" "Is a directory" path))
  else open_error e path.

(** [with open(path, 'wb') as fobj: fobj.write(data)] *)
Definition write_file (e : env) (path : string) (data : list byte)
  : M unit :=
  match write_error e path with
  | Some ex => raise ex
  | None => w ← get_world; set_files (<[path := data]> (files w))
  end.

(** ** The class *)

(** [urllib3]'s [Retry], as the constructor configures it. *)
Record Retry : Type := {
  total : nat;
  backoff_factor : nat;
  status_forcelist : list Z;
  allowed_methods : list string
}.

Definition default_retry_strategy : Retry :=
  {| total := 4; backoff_factor := 1;
     status_forcelist := [429; 500; 502; 503; 504]%Z;
     allowed_methods := ["GET"] |}.

(** The double quote, which the patterns and the pages are full of, and
    the two pieces of literal text of the image pattern: [{"hash":"] and
    ["ext":"]. *)
Definition dq : string := String "034"%char "".

Definition hash_open : string := "{" ++ dq ++ "hash" ++ dq ++ ":" ++ dq.

Definition ext_open : string := dq ++ "ext" ++ dq ++ ":" ++ dq.

Module ImgurAlbumDownloader.

(** The attributes [__init__] sets on [self]. *)
Record t : Type := Make {
  album_url : string;
  verbose : bool;
  image_callbacks : list string;
  success_callbacks : list string;
  complete_callbacks : list string;
  protocol : string;
  album_key : string;
  session : Retry;
  headers : list (string * string);
  response : http_response;
  imageIDs : list (string * string);
  imageURLs : list string;
  cnt : list (string * nat)
}.

(** A character with a meaning of its own in a pattern, and an entry
    of [extn] that holds none: spliced into the pattern, such an entry
    (jpg, png, gif) stands for its own text. *)
Definition pattern_operator (a : ascii) : bool :=
  bool_decide (a ∈ list_ascii_of_string ".^$*+?{}[]\|()").

Definition operator_free (entry : string) : bool :=
  all (λ a, negb (pattern_operator a)) entry.

(** [ext_regex], inside the parentheses the pattern puts around it:
    [(\.(e1|...|en))] for a non-empty [extn], [.*?] otherwise. The
    entries of [extn] are spliced into the pattern text, where Python
    reads them as patterns. They are read here as literal text: this is
    the pattern Python builds when every entry is [operator_free], and
    the statements that depend on the entries are made for such entries
    only. *)
Fixpoint alternatives (l : list string) : regex :=
  match l with
  | [] => Lit ""
  | [x] => Lit x
  | x :: l' => Alt (Lit x) (alternatives l')
  end.

Definition truthy (extn : option (list string)) : bool :=
  match extn with
  | None | Some [] => false
  | Some (_ :: _) => true
  end.

Definition ext_regex (extn : option (list string)) : regex :=
  if truthy extn
  then Group 4 (Lit "." ⋅ Group 5 (alternatives (default [] extn)))
  else StarLazy Dot.

(** [.*?{"hash":"([a-zA-Z0-9]+)".*?"ext":"(\.(] ext_regex [))".*?] *)
Definition image_re (extn : option (list string)) : regex :=
  (StarLazy Dot ⋅ Lit hash_open ⋅ Group 1 (Plus Alnum) ⋅ Lit dq ⋅
   StarLazy Dot ⋅ Lit ext_open ⋅
   Group 2 (Lit "." ⋅ Group 3 (ext_regex extn)) ⋅ Lit dq ⋅
   StarLazy Dot)%re.

(** [[i[0:2] for i in re.findall(..., html)]] *)
Definition found_pairs (extn : option (list string)) (html : string)
  : list (string * string) :=
  (λ g, (group g 1, group g 2)) <$> findall (image_re extn) html.

(** [Counter], a dictionary in insertion order: [cnt[k] += 1] *)
Fixpoint counter_incr (k : string) (c : list (string * nat))
  : list (string * nat) :=
  match c with
  | [] => [(k, 1)]
  | (k', n) :: c' =>
      if bool_decide (k = k') then (k', S n) :: c'
      else (k', n) :: counter_incr k c'
  end.

Definition count_extensions (ids : list (string * string))
  : list (string * nat) :=
  foldl (λ c i, counter_incr i.2 c) [] ids.

Definition request_headers : list (string * string) :=
  [("User-Agent",
    "Mozilla/5.0 (Windows NT 10.0; Win64; x64) AppleWebKit/537.36 (KHTML, like Gecko) Chrome/91.0.4472.124 Safari/537.36");
   ("Accept", "image/*,text/html;q=0.8,*/*;q=0.7");
   ("Referer", "https://imgur.com/")].

(** Lines 77-82: the URL check. *)
Definition check_url (album_url : string) : M (string * string) :=
  match re_match album_url_re album_url with
  | None =>
      raise (Exc ImgurAlbumException
               ("URL must be a valid Imgur Album " ++ album_url))
  | Some m => mret (group m 1, group m 3)
  end.

(** Lines 100-108: the listing request. Inside the [try], the response
    and its status code; in the [except Exception as e] branch,
    [self.response = False] and [response_code = e.code]. *)
Definition read_listing (e : env) (fullListURL : string)
  : M http_response :=
  r ← try_except
        (resp ← session_get e fullListURL;
         mret (Some resp, PInt (status_code resp)))
        [Exception]
        (λ ex, code ← exc_getattr ex "code"; mret (None, code));
  let '(resp, response_code) := r in
  match resp with
  | Some resp =>
      if negb (response_bool resp)
         || negb (status_code resp =? codes_ok)%Z
      then
        msg ← format_d "Error reading Imgur: Error Code " response_code;
        raise (Exc ImgurAlbumException msg)
      else mret resp
  | None =>
      msg ← format_d "Error reading Imgur: Error Code " response_code;
      raise (Exc ImgurAlbumException msg)
  end.

(** Lines 111-117: the pairs of the page, without repetition. *)
Definition extract (p : process) (extn : option (list string))
    (html : string) : list (string * string) :=
  list_of_set p (found_pairs extn html).

Definition __init__ (e : env) (p : process) (album_url : string)
    (extn : option (list string)) (retry_strategy : option Retry)
    (verbose : bool) : M t :=
  let retry_strategy := default default_retry_strategy retry_strategy in
  m ← check_url album_url;
  let '(protocol, album_key) := m in
  let fullListURL := "http://imgur.com/a/" ++ album_key ++ "/layout/blog" in
  response ← read_listing e fullListURL;
  let html := text response in
  let imageIDs := extract p extn html in
  let imageURLs :=
    (λ i, "https://i.imgur.com/" ++ i.1 ++ i.2) <$> imageIDs in
  mret (Make album_url verbose [] [] [] protocol album_key retry_strategy
          request_headers response imageIDs imageURLs
          (count_extensions imageIDs)).

Definition num_images (self : t) : nat := length (imageIDs self).

(** [Counter.most_common()] is
    [sorted(self.items(), key=itemgetter(1), reverse=True)]: by
    decreasing count, and, the sort being stable, first counted first
    among equal counts. An entry is put before the first entry of the
    sorted rest whose count is not greater than its own. *)
Fixpoint insert_by_count (x : string * nat) (l : list (string * nat))
  : list (string * nat) :=
  match l with
  | [] => [x]
  | y :: l' =>
      if (x.2 <? y.2)%nat then y :: insert_by_count x l' else x :: y :: l'
  end.

Definition most_common (c : list (string * nat)) : list (string * nat) :=
  foldr insert_by_count [] c.

Definition list_extensions (self : t) : list (string * nat) :=
  most_common (cnt self).

Definition on_image_download (self : t) (callback : string) : t :=
  Make (album_url self) (verbose self)
    (image_callbacks self ++ [callback]) (success_callbacks self)
    (complete_callbacks self) (protocol self) (album_key self)
    (session self) (headers self) (response self) (imageIDs self)
    (imageURLs self) (cnt self).

Definition on_download_success (self : t) (callback : string) : t :=
  Make (album_url self) (verbose self)
    (image_callbacks self) (success_callbacks self ++ [callback])
    (complete_callbacks self) (protocol self) (album_key self)
    (session self) (headers self) (response self) (imageIDs self)
    (imageURLs self) (cnt self).

Definition on_complete (self : t) (callback : string) : t :=
  Make (album_url self) (verbose self)
    (image_callbacks self) (success_callbacks self)
    (complete_callbacks self ++ [callback]) (protocol self)
    (album_key self) (session self) (headers self) (response self)
    (imageIDs self) (imageURLs self) (cnt self).

(** [enumerate(xs, start=n)] *)
Fixpoint enumerate {A} (n : nat) (xs : list A) : list (nat * A) :=
  match xs with
  | [] => []
  | x :: xs' => (n, x) :: enumerate (S n) xs'
  end.

Definition image_url_of (image : string * string) : string :=
  "http://i.imgur.com/" ++ image.1 ++ image.2.

Definition path_of (self : t) (albumFolder : string) (useKey : bool)
    (counter : nat) (image : string * string) : string :=
  let suffix := "_" ++ rjust 2 "0" (pretty counter) in
  if useKey
  then os_path_join albumFolder (album_key self ++ suffix ++ image.2)
  else os_path_join albumFolder (image.1 ++ suffix ++ image.2).

(** The request and the destination of the [counter]-th item. *)
Definition item_url (item : nat * (string * string)) : string :=
  image_url_of item.2.

Definition item_path (self : t) (albumFolder : string) (useKey : bool)
    (item : nat * (string * string)) : string :=
  path_of self albumFolder useKey item.1 item.2.

Definition album_folder (self : t) (foldername : option string) : string :=
  match foldername with
  | Some f => f
  | None => album_key self
  end.

(** The classes of the [except] clause of [save_images]. *)
Definition download_errors : list exc_class :=
  [ConnectionError; Timeout; HTTPError; RequestException;
   TooManyRedirects; UnidentifiedImageError; MaxRetryError].

(** The body of the [for] loop of [save_images], lines 195-231. *)
Definition save_image (e : env) (self : t) (albumFolder : string)
    (useKey : bool) (item : nat * (string * string)) : M unit :=
  let '(counter, image) := item in
  let image_url := image_url_of image in
  let path := path_of self albumFolder useKey counter image in
  emit ((λ fn, EvImage fn counter image_url path) <$> image_callbacks self);;
  isfile ← os_path_isfile path;
  if isfile : bool then
    when (verbose self)
      (emit [EvPrint ("Skipping, " ++ path ++ " alreadyexists.")])
  else
    try_except
      (imageRequest ← session_get e image_url;
       let imageData := content imageRequest in
       wh ← image_open_size e imageData;
       let '(w, h) := wh in
       if ((w =? 161) && (h =? 81))%Z then
         mret tt                                          (* continue *)
       else
         write_file e path imageData;;
         emit ((λ fn, EvSuccess fn counter image_url path)
                 <$> success_callbacks self))
      download_errors
      (λ ex,
         when (verbose self)
           (emit [EvPrint ("Download failed: " ++ class_name (exc_cls ex)
                           ++ " " ++ exc_msg ex)]);;
         ex_path ← os_path_exists e path;
         when ex_path (os_remove e path)).

Definition save_images (e : env) (self : t) (foldername : option string)
    (useKey : bool) : M unit :=
  let albumFolder := album_folder self foldername in
  ex_folder ← os_path_exists e albumFolder;
  when (negb ex_folder) (os_makedirs e albumFolder);;
  for_each (enumerate 1 (imageIDs self))
    (save_image e self albumFolder useKey);;
  emit (EvComplete <$> complete_callbacks self).

(** *** Attribute lookup *)

(** [self.__dict__] once [__init__] has run. *)
Definition instance_dict (self : t) : gmap string pyval :=
  list_to_map
    [("album_url", PStr (album_url self));
     ("verbose", PBool (verbose self));
     ("image_callbacks", PStrs (image_callbacks self));
     ("success_callbacks", PStrs (success_callbacks self));
     ("complete_callbacks", PStrs (complete_callbacks self));
     ("protocol", PStr (protocol self));
     ("album_key", PStr (album_key self));
     ("session", PObject "Session");
     ("headers", PObject "dict");
     ("response", PObject "Response");
     ("imageIDs", PPairs (imageIDs self));
     ("imageURLs", PStrs (imageURLs self));
     ("cnt", PObject "Counter")].

(** The functions of the class body. *)
Definition class_dict : gmap string pyval :=
  list_to_map
    ((λ f, (f, PFunction f)) <$>
     ["__init__"; "num_images"; "list_extensions"; "album_key";
      "on_image_download"; "on_download_success"; "on_complete";
      "save_images"]).

(** [self.name]: the instance dictionary is looked up before the plain
    attributes of the class; a function found on the class comes back
    bound to [self]. *)
Definition getattr (self : t) (name : string) : M pyval :=
  match instance_dict self !! name with
  | Some v => mret v
  | None =>
      match class_dict !! name with
      | Some (PFunction f) => mret (PMethod f)
      | Some v => mret v
      | None =>
          raise (Exc AttributeError
                   ("'ImgurAlbumDownloader' object has no attribute '"
                    ++ name ++ "'"))
      end
  end.

Definition type_name (v : pyval) : string :=
  match v with
  | PNone => "NoneType" | PBool _ => "bool" | PInt _ => "int"
  | PStr _ => "str" | PPairs _ | PStrs _ | PCounts _ => "list"
  | PFunction _ => "function" | PMethod _ => "method"
  | PObject n => n
  end.

(** The parameters without a default that each function of the class
    has after [self], and the [TypeError] of a call that leaves
    parameters without a value (Python 3.10 and later name the function
    with its class). *)
Definition required_parameters (f : string) : list string :=
  if bool_decide (f = "__init__") then ["album_url"]
  else if bool_decide (f ∈ ["on_image_download"; "on_download_success";
                            "on_complete"])
  then ["callback"]
  else [].

Definition missing_arguments (f : string) (names : list string) : exc :=
  Exc TypeError
    ("ImgurAlbumDownloader." ++ f ++ "() missing " ++
     match names with
     | [a] => "1 required positional argument: '" ++ a ++ "'"
     | [a; b] =>
         "2 required positional arguments: '" ++ a ++ "' and '" ++ b ++ "'"
     | _ => pretty (length names) ++ " required positional arguments"
     end).

(** [v()]: calling a value with no argument. A method whose function
    asks for nothing but [self] is run: [num_images], [list_extensions],
    [save_images] and [album_key], whose body is [return self.album_key];
    the others lack an argument. (Attribute lookup makes methods of the
    functions of the class only; for any other name there is nothing to
    run.) A function taken from the class lacks [self] too. Anything
    else is not callable. *)
Definition call (e : env) (self : t) (v : pyval) : M pyval :=
  match v with
  | PMethod f =>
      match required_parameters f with
      | [] =>
          if bool_decide (f = "num_images") then
            mret (PInt (Z.of_nat (num_images self)))
          else if bool_decide (f = "list_extensions") then
            mret (PCounts (list_extensions self))
          else if bool_decide (f = "save_images") then
            save_images e self None false;; mret PNone
          else if bool_decide (f = "album_key") then
            getattr self "album_key"
          else
            raise (Exc AttributeError
                     ("type object 'ImgurAlbumDownloader' has no attribute '"
                      ++ f ++ "'"))
      | names => raise (missing_arguments f names)
      end
  | PFunction f => raise (missing_arguments f ("self" :: required_parameters f))
  | _ =>
      raise (Exc TypeError
               ("'" ++ type_name v ++ "' object is not callable"))
  end.

End ImgurAlbumDownloader.

(** ** What a pattern matches *)

(** [matches r w g g']: the text [w] is matched by [r], and the groups go
    from [g] to [g']. This is the declarative reading of a pattern, with
    no search order: the matcher returns one of these matches, the first
    in its order. *)
Fixpoint matches (r : regex) (w : string) (g g' : gmap nat string) : Prop :=
  match r with
  | Lit l => w = l ∧ g' = g
  | Plus c => w ≠ "" ∧ all (in_class c) w = true ∧ g' = g
  | StarLazy c => all (in_class c) w = true ∧ g' = g
  | Seq r1 r2 =>
      ∃ w1 w2 g1, w = w1 ++ w2 ∧ matches r1 w1 g g1 ∧ matches r2 w2 g1 g'
  | Alt r1 r2 => matches r1 w g g' ∨ matches r2 w g g'
  | Opt r1 => (w = "" ∧ g' = g) ∨ matches r1 w g g'
  | Group n r1 => ∃ g1, matches r1 w g g1 ∧ g' = <[n := w]> g1
  end.

(** The album URL shape in words: scheme http or https, the gallery host
    with an optional www. and an optional mobile subdomain m., an optional
    a/ or gallery/ segment, an alphanumeric key, an optional fragment of
    a hash sign and digits. *)
Definition url_fragment (frag : string) : Prop :=
  frag = "" ∨ ∃ d, frag = "#" ++ d ∧ d ≠ "" ∧ all (in_class Digit) d = true.

Definition album_url_shape (protocol key url : string) : Prop :=
  ∃ www m seg frag : string,
    url = protocol ++ "://" ++ www ++ m ++ "imgur.com/" ++ seg ++ key ++ frag ∧
    (protocol = "http" ∨ protocol = "https") ∧
    (www = "" ∨ www = "www.") ∧
    (m = "" ∨ m = "m.") ∧
    (seg = "" ∨ seg = "a/" ∨ seg = "gallery/") ∧
    key ≠ "" ∧ all (in_class Alnum) key = true ∧
    url_fragment frag.

(** The characters a key and a fragment are made of; the slash is not
    one of them. *)
Definition key_char (a : ascii) : bool :=
  in_class Alnum a || bool_decide (a = "#"%char).

(** Some text at the start of [url] has the album URL shape. *)
Definition album_url_prefix (protocol key url : string) : Prop :=
  ∃ pre post, url = pre ++ post ∧ album_url_shape protocol key pre.

(** ** What happens to one item *)

(** The outcome of one item of the download loop, in the words of the
    data model: saved, skipped because the file is there, skipped as the
    placeholder image, or failed with a reason. Two more end the loop:
    [Uncaught] is a failure that the [except] clause does not list;
    [CleanupFailed] is a listed failure after which the [except] branch
    itself raises, on removing what sits at the destination. *)
Inductive download_outcome : Type :=
  | Saved (data : list byte)
  | SkippedExisting
  | SkippedPlaceholder
  | Failed (reason : exc)
  | Uncaught (reason : exc)
  | CleanupFailed (reason raised : exc).

(** What becomes of an exception raised inside the [try], for an item
    whose destination [path] holds no file: the [except] branch takes
    the listed ones, and removes what exists at [path], which can only
    be a directory. *)
Definition failure (e : env) (path : string) (ex : exc)
  : download_outcome :=
  if caught_by ImgurAlbumDownloader.download_errors ex then
    if is_dir e path
    then CleanupFailed ex
           (Exc IsADirectoryError
              (errno_message "21" "Is a directory" path))
    else Failed ex
  else Uncaught ex.

(** The outcome of requesting and decoding [url] and writing the file
    at [path]. *)
Definition attempt (e : env) (url path : string) : download_outcome :=
  match http_get e url with
  | inl ex => failure e path ex
  | inr r =>
      match image_size e (content r) with
      | inl ex => failure e path ex
      | inr (w, h) =>
          if ((w =? 161) && (h =? 81))%Z then SkippedPlaceholder
          else
            match write_error e path with
            | Some ex => failure e path ex
            | None => Saved (content r)
            end
      end
  end.

(** The outcome for an item whose destination is [path], on the files
    [fs]. *)
Definition classify (e : env) (fs : gmap string (list byte))
    (url path : string) : download_outcome :=
  match fs !! path with
  | Some _ => SkippedExisting
  | None => attempt e url path
  end.

(** Lines 190-191 of [save_images]: the album folder is created unless
    something exists at its path. *)
Definition ensure_folder (e : env) (albumFolder : string) : M unit :=
  ex_folder ← os_path_exists e albumFolder;
  when (negb ex_folder) (os_makedirs e albumFolder).

(** The album folder is there or can be made: something exists at its
    path, or [os.makedirs] does not raise on it. *)
Definition folder_ready (e : env) (fs : gmap string (list byte))
    (albumFolder : string) : Prop :=
  is_Some (fs !! albumFolder) ∨ is_dir e albumFolder = true ∨
  (albumFolder ≠ "" ∧ makedirs_error e albumFolder = None).

(** The turn of one item, as the outcome of the item tells it. The
    before-download callbacks are called first, whatever the outcome.
    An item whose file is there: nothing more, but a line in verbose
    mode. Every other item is requested. Saved: the file is written and
    the success callbacks are called. Placeholder: nothing more. Failed:
    nothing more, but a line in verbose mode. *)
Definition item_events (e : env) (self : ImgurAlbumDownloader.t)
    (albumFolder : string) (useKey : bool) (fs : gmap string (list byte))
    (it : nat * (string * string)) : list event :=
  let url := ImgurAlbumDownloader.item_url it in
  let path := ImgurAlbumDownloader.item_path self albumFolder useKey it in
  ((λ fn, EvImage fn it.1 url path)
     <$> ImgurAlbumDownloader.image_callbacks self) ++
  match classify e fs url path with
  | SkippedExisting =>
      if ImgurAlbumDownloader.verbose self
      then [EvPrint ("Skipping, " ++ path ++ " alreadyexists.")]
      else []
  | Saved _ =>
      EvGet url ::
      ((λ fn, EvSuccess fn it.1 url path)
         <$> ImgurAlbumDownloader.success_callbacks self)
  | SkippedPlaceholder | Uncaught _ => [EvGet url]
  | Failed ex | CleanupFailed ex _ =>
      EvGet url ::
      (if ImgurAlbumDownloader.verbose self
       then [EvPrint ("Download failed: " ++ class_name (exc_cls ex)
                      ++ " " ++ exc_msg ex)]
       else [])
  end.

Definition item_files (e : env) (self : ImgurAlbumDownloader.t)
    (albumFolder : string) (useKey : bool) (fs : gmap string (list byte))
    (it : nat * (string * string)) : gmap string (list byte) :=
  let url := ImgurAlbumDownloader.item_url it in
  let path := ImgurAlbumDownloader.item_path self albumFolder useKey it in
  match classify e fs url path with
  | Saved data => <[path := data]> fs
  | _ => fs
  end.

Definition turn (e : env) (self : ImgurAlbumDownloader.t)
    (albumFolder : string) (useKey : bool) (w : world)
    (it : nat * (string * string)) : world :=
  World (item_files e self albumFolder useKey (files w) it)
    (trace w ++ item_events e self albumFolder useKey (files w) it).

(** How the turn of an item ends: with the exception that leaves the
    loop, if the outcome is one that does. *)
Definition turn_raises (o : download_outcome) : option exc :=
  match o with
  | Uncaught ex => Some ex
  | CleanupFailed _ raised => Some raised
  | _ => None
  end.

(** Reading a trace: the URLs requested, and the calls received by each
    of the three kinds of callback. *)
Definition gets (tr : list event) : list string :=
  omap (λ ev, match ev with EvGet u => Some u | _ => None end) tr.

Definition image_calls (tr : list event)
  : list (string * nat * string * string) :=
  omap (λ ev, match ev with
              | EvImage fn c u p => Some (fn, c, u, p)
              | _ => None
              end) tr.

Definition success_calls (tr : list event)
  : list (string * nat * string * string) :=
  omap (λ ev, match ev with
              | EvSuccess fn c u p => Some (fn, c, u, p)
              | _ => None
              end) tr.

Definition complete_calls (tr : list event) : list string :=
  omap (λ ev, match ev with EvComplete fn => Some fn | _ => None end) tr.

(** A transport-level failure: connection error, timeout, HTTP error,
    too many redirects, retries exhausted. *)
Definition transport_error (ex : exc) : Prop :=
  exc_cls ex ∈ [ConnectionError; Timeout; HTTPError; TooManyRedirects;
                RetryError; MaxRetryError; RequestException].

(** How many times [x] occurs in [l]. *)
Definition occurrences {A} `{EqDecision A} (x : A) (l : list A) : nat :=
  length (filter (λ y, y = x) l).

(** ** Sample surroundings *)

(** Two interpreter processes whose sets iterate in opposite orders. *)
Definition process_a : process :=
  Process remove_dups NoDup_remove_dups elem_of_remove_dups.

Definition process_b : process :=
  Process (λ xs, reverse (remove_dups xs))
    (λ xs, proj2 (NoDup_Permutation_proper _ _
                    (reverse_Permutation (remove_dups xs)))
                 (NoDup_remove_dups xs))
    (λ xs x, iff_trans (elem_of_reverse x (remove_dups xs))
                       (elem_of_remove_dups xs x)).

(** One fragment of the listing page: [{"hash":"id","ext":"ext"}]. *)
Definition fragment (id ext : string) : string :=
  hash_open ++ id ++ dq ++ "," ++ ext_open ++ ext ++ dq ++ "}".

(** A network that answers every request with the same response, one
    that fails every request with the same exception, and a decoder that
    reports the same size for every image. *)
Definition answering (r : http_response) : string → exc + http_response :=
  λ _, inr r.

Definition failing (ex : exc) : string → exc + http_response :=
  λ _, inl ex.

Definition sized (w h : Z) : list byte → exc + (Z * Z) :=
  λ _, inr (w, h).

Definition empty_world : world := World ∅ [].

(** ** Pages made of fragments *)

(** A character of the text between fragments: anything but an opening
    brace. A character of an extension after its dot: anything but a
    double quote or a newline. *)
Definition not_brace (a : ascii) : bool := negb (bool_decide (a = "{"%char)).

Definition ext_char (a : ascii) : bool :=
  in_class Dot a && negb (bool_decide (a = "034"%char)).

(** A page as a sequence of fragments, each after some text, and the
    text after the last one. *)
Fixpoint page (items : list (string * (string * string))) (tail : string)
  : string :=
  match items with
  | [] => tail
  | (before, (id, ext)) :: items' =>
      before ++ fragment id ext ++ page items' tail
  end.

(** The fragment with extension [.x] up to its closing quote, and the
    groups that its match sets. *)
Definition core (id x : string) : string :=
  hash_open ++ id ++ dq ++ "," ++ ext_open ++ "." ++ x ++ dq.

Definition found (id x : string) : gmap nat string :=
  <[2 := "." ++ x]> (<[3 := x]> (<[1 := id]> ∅)).

(** The fragment is well formed (an alphanumeric id, an extension that
    starts with a dot) and the text before it has no opening brace. *)
Definition well_formed (item : string * (string * string)) : Prop :=
  all not_brace item.1 = true ∧
  item.2.1 ≠ "" ∧ all (in_class Alnum) item.2.1 = true ∧
  ∃ x, item.2.2 = "." ++ x ∧ all ext_char x = true.

(** A listing page with the fragment of abc1.jpg twice and that of
    xyz2.png once. *)
Definition sample_page : string :=
  "<html>" ++ fragment "abc1" ".jpg" ++ "," ++ fragment "abc1" ".jpg"
  ++ "," ++ fragment "xyz2" ".png" ++ "</html>".

(** A network where the request of [url] fails with [ex] and every other
    request is answered with [r]. *)
Definition failing_on (url : string) (ex : exc) (r : http_response)
  : string → exc + http_response :=
  λ u, if bool_decide (u = url) then inl ex else inr r.

(** An album of five items, with one callback of each kind registered. *)
Definition sample_album : ImgurAlbumDownloader.t :=
  ImgurAlbumDownloader.Make "http://imgur.com/a/uOOju#6" false
    ["progress"] ["saved"] ["done"] "http" "uOOju" default_retry_strategy
    ImgurAlbumDownloader.request_headers (HttpResponse 200 "" [])
    [("aa", ".jpg"); ("bb", ".jpg"); ("cc", ".png"); ("dd", ".gif");
     ("ee", ".jpg")]
    ["https://i.imgur.com/aa.jpg"; "https://i.imgur.com/bb.jpg";
     "https://i.imgur.com/cc.png"; "https://i.imgur.com/dd.gif";
     "https://i.imgur.com/ee.jpg"]
    [(".jpg", 3); (".png", 1); (".gif", 1)].

(** The third request of that album times out; the others are answered
    with an image of 640 by 480. *)
Definition third_fails : env :=
  Env (failing_on "http://i.imgur.com/cc.png" (Exc Timeout "timed out")
         (HttpResponse 200 "" [x89; x50; x4e; x47]%byte))
      (sized 640 480).

(** The third image of that album is refused by the decoder as a
    decompression bomb; the others are images of 640 by 480. *)
Definition third_is_a_bomb : env :=
  Env (λ u, inr (HttpResponse 200 ""
                   (if bool_decide (u = "http://i.imgur.com/cc.png")
                    then [x42; x4d]%byte
                    else [x89; x50; x4e; x47]%byte)))
      (λ data, if bool_decide (data = [x42; x4d]%byte)
               then inl (Exc DecompressionBombError
                           "Image size (200000000 pixels) exceeds limit of 178956970 pixels, could be decompression bomb DOS attack.")
               else inr (640, 480)%Z).

(** Every request times out, and a directory sits where the file of the
    first item of that album would go. *)
Definition directory_in_the_way : env :=
  MkEnv (failing (Exc Timeout "timed out")) (sized 640 480)
    (λ path, bool_decide (path = "uOOju/aa_01.jpg")) (λ _, None) (λ _, None).

(** Every request is answered with the 161 by 81 placeholder. *)
Definition all_placeholders : env :=
  Env (answering (HttpResponse 200 "" [xff; xd8]%byte)) (sized 161 81).

(** Every request is answered with an image of 640 by 480. *)
Definition all_images : env :=
  Env (answering (HttpResponse 200 "" [x89; x50; x4e; x47]%byte))
      (sized 640 480).

(** What the constructor returns for http://imgur.com/a/uOOju#6 when the
    listing page is empty. *)
Definition empty_album : ImgurAlbumDownloader.t :=
  ImgurAlbumDownloader.Make "http://imgur.com/a/uOOju#6" false [] [] []
    "http" "uOOju" default_retry_strategy
    ImgurAlbumDownloader.request_headers (HttpResponse 200 "" []) [] [] [].

(** ** Reading a run *)

(** The lines printed during a trace by the class itself (verbose
    mode). *)
Definition prints (tr : list event) : list string :=
  omap (λ ev, match ev with EvPrint l => Some l | _ => None end) tr.

(** How many of the items have the extension [ext], and the count a
    [Counter] holds for a key (0 for a key it does not hold). *)
Definition count_of (ext : string) (ids : list (string * string)) : nat :=
  length (filter (λ i, i.2 = ext) ids).

Fixpoint counter_get (k : string) (c : list (string * nat)) : nat :=
  match c with
  | [] => 0
  | (k', n) :: c' => if bool_decide (k = k') then n else counter_get k c'
  end.

(** An item as the image pattern can produce it: a non-empty
    alphanumeric id, an extension that starts with a dot. *)
Definition item_ok (i : string * string) : Prop :=
  i.1 ≠ "" ∧ all (in_class Alnum) i.1 = true ∧ ∃ x, i.2 = "." ++ x.

(** An extension filter whose entries, if there are any, hold no
    pattern operator. *)
Definition plain_filter (extn : option (list string)) : Prop :=
  Forall (λ entry, ImgurAlbumDownloader.operator_free entry = true)
    (default [] extn).

(** The suffix of a file name, [_{:0>2}] of the counter, and the file
    name of an item. *)
Definition suffix (counter : nat) : string :=
  "_" ++ rjust 2 "0" (pretty counter).

Definition file_name (self : ImgurAlbumDownloader.t) (useKey : bool)
    (item : nat * (string * string)) : string :=
  (if useKey then ImgurAlbumDownloader.album_key self else item.2.1)
  ++ suffix item.1 ++ item.2.2.

(** An instance after its user has registered callbacks: [fs] with
    [on_image_download], [gs] with [on_download_success], [hs] with
    [on_complete], each list in the order of the calls. *)
Definition with_callbacks (d : ImgurAlbumDownloader.t)
    (fs gs hs : list string) : ImgurAlbumDownloader.t :=
  foldl ImgurAlbumDownloader.on_complete
    (foldl ImgurAlbumDownloader.on_download_success
       (foldl ImgurAlbumDownloader.on_image_download d fs) gs) hs.

(** ** The files of a run *)

(** A file a download left: the body of the response to the request of
    one of the items, which decodes to something else than the
    placeholder, at the destination of that item, where the file could
    be written. *)
Definition downloaded (e : env) (self : ImgurAlbumDownloader.t)
    (albumFolder : string) (useKey : bool) (p : string) (b : list byte)
    (items : list (nat * (string * string))) : Prop :=
  ∃ it r wh, it ∈ items ∧
    p = ImgurAlbumDownloader.item_path self albumFolder useKey it ∧
    http_get e (ImgurAlbumDownloader.item_url it) = inr r ∧ b = content r ∧
    image_size e (content r) = inr wh ∧ wh ≠ (161, 81)%Z ∧
    write_error e p = None.

(** What the file of an item is after its turn, from the files before
    and the outcome of its download. *)
Definition file_after (e : env) (self : ImgurAlbumDownloader.t)
    (albumFolder : string) (useKey : bool) (fs : gmap string (list byte))
    (it : nat * (string * string)) : option (list byte) :=
  match fs !! ImgurAlbumDownloader.item_path self albumFolder useKey it with
  | Some b => Some b
  | None =>
      match attempt e (ImgurAlbumDownloader.item_url it)
              (ImgurAlbumDownloader.item_path self albumFolder useKey it)
      with
      | Saved data => Some data
      | _ => None
      end
  end.

(** ** The script *)

(** Lines 239-284, what runs under [if __name__ == '__main__']. *)
Module Script.
Import ImgurAlbumDownloader.

Definition nl : string := String "010"%char "".

Definition help_message : string :=
  nl ++ "Quickly and easily download an album from Imgur." ++ nl
  ++ nl ++ "Format:" ++ nl
  ++ "    $ python imguralbum.py [album URL] [destination folder]" ++ nl
  ++ nl ++ "Example:" ++ nl
  ++ "    $ python imguralbum.py http://imgur.com/a/uOOju#6 /Users/alex/images"
  ++ nl ++ nl
  ++ "If you omit the dest folder name, the utility will create one with the same name"
  ++ nl ++ "as the album" ++ nl
  ++ "(for example for http://imgur.com/a/uOOju it'll create uOOju/ in the cwd)"
  ++ nl.

(** How the script ends: [exit(status)] ([exit()] is status 0), or an
    exception that nothing handles, which the interpreter reports with
    a traceback. *)
Inductive termination : Type :=
  | Exit (status : Z)
  | Traceback (ex : exc).

(** [print(line)] *)
Definition print (line : string) : M unit := emit [EvPrint line].

(** The two functions the script registers as callbacks. A registered
    callback is known to the class by its name, and a call to it is an
    event of the trace; [stdout] below prints what the body of each
    prints at that event. *)
Definition print_image_progress : string := "print_image_progress".

Definition all_done : string := "all_done".

(** The body of the [try], up to the final [exit()]. [args] is
    [sys.argv]. *)
Definition try_block (e : env) (p : process) (args : list string)
  : M unit :=
  downloader ← __init__ e p (default "" (args !! 1)) None None true;
  print ("Found " ++ pretty (num_images downloader) ++ " images in album");;
  for_each (list_extensions downloader)
    (λ i, print ("Found " ++ pretty i.2 ++ " files with " ++ i.1
                 ++ " extension"));;
  let downloader := on_image_download downloader print_image_progress in
  let downloader := on_complete downloader all_done in
  let albumFolder :=
    if bool_decide (length args = 3) then args !! 2 else None in
  save_images e downloader albumFolder false.

(** The [except ImgurAlbumException as e] branch, up to [exit(1)]. *)
Definition usage_error (ex : exc) : M unit :=
  print ("Error: " ++ exc_msg ex);;
  print "";;
  print "How to use";;
  print "=============";;
  print help_message.

(** The script. [sys.argv] is the path of the script followed by the
    arguments of the command line, so it is never empty. *)
Definition main (e : env) (p : process) (prog : string)
    (argv : list string) (w : world) : termination * world :=
  let args := prog :: argv in
  if bool_decide (length args = 1) then
    (Exit 0, (print help_message w).2)
  else
    match try_block e p args w with
    | (Ret _, w1) => (Exit 0, w1)
    | (Raise ex, w1) =>
        if isinstance ex ImgurAlbumException
        then (Exit 1, (usage_error ex w1).2)
        else (Traceback ex, w1)
    end.

(** What a trace shows on the standard output: the lines the class
    prints, and those the two callbacks print when they are called,
    [print_image_progress(index, url, dest)] two lines and [all_done()]
    an empty line and a last word. *)
Definition stdout (tr : list event) : list string :=
  tr ≫= λ ev,
    match ev with
    | EvPrint l => [l]
    | EvImage fn index url dest =>
        if bool_decide (fn = print_image_progress)
        then ["Downloading Image " ++ pretty index;
              "    " ++ url ++ " >> " ++ dest]
        else []
    | EvComplete fn =>
        if bool_decide (fn = all_done) then [""; "Done!"] else []
    | _ => []
    end.

(** Reading the script: the folder it passes to [save_images] for
    the arguments after the URL, the instance with the two callbacks
    registered, the lines that announce what was found, and the lines
    that report a usage error. *)
Definition folder_argument (more : list string) : option string :=
  match more with
  | [folder] => Some folder
  | _ => None
  end.

Definition registered (d : t) : t :=
  on_complete (on_image_download d print_image_progress) all_done.

Definition announcement (d : t) : list string :=
  ("Found " ++ pretty (num_images d) ++ " images in album")
  :: ((λ i : string * nat,
         "Found " ++ pretty i.2 ++ " files with " ++ i.1 ++ " extension")
        <$> list_extensions d).

Definition usage_lines (msg : string) : list string :=
  [("Error: " ++ msg)%string; ""; "How to use"; "============="; help_message].

End Script.

(** Surroundings for the examples: a listing page behind a network
    that serves images. *)
Definition serving (page_text : string) : env :=
  Env (λ u, if bool_decide (u = "http://imgur.com/a/uOOju/layout/blog")
            then inr (HttpResponse 200 page_text [])
            else inr (HttpResponse 200 "" [x89; x50; x4e; x47]%byte))
      (sized 640 480).

(** What the constructor returns for http://imgur.com/a/uOOju#6 when
    the listing is the sample page, in the first process. *)
Definition found_album (verbose : bool) : ImgurAlbumDownloader.t :=
  ImgurAlbumDownloader.Make "http://imgur.com/a/uOOju#6" verbose [] [] []
    "http" "uOOju" default_retry_strategy
    ImgurAlbumDownloader.request_headers (HttpResponse 200 sample_page [])
    [("abc1", ".jpg"); ("xyz2", ".png")]
    ["https://i.imgur.com/abc1.jpg"; "https://i.imgur.com/xyz2.png"]
    [(".jpg", 1); (".png", 1)].

(** * Facts *)

(** ** Text *)

Module StrFacts.

Lemma str_app_cons (a : ascii) (s1 s2 : string) :
  String a s1 ++ s2 = String a (s1 ++ s2).
Proof. reflexivity. Qed.

Lemma str_app_nil_l (s : string) : "" ++ s = s.
Proof. reflexivity. Qed.

Lemma str_app_nil_r (s : string) : s ++ "" = s.
Proof. induction s as [|a s IH]; [done|]. by rewrite str_app_cons, IH. Qed.

Lemma str_app_assoc (s1 s2 s3 : string) : (s1 ++ s2) ++ s3 = s1 ++ (s2 ++ s3).
Proof.
  induction s1 as [|a s1 IH]; [done|]. by rewrite !str_app_cons, IH.
Qed.

Lemma str_length_app (s1 s2 : string) :
  String.length (s1 ++ s2) = String.length s1 + String.length s2.
Proof.
  induction s1 as [|a s1 IH]; [done|]. rewrite str_app_cons. simpl. by rewrite IH.
Qed.

Lemma str_app_inv_head (s s1 s2 : string) : s ++ s1 = s ++ s2 → s1 = s2.
Proof. apply (inj (String.append s)). Qed.

Lemma take_app_length (w s : string) : take (String.length w) (w ++ s) = w.
Proof.
  induction w as [|a w IH]; simpl.
  - by destruct s.
  - by rewrite IH.
Qed.

Lemma strip_app (l s : string) : strip l (l ++ s) = Some s.
Proof.
  induction l as [|a l IH]; [done|].
  rewrite str_app_cons. simpl. by rewrite decide_True.
Qed.

Lemma strip_Some (l s s' : string) : strip l s = Some s' → s = l ++ s'.
Proof.
  revert s. induction l as [|a l IH]; intros s H; simpl in H.
  - by injection H as ->.
  - destruct s as [|b s]; [done|]. case_decide; [|done].
    subst b. rewrite str_app_cons. f_equal. by apply IH.
Qed.

Lemma all_app (p : ascii → bool) (s1 s2 : string) :
  all p (s1 ++ s2) = all p s1 && all p s2.
Proof.
  induction s1 as [|a s1 IH]; [done|].
  rewrite str_app_cons. simpl. by rewrite IH, andb_assoc.
Qed.

Lemma all_impl (p q : ascii → bool) (s : string) :
  (∀ a, p a = true → q a = true) → all p s = true → all q s = true.
Proof.
  intros Hpq. induction s as [|a s IH]; simpl; [done|].
  rewrite !andb_true_iff. intros [??]. auto.
Qed.

End StrFacts.

Import StrFacts.

(** ** The matcher *)

Module ReFacts.

Section star.
Context {A : Type}.
Implicit Types (k : string → option A) (c : cclass).

Lemma star_greedy_sound c s k x :
  star_greedy c s k = Some x →
  ∃ w s', s = w ++ s' ∧ all (in_class c) w = true ∧ k s' = Some x.
Proof.
  induction s as [|a s IH]; simpl; intros H.
  - by exists "", "".
  - destruct (in_class c a) eqn:Ha; [|by exists "", (String a s)].
    destruct (star_greedy c s k) as [y|] eqn:Hs.
    + injection H as ->. destruct IH as (w & s' & -> & Hw & Hk); [done|].
      exists (String a w), s'. simpl. by rewrite Ha, Hw.
    + by exists "", (String a s).
Qed.

Lemma star_lazy_sound c s k x :
  star_lazy c s k = Some x →
  ∃ w s', s = w ++ s' ∧ all (in_class c) w = true ∧ k s' = Some x.
Proof.
  induction s as [|a s IH]; simpl; intros H.
  - destruct (k "") eqn:Hk; [|done]. exists "", "". by simplify_eq.
  - destruct (k (String a s)) eqn:Hk.
    { exists "", (String a s). by simplify_eq. }
    destruct (in_class c a) eqn:Ha; [|done].
    destruct IH as (w & s' & -> & Hw & Hk'); [done|].
    exists (String a w), s'. simpl. by rewrite Ha, Hw.
Qed.

Lemma star_greedy_is_Some c s k :
  is_Some (k s) → is_Some (star_greedy c s k).
Proof.
  intros Hk. destruct s as [|a s]; simpl; [done|].
  destruct (in_class c a); [|done].
  by destruct (star_greedy c s k).
Qed.

Lemma star_greedy_complete c w s' k :
  all (in_class c) w = true → is_Some (k s') →
  is_Some (star_greedy c (w ++ s') k).
Proof.
  induction w as [|a w IH]; simpl; intros Hw Hk.
  - by apply star_greedy_is_Some.
  - apply andb_true_iff in Hw as [-> Hw].
    destruct (IH Hw Hk) as [y ->]. by eexists.
Qed.

Lemma star_lazy_complete c w s' k :
  all (in_class c) w = true → is_Some (k s') →
  is_Some (star_lazy c (w ++ s') k).
Proof.
  induction w as [|a w IH]; simpl; intros Hw Hk.
  - destruct Hk as [y Hy]. destruct s'; simpl; rewrite Hy; by eexists.
  - apply andb_true_iff in Hw as [-> Hw].
    destruct (k (String a (w ++ s'))); [by eexists|]. by apply IH.
Qed.

(** A greedy repetition followed by a rest that cannot fail takes
    the whole run of characters of the class. *)
Lemma star_greedy_all c w s' k :
  all (in_class c) w = true →
  (∀ a t, s' = String a t → in_class c a = false) →
  is_Some (k s') →
  star_greedy c (w ++ s') k = k s'.
Proof.
  intros Hw Hs' [y Hy]. induction w as [|a w IH]; simpl.
  - destruct s' as [|b t]; [done|]. simpl. by rewrite (Hs' b t).
  - simpl in Hw. apply andb_true_iff in Hw as [-> Hw].
    by rewrite (IH Hw), Hy.
Qed.

Lemma plus_greedy_all c w s' k :
  w ≠ "" → all (in_class c) w = true →
  (∀ a t, s' = String a t → in_class c a = false) →
  is_Some (k s') →
  plus_greedy c (w ++ s') k = k s'.
Proof.
  intros Hne Hw Hs' Hk. destruct w as [|a w]; [done|].
  simpl in Hw |- *. apply andb_true_iff in Hw as [-> Hw].
  by apply star_greedy_all.
Qed.
End star.

Lemma consumed_app (w s' : string) : consumed (w ++ s') s' = w.
Proof.
  unfold consumed. rewrite str_length_app.
  replace (String.length w + String.length s' - String.length s')
    with (String.length w) by lia.
  apply take_app_length.
Qed.

(** Whatever the matcher returns is a match of a prefix of the input,
    and the rest of the pattern was run on what follows it. *)
Lemma rmatch_sound {A} (r : regex) :
  ∀ (s : string) (g : gmap nat string)
    (k : string → gmap nat string → option A) (x : A),
    rmatch r s g k = Some x →
    ∃ w s' g', s = w ++ s' ∧ matches r w g g' ∧ k s' g' = Some x.
Proof.
  induction r as [l|c|c|r1 IH1 r2 IH2|r1 IH1 r2 IH2|r1 IH1|n r1 IH1];
    intros s g k x H; simpl in H.
  - destruct (strip l s) as [s'|] eqn:Hs; [|done].
    apply strip_Some in Hs as ->. by exists l, s', g.
  - unfold plus_greedy in H. destruct s as [|a s]; [done|].
    destruct (in_class c a) eqn:Ha; [|done].
    apply star_greedy_sound in H as (w & s' & -> & Hw & Hk).
    exists (String a w), s', g. simpl. by rewrite Ha, Hw.
  - apply star_lazy_sound in H as (w & s' & -> & Hw & Hk).
    by exists w, s', g.
  - apply IH1 in H as (w1 & s1 & g1 & -> & H1 & H).
    apply IH2 in H as (w2 & s2 & g2 & -> & H2 & H).
    exists (w1 ++ w2), s2, g2. rewrite str_app_assoc. split; [done|].
    split; [|done]. simpl. by exists w1, w2, g1.
  - destruct (rmatch r1 s g k) as [y|] eqn:H1.
    + injection H as ->. apply IH1 in H1 as (w & s' & g' & -> & ? & ?).
      exists w, s', g'. simpl. auto.
    + apply IH2 in H as (w & s' & g' & -> & ? & ?).
      exists w, s', g'. simpl. auto.
  - destruct (rmatch r1 s g k) as [y|] eqn:H1.
    + injection H as ->. apply IH1 in H1 as (w & s' & g' & -> & ? & ?).
      exists w, s', g'. simpl. auto.
    + exists "", s, g. simpl. auto.
  - apply IH1 in H as (w & s' & g' & -> & H1 & H).
    rewrite consumed_app in H.
    exists w, s', (<[n := w]> g'). simpl. eauto.
Qed.

(** Which texts a pattern matches does not depend on the groups it
    starts from. *)
Lemma matches_any_groups (r : regex) :
  ∀ (w : string) (g g' h : gmap nat string),
    matches r w g g' → ∃ h', matches r w h h'.
Proof.
  induction r as [l|c|c|r1 IH1 r2 IH2|r1 IH1 r2 IH2|r1 IH1|n r1 IH1];
    intros w g g' h H; simpl in H |- *.
  - exists h. by destruct H.
  - exists h. by destruct H as (? & ? & _).
  - exists h. by destruct H.
  - destruct H as (w1 & w2 & g1 & -> & H1 & H2).
    destruct (IH1 _ _ _ h H1) as [h1 ?].
    destruct (IH2 _ _ _ h1 H2) as [h2 ?]. eauto 8.
  - destruct H as [H|H]; [apply (IH1 _ _ _ h) in H|apply (IH2 _ _ _ h) in H];
      destruct H as [h' ?]; eauto.
  - destruct H as [[-> _]|H]; [by eauto|].
    apply (IH1 _ _ _ h) in H as [h' ?]. eauto.
  - destruct H as (g1 & H & _). apply (IH1 _ _ _ h) in H as [h' ?]. eauto.
Qed.

(** A match of a prefix of the input makes the matcher succeed, when
    the rest of the pattern succeeds on what follows, whatever the
    groups. *)
Lemma rmatch_complete {A} (r : regex) :
  ∀ (w s' : string) (g g' : gmap nat string)
    (k : string → gmap nat string → option A),
    matches r w g g' → (∀ g'', is_Some (k s' g'')) →
    is_Some (rmatch r (w ++ s') g k).
Proof.
  induction r as [l|c|c|r1 IH1 r2 IH2|r1 IH1 r2 IH2|r1 IH1|n r1 IH1];
    intros w s' g g' k H Hk; simpl in H |- *.
  - destruct H as [-> _]. by rewrite strip_app.
  - destruct H as (Hne & Hw & _). destruct w as [|a w]; [done|].
    simpl in Hw |- *. apply andb_true_iff in Hw as [-> Hw].
    by apply star_greedy_complete.
  - destruct H as [Hw _]. by apply star_lazy_complete.
  - destruct H as (w1 & w2 & g1 & -> & H1 & H2). rewrite str_app_assoc.
    apply (IH1 _ _ _ g1); [done|]. intros g''.
    destruct (matches_any_groups _ _ _ _ g'' H2) as [h' ?].
    by apply (IH2 _ _ _ h').
  - destruct (rmatch r1 (w ++ s') g k) eqn:H1; [by eexists|].
    destruct H as [H|H]; [|by eapply IH2].
    eapply IH1 in H; [|done]. rewrite H1 in H. by destruct H.
  - destruct (rmatch r1 (w ++ s') g k) eqn:H1; [by eexists|].
    destruct H as [[-> _]|H]; [done|].
    eapply IH1 in H; [|done]. rewrite H1 in H. by destruct H.
  - destruct H as (g1 & H1 & _). eapply IH1; [done|]. intros g''. apply Hk.
Qed.

End ReFacts.

Import ReFacts.

(** ** The album URL pattern *)

Module UrlFacts.

(** The declarative matches of the pattern are the texts of the album
    URL shape; group 1 holds the protocol and group 3 the key. *)
Lemma album_url_matches_shape (w : string) (g0 g : gmap nat string) :
  matches album_url_re w g0 g →
  ∃ protocol key, album_url_shape protocol key w ∧
                  g !! 1 = Some protocol ∧ g !! 3 = Some key.
Proof.
  unfold album_url_re. cbn [matches].
  intros (p & ? & g1 & -> & (g1' & (a & b & ? & -> & [-> ->] & Hs) & ->) &
          ? & ? & ? & -> & [-> ->] &
          www & ? & g2 & -> & Hwww &
          m & ? & g3 & -> & Hm &
          ? & ? & ? & -> & [-> ->] &
          seg & ? & g4 & -> & Hseg &
          key & frag & g5 & -> & (? & (Hne & Hkey & ->) & ->) & Hfrag).
  exists ("http" ++ b), key. split.
  - exists www, m, seg, frag. split; [done|].
    split; [destruct Hs as [[-> _]|[-> _]]; auto|].
    split; [destruct Hwww as [[-> _]|(? & [-> _] & _)]; auto|].
    split; [destruct Hm as [[-> _]|[-> _]]; auto|].
    split.
    { destruct Hseg
        as [[-> _]|(? & ? & ? & -> & [[-> _]|[-> _]] & [-> _])]; auto. }
    split; [done|]. split; [done|]. unfold url_fragment.
    destruct Hfrag
      as [[-> _]|(? & (? & d & ? & -> & [-> _] & (? & ? & _)) & _)]; eauto.
  - assert (g4 !! 1 = Some ("http" ++ b) ∧ g4 !! 3 = g0 !! 3) as [H1 H3].
    { destruct Hs as [[-> ->]|[-> ->]];
      destruct Hwww as [[-> ->]|(? & [-> ->] & ->)];
      destruct Hm as [[-> ->]|[-> ->]];
      destruct Hseg
        as [[-> ->]|(? & ? & ? & -> & [[-> ->]|[-> ->]] & [-> ->])];
      by simplify_map_eq. }
    destruct Hfrag
      as [[-> ->]|(? & (? & d & ? & -> & [-> ->] & (? & ? & ->)) & ->)];
      by simplify_map_eq.
Qed.

Lemma album_url_shape_matches (protocol key w : string)
    (g0 : gmap nat string) :
  album_url_shape protocol key w → ∃ g, matches album_url_re w g0 g.
Proof.
  intros (www & m & seg & frag & -> & Hp & Hwww & Hm & Hseg & Hne & Hkey
          & Hfrag).
  unfold album_url_re. cbn [matches].
  destruct Hp as [-> | ->], Hwww as [-> | ->], Hm as [-> | ->],
    Hseg as [-> | [-> | ->]], Hfrag as [-> | (d & -> & Hd & Hdig)].
  all: eexists; eexists; do 2 eexists; (split; [done|]); split;
    [eexists; (split; [|done]); exists "http";
     first [by exists "", g0; auto | by exists "s", g0; auto]|].
  all: exists "://"; do 2 eexists; (split; [done|]); (split; [done|]).
  all: eexists; do 2 eexists; (split; [done|]); split;
    [first [by left | right; eexists; by split]|].
  all: eexists; do 2 eexists; (split; [done|]); split;
    [first [by left | by right]|].
  all: exists "imgur.com/"; do 2 eexists; (split; [done|]);
    (split; [done|]).
  all: eexists; do 2 eexists; (split; [done|]); split;
    [first [by left
           | right; exists "a", "/"; eexists; (split; [done|]);
             split; [by left|done]
           | right; exists "gallery", "/"; eexists; (split; [done|]);
             split; [by right|done]]|].
  all: exists key; do 2 eexists; (split; [done|]); split;
    [eexists; by split|].
  all: first [by left
             | right; eexists; (split; [|done]); exists "#", d; eexists;
               (split; [done|]); by split].
Qed.

(** *** How the matcher runs on a URL of the shape *)

Lemma key_chars (key frag : string) :
  all (in_class Alnum) key = true → url_fragment frag →
  all key_char (key ++ frag) = true.
Proof.
  intros Hkey Hfrag. rewrite all_app. apply andb_true_iff. split.
  - eapply all_impl; [|done]. intros a Ha. unfold key_char. by rewrite Ha.
  - destruct Hfrag as [->|(d & -> & _ & Hd)]; [done|]. simpl.
    eapply all_impl; [|done]. intros a Ha. unfold key_char. simpl in *.
    by rewrite Ha, !orb_true_r.
Qed.

(** Scheme and host: with the rest of the pattern bound to succeed on
    [rest], each optional part is taken exactly when it is there. *)
Lemma url_head {A} (r : regex) (rest : string)
    (k : string → gmap nat string → option A) (p www m : string) :
  (p = "http" ∨ p = "https") → (www = "" ∨ www = "www.") →
  (m = "" ∨ m = "m.") →
  (∀ g, is_Some (rmatch r rest g k)) →
  ∃ g1, g1 !! 1 = Some p ∧
    rmatch (Group 1 (Lit "http" ⋅ Opt (Lit "s")) ⋅ Lit "://" ⋅
            Opt (Group 2 (Lit "www.")) ⋅ Opt (Lit "m.") ⋅
            Lit "imgur.com/" ⋅ r)%re
      (p ++ "://" ++ www ++ m ++ "imgur.com/" ++ rest) ∅ k
    = rmatch r rest g1 k.
Proof.
  intros [-> | ->] [-> | ->] [-> | ->] Hr; simpl; rewrite ?str_app_nil_l;
    match goal with
    | |- context [rmatch r rest ?g k] =>
        exists g; destruct (Hr g) as [? H]; rewrite !H; clear H
    end; (split; [|reflexivity]).
  all: rewrite ?lookup_insert_ne by done; rewrite lookup_insert_eq.
  all: f_equal;
    first [apply (consumed_app "http") | apply (consumed_app "https")].
Qed.

(** The optional a/ or gallery/ segment: taken when it is there; when
    it is not, the attempt fails for want of a slash. *)
Lemma url_seg {A} (r2 : regex) (seg rest : string) (g : gmap nat string)
    (k : string → gmap nat string → option A) :
  (seg = "" ∧ all key_char rest = true ∨ seg = "a/" ∨ seg = "gallery/") →
  is_Some (rmatch r2 rest g k) →
  rmatch (Opt ((Lit "a" ∣ Lit "gallery") ⋅ Lit "/") ⋅ r2)%re
    (seg ++ rest) g k
  = rmatch r2 rest g k.
Proof.
  intros Hseg Hr2. destruct Hseg as [[-> Hrest]| [-> | ->]].
  - rewrite str_app_nil_l.
    change (match rmatch ((Lit "a" ∣ Lit "gallery") ⋅ Lit "/")%re rest g
                    (λ s' g', rmatch r2 s' g' k) with
            | Some x => Some x
            | None => rmatch r2 rest g k
            end = rmatch r2 rest g k).
    destruct (rmatch ((Lit "a" ∣ Lit "gallery") ⋅ Lit "/")%re rest g _)
      as [x|] eqn:Hx; [|done].
    apply rmatch_sound in Hx as (w & s' & g' & -> & Hw & _). exfalso.
    simpl in Hw.
    destruct Hw as (w1 & w2 & g1 & -> & [[-> _]|[-> _]] & [-> _]);
      simpl in Hrest; discriminate.
  - destruct Hr2 as [x Hx]. simpl. by rewrite str_app_nil_l, !Hx.
  - destruct Hr2 as [x Hx]. simpl. by rewrite str_app_nil_l, !Hx.
Qed.

(** Key and fragment: the greedy [+] takes the whole key, group 3. *)
Lemma url_key (key frag : string) (g : gmap nat string) :
  key ≠ "" → all (in_class Alnum) key = true → url_fragment frag →
  ∃ g', rmatch (Group 3 (Plus Alnum) ⋅
                Opt (Group 4 (Lit "#" ⋅ Plus Digit)))%re
          (key ++ frag) g (λ _ g, Some g) = Some g' ∧
        g' !! 3 = Some key ∧ g' !! 1 = g !! 1.
Proof.
  intros Hne Hkey Hfrag. cbn [rmatch].
  rewrite plus_greedy_all; [|done|done|..].
  - rewrite consumed_app. destruct Hfrag as [->|(d & -> & Hd & Hdig)].
    + simpl. eexists; split; [done|]. by simplify_map_eq.
    + simpl. replace ("" ++ d) with (d ++ "") by (by rewrite str_app_nil_r).
      rewrite plus_greedy_all; [|done|done|done|done].
      eexists; split; [done|]. by simplify_map_eq.
  - intros a t ->. destruct Hfrag as [|(d & Hd & _)]; [done|].
    by injection Hd as -> _.
  - destruct Hfrag as [->|(d & -> & Hd & Hdig)]; simpl; [done|].
    replace ("" ++ d) with (d ++ "") by (by rewrite str_app_nil_r).
    by rewrite plus_greedy_all.
Qed.

(** On a text of the album URL shape, [re.match] returns the protocol
    and the key of that text. *)
Lemma album_url_exact (protocol key url : string) :
  album_url_shape protocol key url →
  ∃ g, re_match album_url_re url = Some g ∧
       g !! 1 = Some protocol ∧ g !! 3 = Some key.
Proof.
  intros (www & m & seg & frag & -> & Hp & Hwww & Hm & Hseg & Hne & Hkey
          & Hfrag).
  assert (Htail : ∀ g, ∃ g',
    rmatch (Opt ((Lit "a" ∣ Lit "gallery") ⋅ Lit "/") ⋅
            Group 3 (Plus Alnum) ⋅
            Opt (Group 4 (Lit "#" ⋅ Plus Digit)))%re
      (seg ++ key ++ frag) g (λ _ g, Some g) = Some g' ∧
    g' !! 3 = Some key ∧ g' !! 1 = g !! 1).
  { intros g. destruct (url_key key frag g) as (g' & Hg' & ? & ?); [done..|].
    exists g'. split; [|done]. rewrite url_seg; [done| |by rewrite Hg'].
    destruct Hseg as [->|?]; [left|by right]. split; [done|].
    by apply key_chars. }
  unfold re_match, album_url_re.
  destruct (url_head
              (Opt ((Lit "a" ∣ Lit "gallery") ⋅ Lit "/") ⋅
               Group 3 (Plus Alnum) ⋅
               Opt (Group 4 (Lit "#" ⋅ Plus Digit)))%re
              (seg ++ key ++ frag) (λ _ g, Some g) protocol www m)
    as (g1 & Hg1 & ->); [done..| |].
  { intros g. destruct (Htail g) as (g' & -> & _). by eexists. }
  destruct (Htail g1) as (g' & -> & ? & ?). exists g'. split; [done|].
  split; [congruence|done].
Qed.

(** [re.match] succeeds exactly on the inputs that start with a text of
    the shape, and then returns the protocol and key of such a text. *)
Lemma re_match_album_url_Some (url : string) (g : gmap nat string) :
  re_match album_url_re url = Some g →
  ∃ protocol key, album_url_prefix protocol key url ∧
                  g !! 1 = Some protocol ∧ g !! 3 = Some key.
Proof.
  intros H. apply rmatch_sound in H as (w & s' & g' & -> & Hw & Hg).
  injection Hg as ->.
  apply album_url_matches_shape in Hw as (p & k & ? & ? & ?).
  exists p, k. split; [|done]. by exists w, s'.
Qed.

Lemma re_match_album_url_prefix (protocol key url : string) :
  album_url_prefix protocol key url →
  is_Some (re_match album_url_re url).
Proof.
  intros (pre & post & -> & Hpre).
  apply (album_url_shape_matches _ _ _ ∅) in Hpre as [g Hg].
  by eapply rmatch_complete.
Qed.

End UrlFacts.

Import UrlFacts.

(** ** The scan of a page *)

Module ScanFacts.
Import ImgurAlbumDownloader.

Section lazy.
Context {A : Type}.
Implicit Types (k : string → option A) (c : cclass).

(** A lazy repetition whose continuation fails on every text that starts
    with a character of [p] walks over a run of such characters. *)
Lemma star_lazy_walk c (p : ascii → bool) w s' k :
  (∀ a t, p a = true → k (String a t) = None) →
  all p w = true →
  star_lazy c (w ++ s') k
  = if all (in_class c) w then star_lazy c s' k else None.
Proof.
  intros Hk. induction w as [|a w IH]; intros Hw; [done|].
  simpl in Hw. apply andb_true_iff in Hw as [Ha Hw].
  rewrite str_app_cons. simpl. rewrite (Hk a) by done.
  destruct (in_class c a); [by apply IH|done].
Qed.

Lemma star_lazy_now c s k x : k s = Some x → star_lazy c s k = Some x.
Proof. intros H. destruct s; simpl; by rewrite H. Qed.
End lazy.

Lemma fragment_core (id x : string) :
  fragment id ("." ++ x) = core id x ++ "}".
Proof.
  unfold fragment, core, hash_open, ext_open. by rewrite !str_app_assoc.
Qed.

(** The pattern after its leading [.*?], at the start of a fragment. *)
Lemma match_at_fragment (id x t : string) :
  id ≠ "" → all (in_class Alnum) id = true → all ext_char x = true →
  rmatch (Lit hash_open ⋅ Group 1 (Plus Alnum) ⋅ Lit dq ⋅ StarLazy Dot ⋅
          Lit ext_open ⋅ Group 2 (Lit "." ⋅ Group 3 (StarLazy Dot)) ⋅
          Lit dq ⋅ StarLazy Dot)%re
    (core id x ++ t) ∅ (λ rest g, Some (g, rest))
  = Some (found id x, t).
Proof.
  intros Hne Hid Hx. unfold core. rewrite !str_app_assoc.
  cbn [rmatch]. rewrite strip_app.
  assert (Htail : ∀ g : gmap nat string,
    match strip dq (dq ++ "," ++ ext_open ++ "." ++ x ++ dq ++ t) with
    | Some s' =>
        star_lazy Dot s' (λ s'0,
          match strip ext_open s'0 with
          | Some s'1 =>
              match strip "." s'1 with
              | Some s'2 =>
                  star_lazy Dot s'2 (λ s'3,
                    match strip dq s'3 with
                    | Some s'4 =>
                        star_lazy Dot s'4 (λ s'5,
                          Some (<[2:=consumed s'1 s'3]>
                                  (<[3:=consumed s'2 s'3]> g), s'5))
                    | None => None
                    end)
              | None => None
              end
          | None => None
          end)
    | None => None
    end = Some (<[2 := "." ++ x]> (<[3 := x]> g), t)).
  { intros g. simpl. rewrite !str_app_nil_l.
    rewrite (star_lazy_walk Dot (λ a, negb (bool_decide (a = "034"%char)))).
    - replace (all (in_class Dot) x) with true.
      2:{ symmetry. eapply all_impl; [|exact Hx]. unfold ext_char.
          by intros a [? _]%andb_true_iff. }
      erewrite star_lazy_now; [done|]. simpl. rewrite !str_app_nil_l.
      erewrite star_lazy_now; [|done].
      rewrite consumed_app.
      change (String "." (x ++ dq ++ t)) with ("." ++ x ++ dq ++ t).
      rewrite <-(str_app_assoc "." x), <-(str_app_assoc ("." ++ x)).
      rewrite (str_app_assoc ("." ++ x) dq t).
      by rewrite consumed_app.
    - intros a s Ha. simpl. destruct (decide ("034"%char = a)) as [<-|]; done.
    - eapply all_impl; [|exact Hx]. unfold ext_char.
      by intros a [_ ?]%andb_true_iff. }
  rewrite plus_greedy_all; [|done|done|..].
  - rewrite consumed_app. apply Htail.
  - intros a s'. unfold dq. rewrite str_app_cons. by intros [= <- _].
  - rewrite Htail. by eexists.
Qed.

Lemma hash_open_needs_brace {A} (r : regex) (a : ascii) (t : string)
    (g : gmap nat string) (k : string → gmap nat string → option A) :
  not_brace a = true → rmatch (Lit hash_open ⋅ r)%re (String a t) g k = None.
Proof.
  unfold not_brace. intros Ha. simpl.
  destruct (decide ("{"%char = a)) as [<-|]; done.
Qed.

Lemma scan_skip (r : regex) (w s : string) :
  scan r (String.length w) (w ++ s) = scan r 0 s.
Proof. induction w as [|a w IH]; [by destruct s|]. by rewrite str_app_cons. Qed.

Section scanning.
Context (id x t : string).
Context (Hne : id ≠ "") (Hid : all (in_class Alnum) id = true)
        (Hx : all ext_char x = true).

(** One attempt of the scan in the text before a fragment: it reaches
    the fragment when no newline is in the way. *)
Lemma match_here_before_fragment (f : string) :
  all not_brace f = true →
  match_here (image_re None) (f ++ core id x ++ t)
  = if all (in_class Dot) f then Some (found id x, t) else None.
Proof.
  intros Hf. unfold match_here, image_re, ext_regex. cbn [truthy].
  change (rmatch (StarLazy Dot ⋅ ?r)%re ?s ?g ?k)
    with (star_lazy Dot s (λ s', rmatch r s' g k)).
  rewrite (star_lazy_walk Dot not_brace);
    [|by intros; apply hash_open_needs_brace|done].
  destruct (all (in_class Dot) f); [|done].
  apply star_lazy_now. by apply match_at_fragment.
Qed.

Lemma core_cons : ∃ a c', core id x = String a c'.
Proof. unfold core, hash_open. by eexists _, _. Qed.

(** The scan of a text that starts with brace-free text and a fragment:
    the groups of the fragment, then the scan of what follows the
    fragment's closing quote. *)
Lemma scan_fragment (f : string) :
  all not_brace f = true →
  scan (image_re None) 0 (f ++ core id x ++ t)
  = found id x :: scan (image_re None) 0 t.
Proof.
  intros Hf. induction f as [|a f IH].
  - rewrite str_app_nil_l. destruct core_cons as (a & c' & Hc).
    pose proof (match_here_before_fragment "" eq_refl) as Hm.
    rewrite str_app_nil_l in Hm. revert Hm. rewrite Hc, str_app_cons.
    intros Hm. cbn [scan]. rewrite Hm. f_equal.
    replace (String.length (String a (c' ++ t)) - String.length t - 1)
      with (String.length c').
    { apply scan_skip. }
    simpl. rewrite str_length_app. lia.
  - simpl in Hf. apply andb_true_iff in Hf as [Ha Hf].
    pose proof (match_here_before_fragment (String a f)) as Hm.
    rewrite str_app_cons in Hm |- *. cbn [scan]. rewrite Hm.
    2:{ simpl. by rewrite Ha, Hf. }
    destruct (all (in_class Dot) (String a f)); [|by apply IH].
    f_equal.
    replace (String.length (String a (f ++ core id x ++ t))
             - String.length t - 1)
      with (String.length (f ++ core id x)).
    { rewrite <-str_app_assoc. apply scan_skip. }
    simpl. rewrite !str_length_app. lia.
Qed.
End scanning.

(** Brace-free text holds no fragment. *)
Lemma scan_plain (f : string) :
  all not_brace f = true → scan (image_re None) 0 f = [].
Proof.
  intros Hf.
  assert (Hm : ∀ f, all not_brace f = true →
                    match_here (image_re None) f = None).
  { clear. intros f Hf. unfold match_here, image_re, ext_regex. cbn [truthy].
    change (rmatch (StarLazy Dot ⋅ ?r)%re ?s ?g ?k)
      with (star_lazy Dot s (λ s', rmatch r s' g k)).
    rewrite <-(str_app_nil_r f).
    rewrite (star_lazy_walk Dot not_brace);
      [|by intros; apply hash_open_needs_brace|done].
    by destruct (all (in_class Dot) f). }
  induction f as [|a f IH]; cbn [scan]; rewrite Hm by done; [done|].
  simpl in Hf. apply andb_true_iff in Hf as [_ Hf]. by apply IH.
Qed.

(** On a page of well-formed fragments, with no allow-list, the scan
    finds the pairs of the fragments, in page order, each as many times
    as it is written. *)
Lemma found_pairs_page (items : list (string * (string * string)))
    (tail : string) :
  Forall well_formed items → all not_brace tail = true →
  found_pairs None (page items tail) = items.*2.
Proof.
  intros Hitems Htail. unfold found_pairs, findall.
  cut (∀ pre, all not_brace pre = true →
         (λ g, (group g 1, group g 2))
           <$> scan (image_re None) 0 (pre ++ page items tail)
         = items.*2).
  { intros Hcut. specialize (Hcut "" eq_refl).
    by rewrite str_app_nil_l in Hcut. }
  induction Hitems as [|[f [id ext]] items (Hf & Hne & Hid & x & Hext & Hx)
                         _ IH]; intros pre Hpre.
  { simpl. rewrite scan_plain; [done|]. by rewrite all_app, Hpre, Htail. }
  simpl in *. subst ext. rewrite fragment_core.
  rewrite !str_app_assoc, <-(str_app_assoc pre f).
  rewrite scan_fragment by (done || by rewrite all_app, Hpre, Hf).
  rewrite fmap_cons, (IH "}") by done. done.
Qed.

(** The scan soundly reports matches: every group assignment in its
    result is the first match of the pattern at some position. *)
Lemma scan_sound (r : regex) (s : string) :
  ∀ (skip : nat) (g : gmap nat string),
    g ∈ scan r skip s → ∃ t rest, match_here r t = Some (g, rest).
Proof.
  induction s as [|a s IH]; intros skip g; destruct skip as [|n]; cbn [scan].
  - destruct (match_here r "") as [[g' rest]|] eqn:Hm.
    + intros ->%list_elem_of_singleton. eauto.
    + by intros ?%elem_of_nil.
  - by intros ?%elem_of_nil.
  - destruct (match_here r (String a s)) as [[g' rest]|] eqn:Hm.
    + intros [->|?]%elem_of_cons; eauto.
    + eauto.
  - eauto.
Qed.

Lemma matches_alternatives (l : list string) (e : string)
    (g g' : gmap nat string) :
  l ≠ [] → matches (alternatives l) e g g' → e ∈ l ∧ g' = g.
Proof.
  induction l as [|x l IH]; [done|]. intros _ H.
  destruct l as [|y l].
  - destruct H as [-> ->]. split; [by left|done].
  - destruct H as [[-> ->]|H]; [split; [by left|done]|].
    apply IH in H as [? ?]; [|done]. split; [by right|done].
Qed.

(** With an allow-list, the extension of every pair the scan finds is
    two dots followed by an entry of the list. *)
Lemma found_pairs_allow_list (l : list string) (html : string)
    (pair : string * string) :
  l ≠ [] → pair ∈ found_pairs (Some l) html →
  ∃ e, e ∈ l ∧ pair.2 = ".." ++ e.
Proof.
  intros Hl. unfold found_pairs, findall.
  intros (g & -> & Hg)%list_elem_of_fmap.
  apply scan_sound in Hg as (t & rest & Hm).
  apply rmatch_sound in Hm as (w & s' & g' & _ & Hw & [= -> _]).
  unfold image_re, ext_regex in Hw.
  assert (truthy (Some l) = true) as Ht by (by destruct l).
  rewrite Ht in Hw. cbn [matches default] in Hw.
  destruct Hw as
    (w1 & w2 & g1 & _ & _ & w3 & w4 & g2 & _ & _ & w5 & w6 & g3 & _ & _ &
     w7 & w8 & g4 & _ & _ & w9 & w10 & g5 & _ & _ & w11 & w12 & g6 & _ & _ &
     w13 & w14 & g7 & _ &
     (g8 & (w15 & w16 & g9 & -> & [-> _] & g10 &
            (g11 & (w17 & w18 & g12 & -> & [-> _] & g13 & He & _) & _) & _)
      & ->) &
     w19 & w20 & g14 & _ & [_ ->] & _ & ->).
  apply matches_alternatives in He as [He _]; [|done].
  exists w18. split; [done|]. cbn [snd]. unfold group.
  by rewrite lookup_insert_eq.
Qed.

End ScanFacts.

Import ScanFacts.

(** ** The constructor *)

Module InitFacts.
Import ImgurAlbumDownloader.

Lemma check_url_Some (url : string) (g : gmap nat string) (w : world) :
  re_match album_url_re url = Some g →
  check_url url w = (Ret (group g 1, group g 3), w).
Proof. unfold check_url. by intros ->. Qed.

Lemma check_url_None (url : string) (w : world) :
  re_match album_url_re url = None →
  check_url url w
  = (Raise (Exc ImgurAlbumException
              ("URL must be a valid Imgur Album " ++ url)), w).
Proof. unfold check_url. by intros ->. Qed.

Lemma check_url_shape (protocol key url : string) (w : world) :
  album_url_shape protocol key url →
  check_url url w = (Ret (protocol, key), w).
Proof.
  intros H. apply album_url_exact in H as (g & Hg & H1 & H3).
  rewrite (check_url_Some _ g) by done. unfold group. by rewrite H1, H3.
Qed.

Lemma check_url_Ret (url protocol key : string) (w w' : world) :
  check_url url w = (Ret (protocol, key), w') →
  w' = w ∧ album_url_prefix protocol key url.
Proof.
  unfold check_url. destruct (re_match album_url_re url) as [g|] eqn:Hg;
    [|done].
  intros [= <- <- <-]. split; [done|].
  apply re_match_album_url_Some in Hg as (p & k & ? & H1 & H3).
  unfold group. by rewrite H1, H3.
Qed.

Lemma check_url_prefix (url : string) (w : world) :
  (∃ protocol key, album_url_prefix protocol key url) →
  ∃ protocol key, check_url url w = (Ret (protocol, key), w).
Proof.
  intros (p & k & H). apply re_match_album_url_prefix in H as [g Hg].
  eexists _, _. by apply check_url_Some.
Qed.

Lemma check_url_no_prefix (url : string) (w : world) :
  (¬ ∃ protocol key, album_url_prefix protocol key url) →
  check_url url w
  = (Raise (Exc ImgurAlbumException
              ("URL must be a valid Imgur Album " ++ url)), w).
Proof.
  intros Hno. apply check_url_None.
  destruct (re_match album_url_re url) as [g|] eqn:Hg; [|done].
  apply re_match_album_url_Some in Hg as (p & k & ? & _). destruct Hno.
  eauto.
Qed.

(** The constructor stops at the URL check when the check raises. *)
Lemma init_check_raises (e : env) (p : process) (url : string)
    (extn : option (list string)) (retry : option Retry) (verbose : bool)
    (ex : exc) (w w' : world) :
  check_url url w = (Raise ex, w') →
  __init__ e p url extn retry verbose w = (Raise ex, w').
Proof.
  intros H. unfold __init__, mbind, M_bind, bind. by rewrite H.
Qed.

(** No exception class carries a [code] attribute. *)
Lemma no_code_attribute (c : exc_class) :
  bool_decide ("code" ∈ exc_attributes c) = false.
Proof. by destruct c; vm_compute. Qed.

(** The listing request when the session hands back a response: only
    status 200 passes; any other status raises the exception that
    carries it. *)
Lemma read_listing_response (e : env) (url : string) (r : http_response)
    (w : world) :
  http_get e url = inr r →
  read_listing e url w
  = (if (status_code r =? 200)%Z then Ret r
     else Raise (Exc ImgurAlbumException
                   ("Error reading Imgur: Error Code "
                    ++ pretty (status_code r))),
     World (files w) (trace w ++ [EvGet url])).
Proof.
  intros H. unfold read_listing, session_get, try_except, emit, mbind,
    M_bind, bind, mret, M_ret, ret, raise, format_d, response_bool,
    codes_ok. simpl. rewrite H. simpl.
  destruct (status_code r =? 200)%Z eqn:Hs; simpl.
  - apply Z.eqb_eq in Hs. rewrite Hs. done.
  - by rewrite orb_true_r.
Qed.

(** The listing request when the session raises: the [except Exception]
    branch reads [e.code], which no exception of the model has. *)
Lemma read_listing_raises (e : env) (url : string) (ex : exc) (w : world) :
  http_get e url = inl ex →
  read_listing e url w
  = (Raise (if isinstance ex Exception
            then Exc AttributeError
                   ("'" ++ class_name (exc_cls ex)
                    ++ "' object has no attribute 'code'")
            else ex),
     World (files w) (trace w ++ [EvGet url])).
Proof.
  intros H. unfold read_listing, session_get, try_except, emit, mbind,
    M_bind, bind, mret, M_ret, ret, raise, exc_getattr, caught_by.
  simpl. rewrite H. simpl. rewrite orb_false_r.
  destruct (isinstance ex Exception); [|done].
  by rewrite no_code_attribute.
Qed.

(** What a constructor that returns has done. *)
Lemma init_Ret (e : env) (p : process) (url : string)
    (extn : option (list string)) (retry : option Retry) (verbose : bool)
    (d : t) (w w' : world) :
  __init__ e p url extn retry verbose w = (Ret d, w') →
  ∃ protocol key r,
    check_url url w = (Ret (protocol, key), w) ∧
    http_get e ("http://imgur.com/a/" ++ key ++ "/layout/blog") = inr r ∧
    status_code r = 200%Z ∧
    w' = World (files w)
           (trace w
            ++ [EvGet ("http://imgur.com/a/" ++ key ++ "/layout/blog")]) ∧
    d = Make url verbose [] [] [] protocol key
          (default default_retry_strategy retry) request_headers r
          (extract p extn (text r))
          ((λ i, "https://i.imgur.com/" ++ i.1 ++ i.2)
             <$> extract p extn (text r))
          (count_extensions (extract p extn (text r))).
Proof.
  unfold __init__, mbind, M_bind, bind.
  destruct (check_url url w) as [[[protocol key]|ex] w1] eqn:Hc; [|done].
  apply check_url_Ret in Hc as Hw1. destruct Hw1 as [-> _].
  destruct (http_get e ("http://imgur.com/a/" ++ key ++ "/layout/blog"))
    as [ex|r] eqn:Hget.
  - by rewrite (read_listing_raises _ _ ex).
  - rewrite (read_listing_response _ _ r) by done.
    destruct (status_code r =? 200)%Z eqn:Hs; [|done].
    apply Z.eqb_eq in Hs. intros [= <- <-]. by exists protocol, key, r.
Qed.

End InitFacts.

Import InitFacts.

(** ** The download loop *)

Module LoopFacts.
Import ImgurAlbumDownloader.

(** The classes of the file system errors are not among those the
    [except] clause lists. *)
Lemma is_a_directory_uncaught (msg : string) :
  caught_by download_errors (Exc IsADirectoryError msg) = false.
Proof. reflexivity. Qed.

Lemma attempt_not_existing (e : env) (url path : string) :
  attempt e url path ≠ SkippedExisting.
Proof. unfold attempt, failure. by repeat case_match. Qed.

(** Reading the events of the callbacks. *)
Lemma before_calls (counter : nat) (url path : string) (fns : list string) :
  let before := (λ fn, EvImage fn counter url path) <$> fns in
  image_calls before = (λ fn, (fn, counter, url, path)) <$> fns
  ∧ gets before = [] ∧ success_calls before = []
  ∧ complete_calls before = [] ∧ prints before = [].
Proof.
  unfold image_calls, gets, success_calls, complete_calls, prints.
  repeat split; induction fns as [|f l IH]; csimpl; by rewrite ?IH.
Qed.

Lemma after_calls (counter : nat) (url path : string) (fns : list string) :
  let after := (λ fn, EvSuccess fn counter url path) <$> fns in
  success_calls after = (λ fn, (fn, counter, url, path)) <$> fns
  ∧ gets after = [] ∧ image_calls after = []
  ∧ complete_calls after = [] ∧ prints after = [].
Proof.
  unfold image_calls, gets, success_calls, complete_calls, prints.
  repeat split; induction fns as [|f l IH]; csimpl; by rewrite ?IH.
Qed.

Local Ltac step_done Hp :=
  cbn [files trace turn_raises orb]; rewrite ?Hp;
  rewrite ?bool_decide_false by (by intros [??]);
  cbn [files trace turn_raises orb];
  by rewrite <-?(assoc_L (++)), ?(right_id_L [] (++)).

Section item.
Context (e : env) (self : t) (albumFolder : string) (useKey : bool).
Context (it : nat * (string * string)).

Let url := item_url it.
Let path := item_path self albumFolder useKey it.

(** The body of the loop does to the world what the outcome of the
    item says, and ends as it says. *)
Lemma save_image_turn (w : world) :
  save_image e self albumFolder useKey it w
  = (match turn_raises (classify e (files w) url path) with
     | Some ex => Raise ex
     | None => Ret tt
     end,
     turn e self albumFolder useKey w it).
Proof.
  subst url path. destruct it as [counter image].
  unfold turn, item_events, item_files, classify, attempt, failure,
    write_error, save_image, session_get, image_open_size, os_path_isfile,
    os_path_exists, os_remove, write_file, write_error, try_except, when,
    emit, get_world, set_files, item_url, item_path.
  unfold mbind, M_bind, bind, mret, M_ret, ret, raise.
  cbn [files trace fst snd].
  destruct (files w !! path_of self albumFolder useKey counter image)
    as [b|] eqn:Hp.
  { rewrite bool_decide_true by eauto.
    destruct (verbose self); cbn [files trace turn_raises];
      by rewrite <-?(assoc_L (++)), ?(right_id_L [] (++)). }
  rewrite bool_decide_false by (by intros [??]).
  set (p := path_of self albumFolder useKey counter image) in *.
  destruct (http_get e (image_url_of image)) as [ex|r]; cbn [files trace].
  { destruct (caught_by download_errors ex) eqn:Hc; [|step_done Hp].
    destruct (is_dir e p) eqn:Hd; destruct (verbose self); step_done Hp. }
  destruct (image_size e (content r)) as [ex|[iw ih]]; cbn [files trace].
  { destruct (caught_by download_errors ex) eqn:Hc; [|step_done Hp].
    destruct (is_dir e p) eqn:Hd; destruct (verbose self); step_done Hp. }
  destruct ((iw =? 161) && (ih =? 81))%Z; [step_done Hp|].
  destruct (is_dir e p) eqn:Hd.
  { rewrite is_a_directory_uncaught. step_done Hp. }
  destruct (open_error e p) as [ex|]; [|step_done Hp].
  destruct (caught_by download_errors ex) eqn:Hc; [|step_done Hp].
  destruct (verbose self); step_done Hp.
Qed.


(** Reading the events of a turn. *)
Lemma item_events_calls (fs : gmap string (list byte)) :
  let new := item_events e self albumFolder useKey fs it in
  image_calls new = (λ fn, (fn, it.1, url, path)) <$> image_callbacks self ∧
  complete_calls new = [] ∧
  gets new = match fs !! path with Some _ => [] | None => [url] end ∧
  success_calls new
  = match classify e fs url path with
    | Saved _ => (λ fn, (fn, it.1, url, path)) <$> success_callbacks self
    | _ => []
    end ∧
  prints new
  = if verbose self then
      match classify e fs url path with
      | SkippedExisting => ["Skipping, " ++ path ++ " alreadyexists."]
      | Failed ex | CleanupFailed ex _ =>
          ["Download failed: " ++ class_name (exc_cls ex) ++ " "
           ++ exc_msg ex]
      | _ => []
      end
    else [].
Proof.
  cbv zeta. unfold item_events. fold url. fold path.
  destruct (before_calls it.1 url path (image_callbacks self))
    as (Hb1 & Hb2 & Hb3 & Hb4 & Hb5).
  destruct (after_calls it.1 url path (success_callbacks self))
    as (Ha1 & Ha2 & Ha3 & Ha4 & Ha5).
  assert (Hne : fs !! path = None →
                classify e fs url path ≠ SkippedExisting →
                match fs !! path with Some _ => [] | None => [url] end
                = [url]) by (by intros ->).
  unfold classify. destruct (fs !! path) as [b|] eqn:Hp.
  { unfold image_calls, complete_calls, gets, success_calls, prints in *.
    rewrite !omap_app, Hb1, Hb2, Hb3, Hb4, Hb5.
    destruct (verbose self); csimpl; by rewrite ?(right_id_L [] (++)). }
  pose proof (attempt_not_existing e url path).
  destruct (attempt e url path); [|done|..];
    unfold image_calls, complete_calls, gets, success_calls, prints in *;
    rewrite !omap_app, ?Hb1, ?Hb2, ?Hb3, ?Hb4, ?Hb5; csimpl;
    rewrite ?Ha1, ?Ha2, ?Ha3, ?Ha4, ?Ha5;
    destruct (verbose self); csimpl; by rewrite ?(right_id_L [] (++)).
Qed.

End item.

Section step.
Context (e : env) (self : t) (albumFolder : string) (useKey : bool).

Lemma classify_not_existing (fs : gmap string (list byte))
    (url path : string) :
  classify e fs url path ≠ SkippedExisting →
  fs !! path = None ∧ classify e fs url path = attempt e url path.
Proof. unfold classify. by destruct (fs !! path). Qed.

(** What one turn of the loop adds to the world, by outcome. *)
Lemma save_image_step (it : nat * (string * string)) (w : world) :
  let url := item_url it in
  let path := item_path self albumFolder useKey it in
  ∃ (o : outcome unit) (new : list event) (fs' : gmap string (list byte)),
    save_image e self albumFolder useKey it w
    = (o, World fs' (trace w ++ new)) ∧
    image_calls new
    = (λ fn, (fn, it.1, url, path)) <$> image_callbacks self ∧
    complete_calls new = [] ∧
    match classify e (files w) url path with
    | Saved data =>
        o = Ret tt ∧ fs' = <[path := data]> (files w) ∧
        gets new = [url] ∧
        success_calls new
        = (λ fn, (fn, it.1, url, path)) <$> success_callbacks self
    | SkippedExisting =>
        o = Ret tt ∧ fs' = files w ∧ gets new = [] ∧
        success_calls new = []
    | SkippedPlaceholder | Failed _ =>
        o = Ret tt ∧ fs' = files w ∧ gets new = [url] ∧
        success_calls new = []
    | Uncaught ex | CleanupFailed _ ex =>
        o = Raise ex ∧ fs' = files w ∧ gets new = [url] ∧
        success_calls new = []
    end.
Proof.
  intros url path. subst url path. rewrite save_image_turn. unfold turn.
  destruct (item_events_calls e self albumFolder useKey it (files w))
    as (Himg & Hcomp & Hgets & Hsucc & _).
  eexists _, _, _. split; [reflexivity|]. split; [done|]. split; [done|].
  unfold item_files. rewrite Hsucc, Hgets.
  destruct (classify e (files w) _ _) eqn:Hc;
    try (destruct (classify_not_existing (files w) (item_url it)
                     (item_path self albumFolder useKey it)) as [-> _];
         [by rewrite Hc|]); try done.
  unfold classify in Hc. destruct (files w !! _); [done|].
  by apply attempt_not_existing in Hc.
Qed.

End step.

Section loop.
Context (e : env) (self : t) (albumFolder : string) (useKey : bool).

Let body := save_image e self albumFolder useKey.
Let dest := item_path self albumFolder useKey.
Let before_of (it : nat * (string * string)) :=
  (λ fn, (fn, it.1, item_url it, dest it)) <$> image_callbacks self.
Let after_of (it : nat * (string * string)) :=
  (λ fn, (fn, it.1, item_url it, dest it)) <$> success_callbacks self.

Lemma for_each_cons (it : nat * (string * string))
    (items : list (nat * (string * string))) (w : world) :
  for_each (it :: items) body w
  = match body it w with
    | (Ret _, w1) => for_each items body w1
    | (Raise ex, w1) => (Raise ex, w1)
    end.
Proof. reflexivity. Qed.

(** The whole loop, started on [w] in a run that began on [w0]:
    the files present at the start are left as they are; requests
    and success calls go, in order, to items whose file was
    missing at the start; every item has its before-download calls
    unless an uncaught exception ends the loop. *)
Lemma download_loop (items : list (nat * (string * string)))
    (w0 : world) :
  ∀ w : world,
    (∀ p b, files w0 !! p = Some b → files w !! p = Some b) →
    ∃ (o : outcome unit) (new : list event)
      (fs' : gmap string (list byte)),
      for_each items body w = (o, World fs' (trace w ++ new)) ∧
      (∀ p b, files w !! p = Some b → fs' !! p = Some b) ∧
      sublist (gets new)
        (item_url <$> filter (λ it, files w0 !! dest it = None) items) ∧
      sublist (success_calls new)
        (filter (λ it, files w0 !! dest it = None) items ≫= after_of) ∧
      complete_calls new = [] ∧
      (o = Ret tt → image_calls new = items ≫= before_of) ∧
      ((∀ it, it ∈ items →
          turn_raises (attempt e (item_url it) (dest it)) = None) →
       o = Ret tt) ∧
      ((∀ it, it ∈ items → is_Some (files w !! dest it)) →
       o = Ret tt ∧ fs' = files w ∧ gets new = [] ∧
       success_calls new = []).
Proof.
  induction items as [|it items IH]; intros w Hw0.
  { exists (Ret tt), [], (files w). destruct w as [fs tr].
    rewrite (right_id_L [] (++)). repeat split; done || constructor. }
  rewrite for_each_cons. subst body.
  destruct (save_image_step e self albumFolder useKey it w)
    as (o1 & new1 & fs1 & -> & Himg1 & Hcomp1 & Hcase).
  fold (dest it) in Hcase, Himg1.
  assert (Hstep : ∀ p b, files w !! p = Some b → fs1 !! p = Some b).
  { intros p b Hp.
    destruct (classify e (files w) (item_url it) (dest it)) eqn:Hc;
      destruct Hcase as (_ & -> & _); try done.
    destruct (classify_not_existing e (files w) (item_url it) (dest it))
      as [Hnone _]; [by rewrite Hc|].
    rewrite lookup_insert_ne; [done|]. congruence. }
  destruct (IH (World fs1 (trace w ++ new1))) as
    (o2 & new2 & fs2 & Heq & Hkeep & Hgets & Hsucc & Hcomp & Himg
     & Hret & Hall); [by intros p b ?%Hw0%Hstep|].
  cbn [files trace] in *.
  assert (Hmiss : classify e (files w) (item_url it) (dest it)
                  ≠ SkippedExisting → files w0 !! dest it = None).
  { intros [Hnone _]%classify_not_existing.
    destruct (files w0 !! dest it) as [b|] eqn:H0; [|done].
    apply Hw0 in H0. congruence. }
  destruct (classify e (files w) (item_url it) (dest it))
    as [data| | |ex|ex|ex0 ex] eqn:Hc;
    destruct Hcase as (-> & Hfs1 & Hg1 & Hs1).
  (* Saved, SkippedExisting, SkippedPlaceholder, Failed: the loop goes on *)
  1-4: exists o2, (new1 ++ new2)%list, fs2.
  1-4: rewrite Heq, (assoc_L (++)); split; [done|].
  1-4: split; [by intros p b ?%Hstep%Hkeep|].
  1-4: unfold gets, success_calls, complete_calls, image_calls in *;
    rewrite !omap_app, Hg1, Hs1, Hcomp1, Hcomp, Himg1.
  1-4: try (rewrite filter_cons_True by (by apply Hmiss)).
  (* Uncaught, CleanupFailed: the loop ends here *)
  5-6: exists (Raise ex), new1, fs1; (split; [done|]).
  5-6: split; [done|]; rewrite Hg1, Hs1.
  5-6: rewrite filter_cons_True by (by apply Hmiss); csimpl.
  5-6: split; [apply sublist_skip, sublist_nil_l|].
  5-6: split; [apply sublist_nil_l|]; split; [done|]; split; [done|].
  5-6: destruct (classify_not_existing e (files w) (item_url it) (dest it))
         as [Hnone Hatt]; [by rewrite Hc|]; rewrite Hc in Hatt.
  5-6: split;
    [intros Hno; specialize (Hno it (list_elem_of_here _ _));
     by rewrite <-Hatt in Hno
    |intros Hex; destruct (Hex it) as [b Hb]; [by left|congruence]].
  - (* Saved *)
    csimpl. split; [by apply sublist_skip|].
    split; [by apply sublist_app|]. split; [done|].
    split; [intros ?; by rewrite Himg|]. split.
    { intros Hno. apply Hret. intros ??. apply Hno. by right. }
    intros Hex. destruct (Hex it) as [b Hb]; [by left|].
    destruct (classify_not_existing e (files w) (item_url it) (dest it))
      as [Hnone _]; [by rewrite Hc|].
    congruence.
  - (* SkippedExisting *)
    csimpl. subst fs1.
    assert (∀ (l : list string), sublist (gets new2) l →
              sublist (gets new2) (item_url it :: l)) as Hcons
      by (intros; by apply sublist_cons).
    split.
    { unfold gets. destruct (decide (files w0 !! dest it = None)).
      - rewrite filter_cons_True by done. by apply sublist_cons.
      - by rewrite filter_cons_False by done. }
    split.
    { destruct (decide (files w0 !! dest it = None)).
      - rewrite filter_cons_True by done. csimpl.
        by apply sublist_inserts_l.
      - by rewrite filter_cons_False by done. }
    split; [done|]. split; [intros ?; by rewrite Himg|]. split.
    { intros Hno. apply Hret. intros ??. apply Hno. by right. }
    intros Hex. apply Hall. intros ??. apply Hex. by right.
  - (* SkippedPlaceholder *)
    csimpl. subst fs1. split; [by apply sublist_skip|].
    split; [by apply sublist_inserts_l|]. split; [done|].
    split; [intros ?; by rewrite Himg|]. split.
    { intros Hno. apply Hret. intros ??. apply Hno. by right. }
    intros Hex. destruct (Hex it) as [b Hb]; [by left|].
    destruct (classify_not_existing e (files w) (item_url it) (dest it))
      as [Hnone _]; [by rewrite Hc|].
    congruence.
  - (* Failed *)
    csimpl. subst fs1. split; [by apply sublist_skip|].
    split; [by apply sublist_inserts_l|]. split; [done|].
    split; [intros ?; by rewrite Himg|]. split.
    { intros Hno. apply Hret. intros ??. apply Hno. by right. }
    intros Hex. destruct (Hex it) as [b Hb]; [by left|].
    destruct (classify_not_existing e (files w) (item_url it) (dest it))
      as [Hnone _]; [by rewrite Hc|].
    congruence.
Qed.
End loop.

(** The first step of [save_images] leaves the world as it is; it
    raises only when nothing exists at the path of the folder and
    [os.makedirs] raises. *)
Lemma ensure_folder_run (e : env) (albumFolder : string) (w : world) :
  ensure_folder e albumFolder w
  = (if bool_decide (is_Some (files w !! albumFolder))
        || is_dir e albumFolder
     then Ret tt
     else if bool_decide (albumFolder = "")
          then Raise (Exc FileNotFoundError
                        (errno_message "2" "No such file or directory"
                           albumFolder))
          else match makedirs_error e albumFolder with
               | Some ex => Raise ex
               | None => Ret tt
               end,
     w).
Proof.
  unfold ensure_folder, os_path_exists, os_makedirs, when, get_world.
  unfold mbind, M_bind, bind, mret, M_ret, ret, raise.
  destruct (bool_decide _ || is_dir e albumFolder); cbn [negb]; [done|].
  case_bool_decide; [done|]. by destruct (makedirs_error e albumFolder).
Qed.

Lemma ensure_folder_ready (e : env) (albumFolder : string) (w : world) :
  folder_ready e (files w) albumFolder →
  ensure_folder e albumFolder w = (Ret tt, w).
Proof.
  intros Hready. rewrite ensure_folder_run.
  destruct Hready as [Hfile|[Hdir|[Hne Hmk]]].
  - by rewrite bool_decide_true.
  - by rewrite Hdir, orb_true_r.
  - rewrite Hmk, (bool_decide_false (albumFolder = "")) by done.
    by destruct (_ || _).
Qed.

(** [save_images] is the folder step, then the loop, then, when the
    loop returns, the calls to the complete callbacks. *)
Lemma save_images_loop (e : env) (self : t) (foldername : option string)
    (useKey : bool) (w : world) :
  save_images e self foldername useKey w
  = match ensure_folder e (album_folder self foldername) w with
    | (Raise ex, w0) => (Raise ex, w0)
    | (Ret _, w0) =>
        match for_each (enumerate 1 (imageIDs self))
                (save_image e self (album_folder self foldername) useKey)
                w0 with
        | (Ret _, w1) =>
            (Ret tt,
             World (files w1)
               (trace w1 ++ (EvComplete <$> complete_callbacks self)))
        | (Raise ex, w1) => (Raise ex, w1)
        end
    end.
Proof.
  unfold save_images, ensure_folder, emit.
  unfold mbind at 1 2 3, M_bind at 1 2 3, bind at 1 2 3.
  unfold mbind, M_bind, bind.
  destruct (os_path_exists e _ w) as [[ex_folder|ex] w0]; [|done].
  destruct (when (negb ex_folder) _ w0) as [[[]|ex] w1]; [|done].
  by destruct (for_each _ _ w1) as [[[]|ex] w2].
Qed.

Lemma complete_calls_fmap (fns : list string) :
  complete_calls (EvComplete <$> fns) = fns
  ∧ gets (EvComplete <$> fns) = []
  ∧ image_calls (EvComplete <$> fns) = []
  ∧ success_calls (EvComplete <$> fns) = [].
Proof.
  unfold complete_calls, gets, image_calls, success_calls.
  repeat split; induction fns as [|f l IH]; csimpl; by rewrite ?IH.
Qed.

(** The turn of an item ends normally when the failures of the network
    and of the decoder are among those the [except] clause lists and
    the file of the item can be written. *)
Lemma attempt_returns (e : env) (url path : string) :
  (∀ u ex, http_get e u = inl ex → caught_by download_errors ex = true) →
  (∀ data ex,
     image_size e data = inl ex → caught_by download_errors ex = true) →
  write_error e path = None →
  turn_raises (attempt e url path) = None.
Proof.
  intros Hget Hsize Hwrite.
  assert (is_dir e path = false) as Hdir.
  { unfold write_error in Hwrite. by destruct (is_dir e path). }
  unfold attempt, failure. rewrite Hwrite, Hdir.
  destruct (http_get e url) as [ex|r] eqn:Hg.
  { by rewrite (Hget _ _ Hg). }
  destruct (image_size e (content r)) as [ex|[iw ih]] eqn:Hs.
  { by rewrite (Hsize _ _ Hs). }
  by destruct ((iw =? 161) && (ih =? 81))%Z.
Qed.

Lemma classify_returns (e : env) (fs : gmap string (list byte))
    (url path : string) :
  turn_raises (attempt e url path) = None →
  turn_raises (classify e fs url path) = None.
Proof. unfold classify. by destruct (fs !! path). Qed.

Section turns.
Context (e : env) (self : t) (albumFolder : string) (useKey : bool).

Local Abbreviation body := (save_image e self albumFolder useKey).
Local Abbreviation dest := (item_path self albumFolder useKey).
Local Abbreviation step := (turn e self albumFolder useKey).

(** When no item can end the loop, the loop returns, and the world it
    leaves is the world after the turn of each item, one after the
    other. *)
Lemma for_each_turns (items : list (nat * (string * string))) :
  (∀ it, it ∈ items →
     turn_raises (attempt e (item_url it) (dest it)) = None) →
  ∀ w, for_each items body w = (Ret tt, foldl step w items).
Proof.
  induction items as [|it items IH]; intros Hno w; [done|].
  rewrite for_each_cons, save_image_turn.
  rewrite (classify_returns e (files w) (item_url it) (dest it))
    by (apply Hno; by left).
  cbn [foldl]. apply IH. intros ??. apply Hno. by right.
Qed.

(** The outcome of an item depends on the files only through what is
    at its own destination. *)
Lemma classify_agree (fs fs' : gmap string (list byte)) (url path : string) :
  fs !! path = fs' !! path → classify e fs url path = classify e fs' url path.
Proof. unfold classify. by intros ->. Qed.

(** When the items go to distinct files, each turn finds at its
    destination what was there when the loop began: the events and the
    files of the whole loop can be told from the files at the
    beginning. *)
Lemma turns_from_start (items : list (nat * (string * string)))
    (fs0 : gmap string (list byte)) :
  NoDup (dest <$> items) →
  ∀ w, (∀ it, it ∈ items → files w !! dest it = fs0 !! dest it) →
    trace (foldl step w items)
    = (trace w ++ (items ≫= item_events e self albumFolder useKey fs0))%list
    ∧ (∀ it, it ∈ items →
         files (foldl step w items) !! dest it
         = file_after e self albumFolder useKey fs0 it)
    ∧ (∀ p, p ∉ dest <$> items →
         files (foldl step w items) !! p = files w !! p).
Proof.
  induction items as [|it items IH]; intros Hnd w Hagree.
  { csimpl. rewrite (right_id_L [] (++)).
    split; [done|]. split; [by intros ? ?%elem_of_nil|done]. }
  rewrite fmap_cons in Hnd. apply NoDup_cons in Hnd as [Hit Hnd].
  cbn [foldl].
  assert (Hc : classify e (files w) (item_url it) (dest it)
               = classify e fs0 (item_url it) (dest it)).
  { apply classify_agree, Hagree. by left. }
  assert (Hother : ∀ p, p ≠ dest it →
            files (step w it) !! p = files w !! p).
  { intros p Hp. unfold turn, item_files. cbn [files].
    destruct (classify e (files w) _ _); try done.
    by rewrite lookup_insert_ne. }
  assert (Hhere : files (step w it) !! dest it
                  = file_after e self albumFolder useKey fs0 it).
  { unfold turn, item_files, file_after. cbn [files].
    rewrite Hc. unfold classify. rewrite <-(Hagree it) by (by left).
    destruct (files w !! dest it) as [b|] eqn:Hb; [by rewrite Hb|].
    destruct (attempt e (item_url it) (dest it));
      by rewrite ?lookup_insert_eq, ?Hb. }
  destruct (IH Hnd (step w it)) as (Htr & Hitems & Hout).
  { intros it' Hin. rewrite Hother; [apply Hagree; by right|].
    intros Heq. apply Hit. rewrite <-Heq. by apply list_elem_of_fmap_2. }
  split; [|split].
  - rewrite Htr. unfold turn at 1. cbn [trace]. csimpl.
    unfold item_events at 1 3. rewrite Hc.
    by rewrite <-!(assoc_L (++)).
  - intros it' [->|Hin]%elem_of_cons; [|by apply Hitems].
    by rewrite Hout.
  - intros p [Hp1 Hp2]%not_elem_of_cons. rewrite Hout by done.
    by apply Hother.
Qed.

(** The requests and the calls of a loop whose events are told from
    the files [fs]. *)
Lemma item_events_bind_calls (items : list (nat * (string * string)))
    (fs : gmap string (list byte)) :
  let during := items ≫= item_events e self albumFolder useKey fs in
  gets during = item_url <$> filter (λ it, fs !! dest it = None) items ∧
  success_calls during
  = (items ≫= λ it,
       match classify e fs (item_url it) (dest it) with
       | Saved _ =>
           (λ fn, (fn, it.1, item_url it, dest it)) <$> success_callbacks self
       | _ => []
       end) ∧
  image_calls during
  = (items ≫= λ it,
       (λ fn, (fn, it.1, item_url it, dest it)) <$> image_callbacks self) ∧
  complete_calls during = [].
Proof.
  cbv zeta. induction items as [|it items (IH1 & IH2 & IH3 & IH4)];
    [done|].
  destruct (item_events_calls e self albumFolder useKey it fs)
    as (Himg & Hcomp & Hgets & Hsucc & _).
  csimpl. unfold gets, success_calls, image_calls, complete_calls in *.
  rewrite !omap_app, Himg, Hcomp, Hgets, Hsucc, IH1, IH2, IH3, IH4.
  repeat split; try done.
  destruct (fs !! dest it) as [b|] eqn:Hb.
  - by rewrite filter_cons_False by (by rewrite Hb).
  - by rewrite filter_cons_True by done.
Qed.

End turns.

Lemma occurrences_NoDup {A} `{EqDecision A} (x : A) (l : list A) :
  NoDup l → x ∈ l → occurrences x l = 1.
Proof.
  unfold occurrences. induction 1 as [|y l Hy Hl IH]; intros Hx.
  { by apply elem_of_nil in Hx. }
  destruct (decide (y = x)) as [->|Hne].
  - rewrite filter_cons_True by done. simpl. f_equal.
    clear IH Hx. induction l as [|z l IH]; [done|].
    apply not_elem_of_cons in Hy as [? ?].
    rewrite filter_cons_False by congruence.
    apply IH; [done|by inversion Hl].
  - rewrite filter_cons_False by done. apply IH.
    apply elem_of_cons in Hx as [->|?]; done.
Qed.

Lemma occurrences_pos {A} `{EqDecision A} (x : A) (l : list A) :
  0 < occurrences x l → x ∈ l.
Proof.
  unfold occurrences. induction l as [|y l IH]; simpl; [lia|].
  destruct (decide (y = x)) as [->|Hne].
  - intros _. by left.
  - rewrite filter_cons_False by done. intros ?. right. by apply IH.
Qed.

End LoopFacts.

Import LoopFacts.

(** ** Counting extensions *)

Module CountFacts.
Import ImgurAlbumDownloader.

Lemma counter_get_incr (k k' : string) (c : list (string * nat)) :
  counter_get k (counter_incr k' c)
  = (counter_get k c + if bool_decide (k = k') then 1 else 0)%nat.
Proof.
  induction c as [|[k1 n] c IH]; simpl.
  - case_bool_decide; lia.
  - destruct (decide (k' = k1)) as [->|Hne].
    + rewrite (bool_decide_true (k1 = k1)) by done. simpl.
      case_bool_decide; lia.
    + rewrite (bool_decide_false (k' = k1)) by done. simpl.
      destruct (decide (k = k1)) as [->|Hk].
      * rewrite (bool_decide_true (k1 = k1)) by done.
        rewrite bool_decide_false by done. lia.
      * by rewrite (bool_decide_false (k = k1)) by done.
Qed.

Lemma counter_incr_keys (k : string) (c : list (string * nat)) :
  (counter_incr k c).*1 = if bool_decide (k ∈ c.*1) then c.*1
                          else (c.*1 ++ [k])%list.
Proof.
  induction c as [|[k1 n] c IH]; [done|]. simpl.
  destruct (decide (k = k1)) as [->|Hne].
  - rewrite (bool_decide_true (k1 = k1)) by done.
    by rewrite bool_decide_true by (by left).
  - rewrite (bool_decide_false (k = k1)) by done. csimpl. rewrite IH.
    destruct (decide (k ∈ c.*1)).
    + rewrite !bool_decide_true; [done|by right|done].
    + rewrite !bool_decide_false; [done| |done].
      by intros [?|?]%elem_of_cons.
Qed.

Lemma counter_incr_NoDup (k : string) (c : list (string * nat)) :
  NoDup c.*1 → NoDup (counter_incr k c).*1.
Proof.
  intros Hc. rewrite counter_incr_keys. case_bool_decide; [done|].
  apply NoDup_app. split; [done|]. split; [|apply NoDup_singleton].
  by intros x Hx ->%list_elem_of_singleton.
Qed.

Lemma counter_incr_pos (k : string) (c : list (string * nat)) :
  Forall (λ kn, 0 < kn.2) c → Forall (λ kn, 0 < kn.2) (counter_incr k c).
Proof.
  induction 1 as [|[k1 n] c Hn Hc IH]; simpl.
  - repeat constructor.
  - case_bool_decide; constructor; simpl in *; by try lia.
Qed.

Lemma counter_incr_sum (k : string) (c : list (string * nat)) :
  sum_list (counter_incr k c).*2 = S (sum_list c.*2).
Proof.
  induction c as [|[k1 n] c IH]; [done|]. simpl.
  case_bool_decide; csimpl; [done|]. rewrite IH. lia.
Qed.

Lemma counter_get_absent (k : string) (c : list (string * nat)) :
  k ∉ c.*1 → counter_get k c = 0.
Proof.
  induction c as [|[k1 n] c IH]; [done|]. csimpl.
  intros [? ?]%not_elem_of_cons. by rewrite bool_decide_false, IH.
Qed.

Lemma counter_get_elem (k : string) (n : nat) (c : list (string * nat)) :
  NoDup c.*1 → (k, n) ∈ c → counter_get k c = n.
Proof.
  induction c as [|[k1 n1] c IH]; csimpl; [by intros _ ?%elem_of_nil|].
  intros [Hk1 Hc]%NoDup_cons [[= -> ->]|Hin]%elem_of_cons.
  - by rewrite bool_decide_true.
  - rewrite bool_decide_false; [by apply IH|].
    intros ->. apply Hk1, list_elem_of_fmap. by exists (k1, n).
Qed.

Lemma counter_get_pos (k : string) (c : list (string * nat)) :
  0 < counter_get k c → (k, counter_get k c) ∈ c.
Proof.
  induction c as [|[k1 n1] c IH]; simpl; [lia|].
  case_bool_decide as Hk; [subst; by left|]. intros ?. right. by apply IH.
Qed.

Section fold.
Context (ids : list (string * string)).

(** The state of the counter after the loop of lines 122-123, started
    from any counter. *)
Lemma fold_counter (c : list (string * nat)) :
  let c' := foldl (λ c i, counter_incr i.2 c) c ids in
  (NoDup c.*1 → NoDup c'.*1) ∧
  (Forall (λ kn, 0 < kn.2) c → Forall (λ kn, 0 < kn.2) c') ∧
  sum_list c'.*2 = (sum_list c.*2 + length ids)%nat ∧
  ∀ k, counter_get k c' = (counter_get k c + count_of k ids)%nat.
Proof.
  revert c. induction ids as [|i l IH]; intros c; simpl.
  { repeat split; try done; intros; unfold count_of; simpl; lia. }
  destruct (IH (counter_incr i.2 c)) as (H1 & H2 & H3 & H4).
  split; [by intros ?%(counter_incr_NoDup i.2)%H1|].
  split; [by intros ?%(counter_incr_pos i.2)%H2|].
  split; [rewrite H3, counter_incr_sum; lia|].
  intros k. rewrite H4, counter_get_incr. unfold count_of.
  destruct (decide (i.2 = k)) as [<-|Hne].
  - rewrite bool_decide_true, filter_cons_True by done. simpl. lia.
  - rewrite bool_decide_false, filter_cons_False by done. lia.
Qed.

End fold.

(** The counter the constructor builds: one entry per extension that
    occurs, with the number of items that have it. *)
Lemma count_extensions_spec (ids : list (string * string)) :
  NoDup (count_extensions ids).*1 ∧
  sum_list (count_extensions ids).*2 = length ids ∧
  ∀ ext n, (ext, n) ∈ count_extensions ids ↔ n = count_of ext ids ∧ 0 < n.
Proof.
  unfold count_extensions.
  destruct (fold_counter ids []) as (H1 & H2 & H3 & H4).
  specialize (H1 (NoDup_nil_2)). specialize (H2 (Forall_nil_2 _)).
  split; [done|]. split; [done|]. intros ext n.
  specialize (H4 ext). simpl in H4. split.
  - intros Hin. split.
    + rewrite <-H4. symmetry. by apply counter_get_elem.
    + by apply (proj1 (Forall_forall _ _) H2 _ Hin).
  - intros [-> Hpos]. rewrite <-H4 in *. by apply counter_get_pos.
Qed.

(** [most_common] sorts: it keeps the entries and puts them by
    decreasing count. *)
Lemma insert_by_count_Permutation (x : string * nat)
    (l : list (string * nat)) :
  insert_by_count x l ≡ₚ x :: l.
Proof.
  induction l as [|y l IH]; [done|]. simpl.
  destruct (x.2 <? y.2)%nat; [|done]. rewrite IH. apply Permutation_swap.
Qed.

Lemma most_common_Permutation (c : list (string * nat)) :
  most_common c ≡ₚ c.
Proof.
  induction c as [|x c IH]; [done|]. simpl.
  by rewrite insert_by_count_Permutation, IH.
Qed.

Lemma insert_by_count_sorted (x : string * nat) (l : list (string * nat)) :
  StronglySorted (λ a b, (b.2 ≤ a.2)%nat) l →
  StronglySorted (λ a b, (b.2 ≤ a.2)%nat) (insert_by_count x l).
Proof.
  induction 1 as [|y l Hl IH Hy]; simpl; [by repeat constructor|].
  destruct (x.2 <? y.2)%nat eqn:Hlt.
  - apply Nat.ltb_lt in Hlt. constructor; [done|].
    rewrite insert_by_count_Permutation. constructor; [lia|done].
  - apply Nat.ltb_ge in Hlt. constructor; [by constructor|].
    constructor; [done|]. eapply Forall_impl; [done|]. simpl. lia.
Qed.

Lemma most_common_sorted (c : list (string * nat)) :
  StronglySorted (λ a b, (b.2 ≤ a.2)%nat) (most_common c).
Proof.
  induction c as [|x c IH]; simpl; [constructor|].
  by apply insert_by_count_sorted.
Qed.

(** The sort is stable: entries with the same count stay in the order in
    which they were counted. *)
Lemma insert_by_count_filter (n : nat) (x : string * nat)
    (l : list (string * nat)) :
  StronglySorted (λ a b, (b.2 ≤ a.2)%nat) l →
  filter (λ a, a.2 = n) (insert_by_count x l)
  = filter (λ a, a.2 = n) (x :: l).
Proof.
  induction 1 as [|y l Hl IH Hy]; [done|]. simpl.
  destruct (x.2 <? y.2)%nat eqn:Hlt; [|done].
  apply Nat.ltb_lt in Hlt.
  destruct (decide (y.2 = n)) as [Hyn|Hyn].
  - rewrite (filter_cons_True _ y) by done. rewrite IH.
    rewrite (filter_cons_False _ x) by (simpl; lia).
    rewrite (filter_cons_False _ x) by (simpl; lia).
    by rewrite (filter_cons_True _ y) by done.
  - rewrite (filter_cons_False _ y) by done. rewrite IH.
    destruct (decide (x.2 = n)).
    + rewrite !(filter_cons_True _ x) by done.
      by rewrite (filter_cons_False _ y) by done.
    + rewrite !(filter_cons_False _ x) by done.
      by rewrite (filter_cons_False _ y) by done.
Qed.

Lemma most_common_stable (n : nat) (c : list (string * nat)) :
  filter (λ a, a.2 = n) (most_common c) = filter (λ a, a.2 = n) c.
Proof.
  induction c as [|x c IH]; [done|]. simpl.
  rewrite insert_by_count_filter by apply most_common_sorted.
  destruct (decide (x.2 = n)).
  - rewrite !(filter_cons_True _ x) by done. by rewrite IH.
  - rewrite !(filter_cons_False _ x) by done. by rewrite IH.
Qed.

End CountFacts.

Import CountFacts.

(** ** File names and paths *)

Module PathFacts.
Import ImgurAlbumDownloader.

(** A text that starts with characters of a set and goes on with a
    character outside it is cut in one way only. *)
Lemma app_split_first (p : ascii → bool) (s1 s2 t1 t2 : string)
    (a b : ascii) :
  all p s1 = true → all p s2 = true → p a = false → p b = false →
  s1 ++ String a t1 = s2 ++ String b t2 → s1 = s2 ∧ a = b ∧ t1 = t2.
Proof.
  revert s2. induction s1 as [|c s1 IH]; intros [|d s2]; simpl;
    rewrite ?str_app_nil_l.
  - by intros _ _ _ _ [= -> ->].
  - intros _ [Hd _]%andb_prop Ha _ [= -> _]. congruence.
  - intros [Hc _]%andb_prop _ _ Hb [= -> _]. congruence.
  - intros [_ H1]%andb_prop [_ H2]%andb_prop Ha Hb [= -> Heq].
    by destruct (IH s2 H1 H2 Ha Hb Heq) as (-> & -> & ->).
Qed.

Lemma pretty_N_char_digit (x : N) : in_class Digit (pretty_N_char x) = true.
Proof. unfold pretty_N_char. by repeat case_match. Qed.

Lemma pretty_N_char_nonzero (x : N) :
  (0 < x < 10)%N → pretty_N_char x ≠ "0"%char.
Proof.
  intros ?. assert (x = 1 ∨ x = 2 ∨ x = 3 ∨ x = 4 ∨ x = 5 ∨ x = 6
                    ∨ x = 7 ∨ x = 8 ∨ x = 9)%N as Hx by lia.
  repeat (destruct Hx as [->|Hx]; [done|]). by subst x.
Qed.

Lemma pretty_N_go_digits (x : N) (s : string) :
  all (in_class Digit) (pretty_N_go x s) = all (in_class Digit) s.
Proof.
  revert s. induction (N.lt_wf_0 x) as [x _ IH]; intros s.
  assert (x = 0 ∨ 0 < x)%N as [->|?] by lia; [done|].
  rewrite pretty_N_go_step by done. rewrite IH by (by apply N.div_lt).
  cbn [all]. by rewrite pretty_N_char_digit.
Qed.

Lemma pretty_N_go_length (x : N) (s : string) :
  (String.length s ≤ String.length (pretty_N_go x s))%nat.
Proof.
  revert s. induction (N.lt_wf_0 x) as [x _ IH]; intros s.
  assert (x = 0 ∨ 0 < x)%N as [->|?] by lia; [done|].
  rewrite pretty_N_go_step by done.
  etrans; [|by eapply IH, N.div_lt]. simpl. lia.
Qed.

Lemma pretty_N_go_small (x : N) (s : string) :
  (0 < x < 10)%N → pretty_N_go x s = String (pretty_N_char x) s.
Proof.
  intros ?. rewrite pretty_N_go_step by lia.
  rewrite N.div_small, N.mod_small by lia. done.
Qed.

(** The first digit of a positive number is not a zero. *)
Lemma pretty_N_go_head (x : N) (s : string) :
  (0 < x)%N → ∃ a t, pretty_N_go x s = String a t ∧ a ≠ "0"%char.
Proof.
  revert s. induction (N.lt_wf_0 x) as [x _ IH]; intros s Hx.
  assert (x < 10 ∨ 10 ≤ x)%N as [?|?] by lia.
  - rewrite pretty_N_go_small by lia. eexists _, _. split; [done|].
    by apply pretty_N_char_nonzero.
  - rewrite pretty_N_go_step by done. apply IH; [by apply N.div_lt|].
    apply N.div_str_pos. lia.
Qed.

Lemma pretty_nat_unfold (n : nat) :
  0 < n → pretty n = pretty_N_go (N.of_nat n) "".
Proof.
  intros ?. unfold pretty, pretty_nat, pretty, pretty_N.
  by rewrite decide_False by lia.
Qed.

Lemma pretty_nat_digits (n : nat) : all (in_class Digit) (pretty n) = true.
Proof.
  destruct n as [|n]; [done|]. rewrite pretty_nat_unfold by lia.
  by rewrite pretty_N_go_digits.
Qed.

Lemma pretty_nat_head (n : nat) :
  0 < n → ∃ a t, pretty n = String a t ∧ a ≠ "0"%char.
Proof.
  intros ?. rewrite pretty_nat_unfold by done. apply pretty_N_go_head. lia.
Qed.

Lemma pretty_nat_length (n : nat) :
  (n < 10 → String.length (pretty n) = 1) ∧
  (10 ≤ n → n < 100 → String.length (pretty n) = 2)%nat ∧
  (100 ≤ n → 3 ≤ String.length (pretty n))%nat.
Proof.
  split; [|split].
  - intros ?. destruct n as [|n]; [done|].
    rewrite pretty_nat_unfold, pretty_N_go_small by lia. done.
  - intros ??. rewrite pretty_nat_unfold, pretty_N_go_step by lia.
    rewrite pretty_N_go_small; [done|].
    split; [apply N.div_str_pos; lia|].
    apply N.Div0.div_lt_upper_bound; lia.
  - intros ?. rewrite pretty_nat_unfold by lia.
    rewrite 3!pretty_N_go_step;
      [|repeat (apply N.div_str_pos; split; [lia|]);
        repeat (apply N.div_le_lower_bound; [lia|]); lia..].
    etrans; [|apply pretty_N_go_length]. simpl. lia.
Qed.

(** The counter of a file name: padded with a zero below 10, as it is
    from 10 on. *)
Lemma rjust_counter (n : nat) :
  rjust 2 "0" (pretty n)
  = if decide (n < 10) then "0" ++ pretty n else pretty n.
Proof.
  unfold rjust. destruct (pretty_nat_length n) as (H1 & H2 & H3).
  case_decide.
  - by rewrite H1 by done.
  - assert (2 ≤ String.length (pretty n))%nat as Hlen.
    { destruct (decide (n < 100)); [rewrite H2; lia|].
      etrans; [|apply H3]; lia. }
    replace (2 - String.length (pretty n)) with 0 by lia. done.
Qed.

Lemma rjust_counter_digits (n : nat) :
  all (in_class Digit) (rjust 2 "0" (pretty n)) = true.
Proof.
  rewrite rjust_counter. case_decide; simpl; apply pretty_nat_digits.
Qed.

Lemma rjust_counter_inj (n1 n2 : nat) :
  rjust 2 "0" (pretty n1) = rjust 2 "0" (pretty n2) → n1 = n2.
Proof.
  rewrite !rjust_counter.
  assert (Hmix : ∀ a b, a < 10 → ¬ b < 10 → "0" ++ pretty a ≠ pretty b).
  { intros a b Ha Hb Heq.
    destruct (pretty_nat_head b) as (c & t & Hc & Hne); [lia|].
    rewrite Hc in Heq. by injection Heq as <- _. }
  repeat case_decide; intros Heq.
  - injection Heq as Heq. by apply (inj pretty).
  - by destruct (Hmix n1 n2).
  - by destruct (Hmix n2 n1).
  - by apply (inj pretty).
Qed.

(** Two file name endings, counter then extension, that are equal have
    the same counter and the same extension. *)
Lemma counter_ext_inj (n1 n2 : nat) (x1 x2 : string) :
  rjust 2 "0" (pretty n1) ++ String "." x1
  = rjust 2 "0" (pretty n2) ++ String "." x2 →
  n1 = n2 ∧ x1 = x2.
Proof.
  intros Heq.
  destruct (app_split_first (in_class Digit) _ _ x1 x2 "." "."
              (rjust_counter_digits n1) (rjust_counter_digits n2)
              eq_refl eq_refl Heq) as (Hpad & _ & ->).
  split; [by apply rjust_counter_inj|done].
Qed.

Lemma path_of_file_name (self : t) (albumFolder : string) (useKey : bool)
    (it : nat * (string * string)) :
  item_path self albumFolder useKey it
  = os_path_join albumFolder (file_name self useKey it).
Proof. unfold item_path, path_of, file_name, suffix. by destruct useKey. Qed.

Lemma starts_with_alnum (s t : string) :
  s ≠ "" → all (in_class Alnum) s = true → starts_with "/" (s ++ t) = false.
Proof.
  destruct s as [|a s]; [done|]. intros _ [Ha _]%andb_prop. simpl.
  apply bool_decide_false. by intros <-.
Qed.

(** [os.path.join] keeps the folder in front of a name that does not
    start with a slash. *)
Lemma os_path_join_relative (a b : string) :
  starts_with "/" b = false →
  ∃ sep, (sep = "" ∨ sep = "/") ∧ os_path_join a b = a ++ sep ++ b.
Proof.
  intros Hb. unfold os_path_join. rewrite Hb.
  destruct (bool_decide (a = "") || ends_with "/" a).
  - exists "". split; [by left|]. by rewrite str_app_nil_l.
  - exists "/". split; [by right|done].
Qed.

Lemma os_path_join_inj (a b1 b2 : string) :
  starts_with "/" b1 = false → starts_with "/" b2 = false →
  os_path_join a b1 = os_path_join a b2 → b1 = b2.
Proof.
  intros H1 H2. unfold os_path_join. rewrite H1, H2.
  destruct (bool_decide (a = "") || ends_with "/" a); intros Heq.
  - by apply str_app_inv_head in Heq.
  - by apply str_app_inv_head, str_app_inv_head in Heq.
Qed.

Lemma enumerate_fst {A} (n : nat) (xs : list A) :
  (enumerate n xs).*1 = seq n (length xs).
Proof.
  revert n. induction xs as [|x xs IH]; intros n; csimpl; [done|].
  by rewrite IH.
Qed.

Lemma enumerate_snd {A} (n : nat) (xs : list A) : (enumerate n xs).*2 = xs.
Proof.
  revert n. induction xs as [|x xs IH]; intros n; csimpl; [done|].
  by rewrite IH.
Qed.

Lemma enumerate_NoDup {A} (n : nat) (xs : list A) : NoDup (enumerate n xs).
Proof.
  apply (NoDup_fmap_1 fst). rewrite enumerate_fst. apply NoDup_seq.
Qed.

Lemma enumerate_elem {A} (n : nat) (xs : list A) (c : nat) (x : A) :
  (c, x) ∈ enumerate n xs → (n ≤ c)%nat ∧ xs !! (c - n) = Some x.
Proof.
  revert n. induction xs as [|y xs IH]; intros n; simpl.
  { by intros ?%elem_of_nil. }
  intros [[= -> ->]|Hin]%elem_of_cons.
  - split; [lia|]. by rewrite Nat.sub_diag.
  - apply IH in Hin as [? Hx]. split; [lia|].
    by replace (c - n) with (S (c - S n)) by lia.
Qed.

Lemma file_name_starts (self : t) (useKey : bool)
    (it : nat * (string * string)) :
  album_key self ≠ "" → all (in_class Alnum) (album_key self) = true →
  item_ok it.2 → starts_with "/" (file_name self useKey it) = false.
Proof.
  intros Hne Hkey (Hid & Hal & _). unfold file_name.
  destruct useKey; by apply starts_with_alnum.
Qed.

(** Two items with the same destination have the same position and the
    same extension, and the same id when the files are named after the
    ids. *)
Lemma item_path_inj (self : t) (albumFolder : string) (useKey : bool)
    (it1 it2 : nat * (string * string)) :
  album_key self ≠ "" → all (in_class Alnum) (album_key self) = true →
  item_ok it1.2 → item_ok it2.2 →
  item_path self albumFolder useKey it1
  = item_path self albumFolder useKey it2 →
  it1.1 = it2.1 ∧ it1.2.2 = it2.2.2 ∧ (useKey = false → it1 = it2).
Proof.
  intros Hne Hkey Hok1 Hok2. rewrite !path_of_file_name. intros Heq.
  apply os_path_join_inj in Heq; [|by apply file_name_starts..].
  destruct it1 as [c1 [id1 e1]], it2 as [c2 [id2 e2]].
  destruct Hok1 as (_ & H1 & x1 & Hx1), Hok2 as (_ & H2 & x2 & Hx2).
  cbn [fst snd] in *. subst e1 e2. unfold file_name, suffix in Heq.
  cbn [fst snd] in Heq.
  destruct useKey.
  - apply str_app_inv_head in Heq.
    change (String "_" (rjust 2 "0" (pretty c1) ++ String "." x1)
            = String "_" (rjust 2 "0" (pretty c2) ++ String "." x2)) in Heq.
    injection Heq as Heq. apply counter_ext_inj in Heq as [-> ->]. done.
  - change (id1 ++ String "_" (rjust 2 "0" (pretty c1) ++ String "." x1)
            = id2 ++ String "_" (rjust 2 "0" (pretty c2) ++ String "." x2))
      in Heq.
    destruct (app_split_first (in_class Alnum) _ _ _ _ "_" "_" H1 H2
                eq_refl eq_refl Heq) as (-> & _ & Heq').
    apply counter_ext_inj in Heq' as [-> ->]. done.
Qed.

(** So the items of one run go to distinct files. *)
Lemma item_paths_NoDup (self : t) (albumFolder : string) (useKey : bool)
    (n : nat) :
  album_key self ≠ "" → all (in_class Alnum) (album_key self) = true →
  Forall item_ok (imageIDs self) →
  NoDup (item_path self albumFolder useKey <$> enumerate n (imageIDs self)).
Proof.
  intros Hne Hkey Hok. apply NoDup_fmap_2_strong; [|apply enumerate_NoDup].
  intros [c1 i1] [c2 i2] Hin1 Hin2 Heq.
  apply enumerate_elem in Hin1 as [_ Hl1].
  apply enumerate_elem in Hin2 as [_ Hl2].
  apply item_path_inj in Heq as (Hc & _ & _); try done.
  - cbn [fst] in Hc. subst c2. congruence.
  - apply (proj1 (Forall_forall _ _) Hok). by eapply list_elem_of_lookup_2.
  - apply (proj1 (Forall_forall _ _) Hok). by eapply list_elem_of_lookup_2.
Qed.

End PathFacts.

Import PathFacts.

(** ** What the extraction yields *)

Module ExtractFacts.
Import ImgurAlbumDownloader.

Local Ltac open_match :=
  repeat match goal with
         | H : ∃ _, _ |- _ => destruct H as [? H]
         | H : _ ∧ _ |- _ => destruct H as [? ?]
         end.

(** The three pieces of a page around a match. *)
Local Ltac cut_page :=
  match goal with
  | |- ∃ _ _ _,
         ?pre ++ (?a ++ hash_open ++ _ ++ dq ++ ?m ++ ext_open ++ _ ++ dq
                  ++ ?z) ++ ?s = _ =>
      exists (pre ++ a), m, (z ++ s); by rewrite !str_app_assoc
  end.

(** Every pair the scan finds has the form the pattern asks for. *)
Lemma found_pairs_sound (extn : option (list string)) (html : string)
    (pair : string * string) :
  pair ∈ found_pairs extn html → item_ok pair.
Proof.
  unfold found_pairs, findall.
  intros (g & -> & Hg)%list_elem_of_fmap.
  apply scan_sound in Hg as (t & rest & Hm).
  apply rmatch_sound in Hm as (w & s' & g' & _ & Hw & [= -> _]).
  unfold image_re, ext_regex in Hw.
  destruct (truthy extn) eqn:Ht; cbn [matches] in Hw; open_match.
  - destruct extn as [[|entry l]|]; try done.
    match goal with
    | H : matches (alternatives _) _ _ _ |- _ =>
        apply matches_alternatives in H as [_ ?]; [|done]
    end.
    subst. unfold item_ok, group. cbn [fst snd].
    rewrite !lookup_insert_ne, !lookup_insert_eq by done.
    simpl. eauto.
  - subst. unfold item_ok, group. cbn [fst snd].
    rewrite !lookup_insert_ne, !lookup_insert_eq by done.
    simpl. eauto.
Qed.

Lemma extract_sound (p : process) (extn : option (list string))
    (html : string) :
  Forall item_ok (extract p extn html).
Proof.
  apply Forall_forall. intros pair Hpair. apply list_of_set_elem in Hpair.
  by apply found_pairs_sound in Hpair.
Qed.

(** An id and an extension glued together come apart in one way. *)
Lemma id_ext_inj (i j : string * string) :
  item_ok i → item_ok j → i.1 ++ i.2 = j.1 ++ j.2 → i = j.
Proof.
  destruct i as [id1 e1], j as [id2 e2]. unfold item_ok. cbn [fst snd].
  intros (_ & H1 & x1 & ->) (_ & H2 & x2 & ->).
  intros Heq. change (id1 ++ String "." x1 = id2 ++ String "." x2) in Heq.
  by destruct (app_split_first (in_class Alnum) id1 id2 x1 x2 "." "." H1 H2
                 eq_refl eq_refl Heq) as (-> & _ & ->).
Qed.

(** Every match the scan reports was found at some place of the text. *)
Lemma scan_suffix (r : regex) (s : string) :
  ∀ (skip : nat) (g : gmap nat string),
    g ∈ scan r skip s →
    ∃ pre t rest, s = pre ++ t ∧ match_here r t = Some (g, rest).
Proof.
  induction s as [|a s IH]; intros skip g; destruct skip as [|n]; cbn [scan].
  - destruct (match_here r "") as [[g' rest]|] eqn:Hm.
    + intros ->%list_elem_of_singleton. by exists "", "", rest.
    + by intros ?%elem_of_nil.
  - by intros ?%elem_of_nil.
  - destruct (match_here r (String a s)) as [[g' rest]|] eqn:Hm.
    + intros [->|Hin]%elem_of_cons; [by exists "", (String a s), rest|].
      apply IH in Hin as (pre & t & rest' & -> & ?).
      by exists (String a pre), t, rest'.
    + intros (pre & t & rest' & -> & ?)%IH. by exists (String a pre), t, rest'.
  - intros (pre & t & rest' & -> & ?)%IH. by exists (String a pre), t, rest'.
Qed.

(** Every pair the scan finds is written in the page: the id between
    the opening text of a fragment and a quote, the extension further
    on between the text that announces it and a quote. *)
Lemma found_pairs_in_page (extn : option (list string)) (html : string)
    (pair : string * string) :
  pair ∈ found_pairs extn html →
  ∃ pre mid post,
    html = pre ++ hash_open ++ pair.1 ++ dq ++ mid ++ ext_open ++ pair.2
           ++ dq ++ post.
Proof.
  unfold found_pairs, findall.
  intros (g & -> & Hg)%list_elem_of_fmap.
  apply scan_suffix in Hg as (pre & t & rest & -> & Hm).
  apply rmatch_sound in Hm as (w & s' & g' & -> & Hw & [= -> _]).
  unfold image_re, ext_regex in Hw.
  destruct (truthy extn) eqn:Ht; cbn [matches] in Hw; open_match.
  - destruct extn as [[|entry l]|]; try done.
    match goal with
    | H : matches (alternatives _) _ _ _ |- _ =>
        apply matches_alternatives in H as [_ ?]; [|done]
    end.
    subst. unfold group. cbn [fst snd].
    rewrite !lookup_insert_ne, !lookup_insert_eq by done. cbn [default].
    cut_page.
  - subst. unfold group. cbn [fst snd].
    rewrite !lookup_insert_ne, !lookup_insert_eq by done. cbn [default].
    cut_page.
Qed.

(** A page with no opening brace holds no fragment, whatever the
    extensions asked for. *)
Lemma found_pairs_plain (extn : option (list string)) (html : string) :
  all not_brace html = true → found_pairs extn html = [].
Proof.
  intros Hall. destruct (found_pairs extn html) as [|pair l] eqn:Hf; [done|].
  destruct (found_pairs_in_page extn html pair) as (pre & mid & post & Heq).
  { rewrite Hf. by left. }
  rewrite Heq, all_app in Hall. apply andb_prop in Hall as [_ Hall].
  unfold hash_open in Hall. rewrite !str_app_assoc in Hall. done.
Qed.

Lemma list_of_set_nil (p : process) : list_of_set p [] = [].
Proof.
  destruct (list_of_set p []) as [|x l] eqn:Hl; [done|].
  assert (x ∈ list_of_set p []) as Hx by (rewrite Hl; by left).
  apply list_of_set_elem in Hx. by apply elem_of_nil in Hx.
Qed.

Lemma list_of_set_length (p : process) (xs : list (string * string)) :
  length (list_of_set p xs) = length (remove_dups xs).
Proof.
  apply Permutation_length, NoDup_Permutation.
  - apply list_of_set_NoDup.
  - apply NoDup_remove_dups.
  - intros x. by rewrite list_of_set_elem, elem_of_remove_dups.
Qed.

(** The key of a constructed instance is non-empty and alphanumeric. *)
Lemma album_key_is_a_key (e : env) (p : process) (url : string)
    (extn : option (list string)) (retry : option Retry) (verbose : bool)
    (w w' : world) (d : t) :
  __init__ e p url extn retry verbose w = (Ret d, w') →
  album_key d ≠ "" ∧ all (in_class Alnum) (album_key d) = true.
Proof.
  intros (protocol & key & r & Hcheck & _ & _ & _ & ->)%init_Ret.
  apply check_url_Ret in Hcheck as [_ Hpre]. cbn [album_key].
  by destruct Hpre as (pre & post & _ & www & m & seg & frag & _ & _ & _ & _
                       & _ & Hne & Hkey & _).
Qed.

End ExtractFacts.

Import ExtractFacts.

(** ** The files and the failures of a run *)

Module RunFacts.
Import ImgurAlbumDownloader.

Lemma attempt_Saved (e : env) (url path : string) (data : list byte) :
  attempt e url path = Saved data →
  ∃ r wh, http_get e url = inr r ∧ data = content r ∧
          image_size e data = inr wh ∧ wh ≠ (161, 81)%Z ∧
          write_error e path = None.
Proof.
  unfold attempt, failure.
  destruct (http_get e url) as [ex|r]; [by repeat case_match|].
  destruct (image_size e (content r)) as [ex|[iw ih]] eqn:Hs;
    [by repeat case_match|].
  destruct ((iw =? 161) && (ih =? 81))%Z eqn:Hp; [done|].
  destruct (write_error e path) as [ex|] eqn:Hw; [by repeat case_match|].
  intros [= <-]. exists r, (iw, ih). repeat split; try done.
  intros [= -> ->]. done.
Qed.

(** An exception that ends the turn of an item is of no class that the
    [except] clause lists; it comes from the request, the decoder or the
    writing of the file, or is the refusal to remove a directory. *)
Lemma attempt_raises (e : env) (url path : string) (ex : exc) :
  turn_raises (attempt e url path) = Some ex →
  caught_by download_errors ex = false ∧
  (http_get e url = inl ex ∨
   (∃ r, http_get e url = inr r ∧ image_size e (content r) = inl ex) ∨
   (∃ r wh, http_get e url = inr r ∧ image_size e (content r) = inr wh ∧
            write_error e path = Some ex) ∨
   (is_dir e path = true ∧ exc_cls ex = IsADirectoryError)).
Proof.
  assert (Hf : ∀ ex', turn_raises (failure e path ex') = Some ex →
                 caught_by download_errors ex = false ∧
                 (ex' = ex ∨
                  (is_dir e path = true ∧ exc_cls ex = IsADirectoryError))).
  { intros ex'. unfold failure.
    destruct (caught_by download_errors ex') eqn:Hc.
    - destruct (is_dir e path) eqn:Hd; [|done].
      intros [= <-]. split; [done|]. by right.
    - intros [= <-]. split; [done|]. by left. }
  unfold attempt. destruct (http_get e url) as [ex'|r] eqn:Hg.
  { intros [? [->|?]]%Hf; split; auto. }
  destruct (image_size e (content r)) as [ex'|[iw ih]] eqn:Hs.
  { intros [? [->|?]]%Hf; split; eauto 10. }
  destruct ((iw =? 161) && (ih =? 81))%Z; [done|].
  destruct (write_error e path) as [ex'|] eqn:Hw; [|done].
  intros [? [->|?]]%Hf; split; eauto 10.
Qed.

Section run.
Context (e : env) (self : t) (albumFolder : string) (useKey : bool).

Local Abbreviation body := (save_image e self albumFolder useKey).
Local Abbreviation dest := (item_path self albumFolder useKey).
Local Abbreviation downloaded := (downloaded e self albumFolder useKey).

(** Whatever the loop does and however it ends, a file it leaves was
    there before, unchanged, or is a download put where nothing was. *)
Lemma download_files (items : list (nat * (string * string))) :
  ∀ w : world,
    (∀ p b, files w !! p = Some b →
            files (for_each items body w).2 !! p = Some b) ∧
    (∀ p b, files (for_each items body w).2 !! p = Some b →
            files w !! p = Some b ∨
            (files w !! p = None ∧ downloaded p b items)).
Proof.
  induction items as [|it items IH]; intros w; [by split; auto|].
  rewrite for_each_cons.
  destruct (save_image_step e self albumFolder useKey it w)
    as (o1 & new1 & fs1 & -> & _ & _ & Hcase).
  assert (Hfs1 : fs1 = files w ∨
                 ∃ data, files w !! dest it = None ∧
                         fs1 = <[dest it := data]> (files w) ∧
                         downloaded (dest it) data (it :: items)).
  { destruct (classify e (files w) (item_url it) (dest it)) eqn:Hc;
      destruct Hcase as (_ & -> & _); auto.
    destruct (classify_not_existing e (files w) (item_url it) (dest it))
      as [Hnone Hatt]; [by rewrite Hc|].
    rewrite Hc in Hatt. symmetry in Hatt.
    apply attempt_Saved in Hatt as (r & wh & ? & -> & ? & ? & ?).
    right. exists (content r). split; [done|]. split; [done|].
    exists it, r, wh. repeat split; try done. by left. }
  assert (Hmore : ∀ p b, downloaded p b items → downloaded p b (it :: items)).
  { intros p b (it' & r & wh & ? & ?). exists it', r, wh.
    split; [by right|done]. }
  destruct o1 as [[]|ex]; cbn [snd files].
  - destruct (IH (World fs1 (trace w ++ new1))) as [Hkeep Hnew].
    cbn [files] in *.
    destruct Hfs1 as [->|(data & Hnone & -> & Hdl)].
    + split; [done|]. intros p b [?|[? ?]]%Hnew; auto.
    + split.
      * intros p b Hp. apply Hkeep. rewrite lookup_insert_ne; [done|].
        congruence.
      * intros p b [Hp|[Hp Hd]]%Hnew.
        -- destruct (decide (p = dest it)) as [->|Hne].
           ++ rewrite lookup_insert_eq in Hp. injection Hp as <-. auto.
           ++ rewrite lookup_insert_ne in Hp by done. auto.
        -- destruct (decide (p = dest it)) as [->|Hne].
           ++ by rewrite lookup_insert_eq in Hp.
           ++ rewrite lookup_insert_ne in Hp by done. auto.
  - destruct Hfs1 as [->|(data & Hnone & -> & Hdl)]; [by split; auto|].
    split.
    + intros p b Hp. rewrite lookup_insert_ne; [done|]. congruence.
    + intros p b Hp. destruct (decide (p = dest it)) as [->|Hne].
      * rewrite lookup_insert_eq in Hp. injection Hp as <-. auto.
      * rewrite lookup_insert_ne in Hp by done. auto.
Qed.

(** When the loop raises, it is on the first item whose outcome ends
    the loop, after its request; the items after it are not reached. *)
Lemma download_raises (items : list (nat * (string * string))) (ex : exc) :
  ∀ w w', for_each items body w = (Raise ex, w') →
    ∃ passed it rest new,
      items = (passed ++ it :: rest)%list ∧
      turn_raises (attempt e (item_url it) (dest it)) = Some ex ∧
      w' = World (files w') (trace w ++ new) ∧
      last (gets new) = Some (item_url it) ∧
      complete_calls new = [] ∧
      image_calls new
      = ((passed ++ [it])%list ≫= λ it,
           (λ fn, (fn, it.1, item_url it, dest it)) <$> image_callbacks self).
Proof.
  induction items as [|it items IH]; intros w w'; [done|].
  rewrite for_each_cons.
  destruct (save_image_step e self albumFolder useKey it w)
    as (o1 & new1 & fs1 & Hstep & Himg1 & Hcomp1 & Hcase).
  rewrite Hstep. destruct o1 as [[]|ex1].
  - intros (dn & it' & rest & new & -> & Hatt & Hw' & Hlast & Hcomp & Himg)%IH.
    exists (it :: dn), it', rest, (new1 ++ new)%list. split; [done|].
    split; [done|]. cbn [trace] in Hw'. rewrite <-(assoc_L (++)) in Hw'.
    split; [done|]. unfold gets, complete_calls, image_calls in *.
    rewrite !omap_app, Hcomp1, Hcomp, Himg1, Himg. split; [|done].
    rewrite last_app, Hlast. done.
  - intros [= -> <-].
    destruct (classify e (files w) (item_url it) (dest it)) eqn:Hc;
      destruct Hcase as (Ho & -> & Hg & _); try done; injection Ho as ->.
    all: destruct (classify_not_existing e (files w) (item_url it) (dest it))
           as [_ Hatt]; [by rewrite Hc|]; rewrite Hc in Hatt.
    all: exists [], it, items, new1; split; [done|].
    all: split; [by rewrite <-Hatt|]; split; [done|].
    all: split; [by rewrite Hg|]; split; [done|].
    all: csimpl; by rewrite (right_id_L [] (++)).
Qed.

(** A trace property that holds of what each turn adds holds of what
    the loop adds. *)
Lemma for_each_adds (P : list event → Prop)
    (items : list (nat * (string * string))) :
  P [] → (∀ a b, P a → P b → P (a ++ b)%list) →
  (∀ it w, ∃ new, trace (body it w).2 = (trace w ++ new)%list ∧ P new) →
  ∀ w, ∃ new, trace (for_each items body w).2 = (trace w ++ new)%list ∧ P new.
Proof.
  intros Hnil Happ Hbody. induction items as [|it items IH]; intros w.
  { exists []. by rewrite (right_id_L [] (++)). }
  rewrite for_each_cons. destruct (Hbody it w) as (new1 & Htr1 & HP1).
  destruct (body it w) as [[[]|ex] w1]; cbn [snd] in *.
  - destruct (IH w1) as (new2 & Htr2 & HP2). exists (new1 ++ new2)%list.
    rewrite Htr2, Htr1, (assoc_L (++)). auto.
  - eauto.
Qed.

(** The lines a turn prints: none unless the instance is verbose. *)
Lemma save_image_prints (it : nat * (string * string)) (w : world) :
  ∃ new,
    trace (body it w).2 = (trace w ++ new)%list ∧
    prints new
    = if verbose self then
        match classify e (files w) (item_url it) (dest it) with
        | SkippedExisting =>
            ["Skipping, " ++ dest it ++ " alreadyexists."]
        | Failed ex | CleanupFailed ex _ =>
            ["Download failed: " ++ class_name (exc_cls ex) ++ " "
             ++ exc_msg ex]
        | _ => []
        end
      else [].
Proof.
  rewrite save_image_turn. unfold turn. cbn [snd trace].
  eexists. split; [reflexivity|].
  by destruct (item_events_calls e self albumFolder useKey it (files w))
    as (_ & _ & _ & _ & ->).
Qed.

End run.

(** The whole of [save_images]: the world after it extends the world
    before it. *)
Lemma save_images_adds (e : env) (self : t) (foldername : option string)
    (useKey : bool) (w : world) :
  ∃ new, trace (save_images e self foldername useKey w).2
         = (trace w ++ new)%list.
Proof.
  rewrite save_images_loop, ensure_folder_run.
  destruct (if _ || _ then _ else _) as [[]|ex0].
  2: { exists []. by rewrite (right_id_L [] (++)). }
  destruct (download_loop e self (album_folder self foldername) useKey
              (enumerate 1 (imageIDs self)) w w)
    as (o & new & fs' & -> & _); [done|].
  destruct o as [[]|ex]; cbn [snd trace]; [|by eauto].
  eexists. by rewrite <-(assoc_L (++)).
Qed.

(** Registering callbacks one after the other appends them, in that
    order, and leaves the rest of the instance as it is. *)
Lemma on_image_download_foldl (self : t) (fns : list string) :
  foldl on_image_download self fns
  = Make (album_url self) (verbose self) (image_callbacks self ++ fns)
      (success_callbacks self) (complete_callbacks self) (protocol self)
      (album_key self) (session self) (headers self) (response self)
      (imageIDs self) (imageURLs self) (cnt self).
Proof.
  revert self. induction fns as [|f fns IH]; intros self; simpl.
  { rewrite (right_id_L [] (++)). by destruct self. }
  rewrite IH. simpl. by rewrite <-(assoc_L (++)).
Qed.

Lemma on_download_success_foldl (self : t) (fns : list string) :
  foldl on_download_success self fns
  = Make (album_url self) (verbose self) (image_callbacks self)
      (success_callbacks self ++ fns) (complete_callbacks self)
      (protocol self) (album_key self) (session self) (headers self)
      (response self) (imageIDs self) (imageURLs self) (cnt self).
Proof.
  revert self. induction fns as [|f fns IH]; intros self; simpl.
  { rewrite (right_id_L [] (++)). by destruct self. }
  rewrite IH. simpl. by rewrite <-(assoc_L (++)).
Qed.

Lemma on_complete_foldl (self : t) (fns : list string) :
  foldl on_complete self fns
  = Make (album_url self) (verbose self) (image_callbacks self)
      (success_callbacks self) (complete_callbacks self ++ fns)
      (protocol self) (album_key self) (session self) (headers self)
      (response self) (imageIDs self) (imageURLs self) (cnt self).
Proof.
  revert self. induction fns as [|f fns IH]; intros self; simpl.
  { rewrite (right_id_L [] (++)). by destruct self. }
  rewrite IH. simpl. by rewrite <-(assoc_L (++)).
Qed.

Lemma with_callbacks_eq (d : t) (fs gs hs : list string) :
  with_callbacks d fs gs hs
  = Make (album_url d) (verbose d) (image_callbacks d ++ fs)
      (success_callbacks d ++ gs) (complete_callbacks d ++ hs) (protocol d)
      (album_key d) (session d) (headers d) (response d) (imageIDs d)
      (imageURLs d) (cnt d).
Proof.
  unfold with_callbacks.
  by rewrite on_complete_foldl, on_download_success_foldl,
    on_image_download_foldl.
Qed.

End RunFacts.

Import RunFacts.

(** ** The script *)

Module ScriptFacts.
Import ImgurAlbumDownloader Script.

Lemma for_each_print {A} (f : A → string) (l : list A) (w : world) :
  for_each l (λ i, print (f i)) w
  = (Ret tt, World (files w) (trace w ++ (EvPrint <$> (f <$> l)))).
Proof.
  revert w. induction l as [|x l IH]; intros w; simpl.
  { rewrite (right_id_L [] (++)). by destruct w. }
  unfold mbind, M_bind, bind, print, emit. rewrite IH. cbn [files trace].
  by rewrite <-(assoc_L (++)).
Qed.

Lemma print_run (line : string) (w : world) :
  print line w = (Ret tt, World (files w) (trace w ++ [EvPrint line])).
Proof. reflexivity. Qed.

Lemma usage_error_prints (ex : exc) (w : world) :
  usage_error ex w
  = (Ret tt, World (files w) (trace w ++ (EvPrint <$> usage_lines (exc_msg ex)))).
Proof.
  unfold usage_error, print, emit, mbind, M_bind, bind. cbn [files trace].
  by rewrite <-!(assoc_L (++)).
Qed.

(** The folder the script passes on is its third argument when there
    are exactly three. *)
Lemma folder_of_args (prog url : string) (more : list string) :
  (if bool_decide (length (prog :: url :: more) = 3)
   then (prog :: url :: more) !! 2 else None)
  = folder_argument more.
Proof. by destruct more as [|f [|g more]]. Qed.

(** The [try] block when the constructor raises, and when it returns. *)
Lemma try_block_raises (e : env) (p : process) (prog url : string)
    (more : list string) (ex : exc) (w w1 : world) :
  __init__ e p url None None true w = (Raise ex, w1) →
  try_block e p (prog :: url :: more) w = (Raise ex, w1).
Proof.
  intros H. unfold try_block.
  change (default "" ((prog :: url :: more) !! 1)) with url.
  unfold mbind, M_bind, bind. by rewrite H.
Qed.

Lemma try_block_constructed (e : env) (p : process) (prog url : string)
    (more : list string) (d : t) (w w1 : world) :
  __init__ e p url None None true w = (Ret d, w1) →
  try_block e p (prog :: url :: more) w
  = save_images e (registered d) (folder_argument more) false
      (World (files w1) (trace w1 ++ (EvPrint <$> announcement d))).
Proof.
  intros H. unfold try_block. rewrite folder_of_args.
  change (default "" ((prog :: url :: more) !! 1)) with url.
  unfold mbind, M_bind, bind. rewrite H, print_run.
  rewrite (for_each_print
             (λ i : string * nat,
                "Found " ++ pretty i.2 ++ " files with " ++ i.1
                ++ " extension")).
  cbn [files trace]. by rewrite <-(assoc_L (++)).
Qed.

Lemma main_with_url (e : env) (p : process) (prog url : string)
    (more : list string) (w : world) :
  main e p prog (url :: more) w
  = match try_block e p (prog :: url :: more) w with
    | (Ret _, w1) => (Exit 0, w1)
    | (Raise ex, w1) =>
        if isinstance ex ImgurAlbumException
        then (Exit 1,
              World (files w1)
                (trace w1 ++ (EvPrint <$> usage_lines (exc_msg ex))))
        else (Traceback ex, w1)
    end.
Proof.
  unfold main. rewrite bool_decide_false by (simpl; lia).
  destruct (try_block _ _ _ w) as [[[]|ex] w1]; [done|].
  by rewrite usage_error_prints.
Qed.

Lemma stdout_prints (lines : list string) :
  stdout (EvPrint <$> lines) = lines.
Proof.
  unfold stdout. induction lines as [|l lines IH]; csimpl; [done|].
  by rewrite IH.
Qed.

Lemma stdout_app (a b : list event) :
  stdout (a ++ b) = (stdout a ++ stdout b)%list.
Proof. unfold stdout. by rewrite bind_app. Qed.

End ScriptFacts.

Import ScriptFacts.

(** ** Runs of the program *)

Module Runs.
Import ImgurAlbumDownloader.

(** Construction on the sample page: two items are found, one of each
    extension, and one request has been made. *)
Example construction_on_sample_page :
  ∃ d,
    __init__ (Env (answering (HttpResponse 200 sample_page []))
                (sized 640 480))
      process_a "http://imgur.com/a/uOOju#6" (Some []) None false empty_world
    = (Ret d, World ∅ [EvGet "http://imgur.com/a/uOOju/layout/blog"]) ∧
    protocol d = "http" ∧ album_key d = "uOOju" ∧
    imageIDs d = [("abc1", ".jpg"); ("xyz2", ".png")] ∧
    imageURLs d
    = ["https://i.imgur.com/abc1.jpg"; "https://i.imgur.com/xyz2.png"] ∧
    num_images d = 2 ∧
    list_extensions d = [(".jpg", 1); (".png", 1)].
Proof.
  eexists. split; [vm_compute; reflexivity|].
  repeat split; vm_compute; reflexivity.
Qed.

(** The sample album when the third download times out: the four other
    files are written, each followed by its success call, and the
    complete call ends the run. *)
Example run_with_a_failing_item :
  let run := save_images third_fails sample_album None false empty_world in
  run.1 = Ret tt ∧
  files run.2
  = list_to_map
      [("uOOju/aa_01.jpg", [x89; x50; x4e; x47]%byte);
       ("uOOju/bb_02.jpg", [x89; x50; x4e; x47]%byte);
       ("uOOju/dd_04.gif", [x89; x50; x4e; x47]%byte);
       ("uOOju/ee_05.jpg", [x89; x50; x4e; x47]%byte)] ∧
  success_calls (trace run.2)
  = [("saved", 1, "http://i.imgur.com/aa.jpg", "uOOju/aa_01.jpg");
     ("saved", 2, "http://i.imgur.com/bb.jpg", "uOOju/bb_02.jpg");
     ("saved", 4, "http://i.imgur.com/dd.gif", "uOOju/dd_04.gif");
     ("saved", 5, "http://i.imgur.com/ee.jpg", "uOOju/ee_05.jpg")] ∧
  complete_calls (trace run.2) = ["done"] ∧
  last (trace run.2) = Some (EvComplete "done").
Proof.
  intros run. repeat split; vm_compute; reflexivity.
Qed.

End Runs.

(** * The claims *)

Module Claims.
Import ImgurAlbumDownloader.




(** C5. An item whose destination file exists when its turn comes is
    skipped: no request, no success callback, the files unchanged. So
    in a second run of [save_images] on the folder of a first run,
    whatever the network does: the files the first run left are all
    kept as they are; the requests (and the success calls) of the
    second run go, in order, only to items whose file was missing
    after the first run; and when no file is missing there is no
    request at all, the files are exactly those of the first run, and
    the second run ends as its first step, the making of the folder,
    does: it returns unless nothing exists at the path of the folder
    and [os.makedirs] raises. *)
Theorem save_images_skips_existing_files (e1 e2 : env) (self : t)
    (foldername : option string) (useKey : bool) (w0 : world) :
  let folder := album_folder self foldername in
  let dest := item_path self folder useKey in
  let items := enumerate 1 (imageIDs self) in
  let missing (fs : gmap string (list byte)) :=
    filter (λ it, fs !! dest it = None) items in
  let first := save_images e1 self foldername useKey w0 in
  let second := save_images e2 self foldername useKey first.2 in
  (∀ e it w, is_Some (files w !! dest it) →
     ∃ new, save_image e self folder useKey it w
            = (Ret tt, World (files w) (trace w ++ new))
            ∧ gets new = [] ∧ success_calls new = []) ∧
  ∃ new,
    trace second.2 = (trace first.2 ++ new)%list ∧
    (∀ p b, files first.2 !! p = Some b → files second.2 !! p = Some b) ∧
    sublist (gets new) (item_url <$> missing (files first.2)) ∧
    sublist (success_calls new)
      (missing (files first.2) ≫= λ it,
         (λ fn, (fn, it.1, item_url it, dest it))
           <$> success_callbacks self) ∧
    (missing (files first.2) = [] →
     second.1 = (ensure_folder e2 folder first.2).1 ∧
     files second.2 = files first.2 ∧
     gets new = [] ∧ success_calls new = []).
Proof.
  intros folder dest items missing first second. split.
  { intros e it w [b Hb].
    destruct (save_image_step e self folder useKey it w)
      as (o & new & fs' & -> & _ & _ & Hcase).
    fold (dest it) in Hcase. unfold classify in Hcase. rewrite Hb in Hcase.
    destruct Hcase as (-> & -> & ? & ?). by exists new. }
  subst second. generalize (first.2). intros w1.
  rewrite save_images_loop. fold folder. fold items.
  rewrite ensure_folder_run.
  destruct (if _ || _ then _ else _) as [[]|ex0]; cbn [fst snd].
  2: { exists []. rewrite (right_id_L [] (++)).
       repeat split; try done; apply sublist_nil_l. }
  destruct (download_loop e2 self folder useKey items w1 w1)
    as (o & new & fs' & -> & Hkeep & Hgets & Hsucc & Hcomp & _ & _ & Hall);
    [done|].
  fold dest in Hgets, Hsucc, Hall. fold (missing (files w1)) in Hgets, Hsucc.
  destruct (complete_calls_fmap (complete_callbacks self))
    as (_ & Hc2 & _ & Hc4).
  assert (Hnone : missing (files w1) = [] →
            ∀ it, it ∈ items → is_Some (files w1 !! dest it)).
  { intros Hm it Hit. destruct (files w1 !! dest it) eqn:Hd; [by eexists|].
    assert (it ∈ missing (files w1)) as Hin
      by (by apply list_elem_of_filter).
    rewrite Hm in Hin. by apply elem_of_nil in Hin. }
  destruct o as [[]|ex]; cbn [files trace fst snd].
  - exists (new ++ (EvComplete <$> complete_callbacks self))%list.
    unfold gets, success_calls in *.
    rewrite !omap_app, Hc2, Hc4, !(right_id_L [] (++)), (assoc_L (++)).
    repeat split; try done; by apply Hall, Hnone.
  - exists new. repeat split; try done; by apply Hall, Hnone.
Qed.

Lemma save_images_skips_existing_files_witness :
  let first := save_images all_images sample_album None false empty_world in
  let second := save_images third_fails sample_album None false first.2 in
  second.1 = Ret tt ∧ files second.2 = files first.2 ∧
  gets (drop (length (trace first.2)) (trace second.2)) = [].
Proof.
  intros first second.
  destruct (save_images_skips_existing_files all_images third_fails
              sample_album None false empty_world)
    as (_ & new & Htr & _ & _ & _ & Hall).
  fold first in Htr, Hall. fold second in Htr, Hall.
  rewrite Htr, drop_app_length.
  destruct Hall as (? & ? & ? & _); [vm_compute; reflexivity|].
  split; [assumption|]. split; assumption.
Defined.

(** C6. An item whose response decodes to exactly 161 by 81 pixels is
    skipped as the placeholder: nothing is written (the files are
    unchanged), no success callback is called, and the loop goes on
    with the next item. *)
Theorem placeholder_is_skipped (e : env) (self : t) (albumFolder : string)
    (useKey : bool) (it : nat * (string * string))
    (rest : list (nat * (string * string))) (w : world)
    (r : http_response) :
  files w !! item_path self albumFolder useKey it = None →
  http_get e (item_url it) = inr r →
  image_size e (content r) = inr (161, 81)%Z →
  ∃ new,
    save_image e self albumFolder useKey it w
    = (Ret tt, World (files w) (trace w ++ new))
    ∧ success_calls new = []
    ∧ for_each (it :: rest) (save_image e self albumFolder useKey) w
      = for_each rest (save_image e self albumFolder useKey)
          (World (files w) (trace w ++ new)).
Proof.
  intros Hfile Hget Hsize.
  destruct (save_image_step e self albumFolder useKey it w)
    as (o & new & fs' & Hstep & _ & _ & Hcase).
  unfold classify, attempt in Hcase.
  rewrite Hfile, Hget, Hsize in Hcase. simpl in Hcase.
  destruct Hcase as (-> & -> & _ & Hs). exists new.
  split; [done|]. split; [done|].
  by rewrite for_each_cons, Hstep.
Qed.

Lemma placeholder_is_skipped_witness :
  ∃ new,
    save_image all_placeholders sample_album "uOOju" false
      (1, ("aa", ".jpg")) empty_world
    = (Ret tt, World ∅ ([] ++ new))
    ∧ success_calls new = []
    ∧ for_each [(1, ("aa", ".jpg")); (2, ("bb", ".jpg"))]
        (save_image all_placeholders sample_album "uOOju" false)
        empty_world
      = for_each [(2, ("bb", ".jpg"))]
          (save_image all_placeholders sample_album "uOOju" false)
          (World ∅ ([] ++ new)).
Proof.
  by apply (placeholder_is_skipped all_placeholders sample_album "uOOju"
              false (1, ("aa", ".jpg")) [(2, ("bb", ".jpg"))] empty_world
              (HttpResponse 200 "" [xff; xd8]%byte)).
Defined.

(** C4 as stated fails: text after the key is ignored. This URL does not
    have the album URL shape (a query string follows the key), and the
    check accepts it, so the constructor goes on to the listing request
    instead of raising. *)
Lemma trailing_text_is_accepted :
  (¬ ∃ protocol key,
       album_url_shape protocol key "https://imgur.com/a/uOOju?foo") ∧
  check_url "https://imgur.com/a/uOOju?foo" empty_world
  = (Ret ("https", "uOOju"), empty_world) ∧
  (__init__ all_images process_a "https://imgur.com/a/uOOju?foo" None None
     false empty_world).2
  = World ∅ [EvGet "http://imgur.com/a/uOOju/layout/blog"].
Proof.
  split; [|split; vm_compute; reflexivity].
  intros (protocol & key & Hshape).
  pose proof (check_url_shape _ _ _ empty_world Hshape) as Hc.
  vm_compute in Hc. injection Hc as <- <-.
  destruct Hshape as (www & m & seg & frag & Heq & _ & Hwww & Hm & Hseg & _
                      & _ & Hfrag).
  destruct Hwww as [-> | ->], Hm as [-> | ->], Hseg as [-> | [-> | ->]];
    try discriminate Heq.
  destruct Hfrag as [-> | (d & -> & _)]; discriminate Heq.
Qed.

(** C4, amended. The URL check looks at the start of the input only. An
    input that has the album URL shape is accepted, and the check
    recovers exactly its protocol and key. More generally the check
    succeeds exactly when some text at the start of the input has the
    shape, and the pair it returns is the protocol and key of such a
    text. When no text at the start has the shape, the constructor raises
    [ImgurAlbumException] with the input in its message, before any
    request. *)
Theorem check_url_accepts_shape_at_start (url : string) (w : world) :
  (∀ protocol key,
     album_url_shape protocol key url →
     check_url url w = (Ret (protocol, key), w)) ∧
  ((∃ protocol key, album_url_prefix protocol key url) ↔
   (∃ protocol key, check_url url w = (Ret (protocol, key), w))) ∧
  (∀ protocol key w',
     check_url url w = (Ret (protocol, key), w') →
     w' = w ∧ album_url_prefix protocol key url) ∧
  ((¬ ∃ protocol key, album_url_prefix protocol key url) →
   ∀ e p extn retry verbose,
     __init__ e p url extn retry verbose w
     = (Raise (Exc ImgurAlbumException
                 ("URL must be a valid Imgur Album " ++ url)), w)).
Proof.
  split; [intros ??; apply check_url_shape|].
  split.
  { split; [apply check_url_prefix|].
    intros (protocol & key & [_ H]%check_url_Ret). eauto. }
  split; [intros ???; apply check_url_Ret|].
  intros Hno e p extn retry verbose.
  by apply init_check_raises, check_url_no_prefix.
Qed.

Lemma check_url_accepts_shape_at_start_witness :
  check_url "http://imgur.com/a/uOOju#6" empty_world
  = (Ret ("http", "uOOju"), empty_world).
Proof.
  apply (proj1 (check_url_accepts_shape_at_start "http://imgur.com/a/uOOju#6"
                  empty_world)).
  exists "", "", "a/", "#6". split; [reflexivity|].
  split; [by left|]. split; [by left|]. split; [by left|].
  split; [right; by left|]. split; [discriminate|]. split; [reflexivity|].
  right. exists "6". split; [reflexivity|]. split; [discriminate|reflexivity].
Defined.

(** C7: what the listing step raises. For a valid album URL: when the
    final response has a status other than 200, hence for every non-2xx
    status, the constructor raises [ImgurAlbumException] with the status
    code in its message; but when the request ends in a transport-level
    failure, the [except] branch reads [e.code], which the exception does
    not have, and the constructor raises [AttributeError], not
    [ImgurAlbumException]. *)
Theorem listing_failures (e : env) (p : process) (url : string)
    (extn : option (list string)) (retry : option Retry) (verbose : bool)
    (w : world) (protocol key : string) :
  check_url url w = (Ret (protocol, key), w) →
  (∀ r, http_get e ("http://imgur.com/a/" ++ key ++ "/layout/blog") = inr r →
        status_code r ≠ 200%Z →
        (__init__ e p url extn retry verbose w).1
        = Raise (Exc ImgurAlbumException
                   ("Error reading Imgur: Error Code "
                    ++ pretty (status_code r)))) ∧
  (∀ ex, http_get e ("http://imgur.com/a/" ++ key ++ "/layout/blog") = inl ex →
         transport_error ex →
         (__init__ e p url extn retry verbose w).1
         = Raise (Exc AttributeError
                    ("'" ++ class_name (exc_cls ex)
                     ++ "' object has no attribute 'code'"))).
Proof.
  intros Hcheck. split.
  - intros r Hget Hstatus. unfold __init__, mbind, M_bind, bind.
    rewrite Hcheck, (read_listing_response _ _ r) by done.
    by apply Z.eqb_neq in Hstatus as ->.
  - intros ex Hget Hex. unfold __init__, mbind, M_bind, bind.
    rewrite Hcheck, (read_listing_raises _ _ ex) by done.
    assert (isinstance ex Exception = true) as ->; [|done].
    unfold transport_error in Hex. unfold isinstance.
    destruct ex as [c msg]. simpl in *.
    repeat (apply elem_of_cons in Hex as [->|Hex]; [by vm_compute|]).
    by apply elem_of_nil in Hex.
Qed.

Lemma listing_failures_witness :
  (__init__ (Env (failing (Exc ConnectionError "Max retries exceeded"))
               (sized 640 480))
     process_a "http://imgur.com/a/uOOju" None None false empty_world).1
  = Raise (Exc AttributeError
             ("'" ++ "ConnectionError" ++ "' object has no attribute 'code'")).
Proof.
  apply (proj2 (listing_failures
                  (Env (failing (Exc ConnectionError "Max retries exceeded"))
                     (sized 640 480))
                  process_a "http://imgur.com/a/uOOju" None None false
                  empty_world "http" "uOOju" ltac:(vm_compute; reflexivity))
           (Exc ConnectionError "Max retries exceeded")).
  - reflexivity.
  - unfold transport_error. simpl. apply list_elem_of_here.
Defined.

(** C8 as stated fails. For an https album URL the listing is requested
    over http, and the items are requested from http://i.imgur.com, not
    over https. *)
Lemma requests_go_over_http :
  ∃ d w,
    __init__ (Env (answering (HttpResponse 200 sample_page []))
                (sized 640 480))
      process_a "https://imgur.com/a/uOOju" None None false empty_world
    = (Ret d, w) ∧
    protocol d = "https" ∧
    gets (trace w) = ["http://imgur.com/a/uOOju/layout/blog"] ∧
    gets (trace w) ≠ ["https://imgur.com/a/uOOju/layout/blog"] ∧
    gets (trace (save_images all_images d None false empty_world).2)
    = ["http://i.imgur.com/abc1.jpg"; "http://i.imgur.com/xyz2.png"] ∧
    gets (trace (save_images all_images d None false empty_world).2)
    ≠ ["https://i.imgur.com/abc1.jpg"; "https://i.imgur.com/xyz2.png"].
Proof.
  eexists _, _. split; [vm_compute; reflexivity|].
  split; [reflexivity|]. split; [reflexivity|]. split; [discriminate|].
  split; [vm_compute; reflexivity|]. vm_compute. discriminate.
Qed.

(** C8, amended. For every validated album URL the listing request goes
    to http://imgur.com/a/<key>/layout/blog, whatever protocol was parsed
    from the input; and the request of a media item, made when its file
    is not there yet, goes to http://i.imgur.com/<id><extension> (the
    https form is only stored in [imageURLs]). *)
Theorem request_urls (e : env) (p : process) (url : string)
    (extn : option (list string)) (retry : option Retry) (verbose : bool)
    (w : world) (protocol key : string) :
  check_url url w = (Ret (protocol, key), w) →
  gets (trace (__init__ e p url extn retry verbose w).2)
  = (gets (trace w)
     ++ [("http://imgur.com/a/" ++ key ++ "/layout/blog")%string])%list
  ∧ ∀ self albumFolder useKey counter id ext w1,
      ∃ o new fs',
        save_image e self albumFolder useKey (counter, (id, ext)) w1
        = (o, World fs' (trace w1 ++ new)) ∧
        gets new
        = match files w1 !! path_of self albumFolder useKey counter (id, ext)
          with
          | Some _ => []
          | None => ["http://i.imgur.com/" ++ id ++ ext]
          end.
Proof.
  intros Hcheck. split.
  - unfold __init__, mbind, M_bind, bind. rewrite Hcheck.
    destruct (http_get e ("http://imgur.com/a/" ++ key ++ "/layout/blog"))
      as [ex|r] eqn:Hget.
    + rewrite (read_listing_raises _ _ ex) by done. cbn [snd trace].
      unfold gets. by rewrite omap_app.
    + rewrite (read_listing_response _ _ r) by done.
      destruct (status_code r =? 200)%Z; unfold mret, M_ret, ret;
        cbn [snd trace]; unfold gets; by rewrite omap_app.
  - intros self albumFolder useKey counter id ext w1.
    destruct (save_image_step e self albumFolder useKey (counter, (id, ext))
                w1) as (o & new & fs' & Hstep & _ & _ & Hcase).
    exists o, new, fs'. split; [done|].
    unfold classify, item_path in Hcase. cbn [fst snd] in Hcase.
    destruct (files w1 !! path_of self albumFolder useKey counter (id, ext)).
    { by destruct Hcase as (_ & _ & ? & _). }
    pose proof (attempt_not_existing e (item_url (counter, (id, ext)))
                  (path_of self albumFolder useKey counter (id, ext))).
    destruct (attempt e (item_url (counter, (id, ext))) _);
      by destruct Hcase as (_ & _ & ? & _).
Qed.

Lemma request_urls_witness :
  gets (trace (__init__ all_images process_a "https://imgur.com/a/uOOju"
                 None None false empty_world).2)
  = ([] ++ [("http://imgur.com/a/" ++ "uOOju" ++ "/layout/blog")%string])%list.
Proof.
  apply (request_urls all_images process_a "https://imgur.com/a/uOOju" None
           None false empty_world "https" "uOOju").
  vm_compute. reflexivity.
Defined.

(** C10. On every instance the constructor returns, the attribute
    [album_key] is the key parsed from the input URL: the key that the
    URL check returns for that URL, which for a URL of the album URL
    shape is the key of the URL; it is a non-empty alphanumeric string.
    Looking [album_key] up on the instance finds that string in the
    instance dictionary, not the method of the class, so calling
    [album_key()] raises [TypeError] instead of returning the key. *)
Theorem album_key_attribute_shadows_method (e : env) (p : process)
    (url : string) (extn : option (list string)) (retry : option Retry)
    (verbose : bool) (w w' : world) (d : t) :
  __init__ e p url extn retry verbose w = (Ret d, w') →
  check_url url w = (Ret (protocol d, album_key d), w) ∧
  (∀ protocol' key',
     album_url_shape protocol' key' url →
     protocol d = protocol' ∧ album_key d = key') ∧
  (∃ protocol', album_url_prefix protocol' (album_key d) url) ∧
  album_key d ≠ "" ∧ all (in_class Alnum) (album_key d) = true ∧
  class_dict !! "album_key" = Some (PFunction "album_key") ∧
  ∀ e' w1,
    getattr d "album_key" w1 = (Ret (PStr (album_key d)), w1) ∧
    (v ← getattr d "album_key"; call e' d v) w1
    = (Raise (Exc TypeError "'str' object is not callable"), w1).
Proof.
  intros (protocol & key & r & Hcheck & _ & _ & _ & ->)%init_Ret.
  cbn [album_key ImgurAlbumDownloader.protocol].
  split; [done|]. split.
  { intros protocol' key' Hshape.
    rewrite (check_url_shape _ _ _ w Hshape) in Hcheck.
    by injection Hcheck as -> ->. }
  apply check_url_Ret in Hcheck as [_ Hpre].
  split; [by exists protocol|].
  destruct Hpre as (pre & post & _ & www & m & seg & frag & _ & _ & _ & _ & _
                    & Hne & Hkey & _).
  split; [done|]. split; [done|]. split; [reflexivity|].
  intros e' w1. split; reflexivity.
Qed.

Lemma album_key_attribute_shadows_method_witness :
  album_key empty_album = "uOOju" ∧
  getattr empty_album "album_key" empty_world
  = (Ret (PStr "uOOju"), empty_world) ∧
  (v ← getattr empty_album "album_key"; call all_images empty_album v)
    empty_world
  = (Raise (Exc TypeError "'str' object is not callable"), empty_world).
Proof.
  assert (__init__ (Env (answering (HttpResponse 200 "" [])) (sized 1 1))
            process_a "http://imgur.com/a/uOOju#6" None None false
            empty_world
          = (Ret empty_album,
             World ∅ [EvGet "http://imgur.com/a/uOOju/layout/blog"]))
    as Hinit by (vm_compute; reflexivity).
  destruct (album_key_attribute_shadows_method _ _ _ _ _ _ _ _ _ Hinit)
    as (_ & Hkey & _ & _ & _ & _ & Hcall).
  split; [|exact (Hcall all_images empty_world)].
  apply (Hkey "http" "uOOju").
  exists "", "", "a/", "#6". split; [reflexivity|].
  split; [by left|]. split; [by left|]. split; [by left|].
  split; [right; by left|]. split; [discriminate|]. split; [reflexivity|].
  right. exists "6". split; [reflexivity|]. split; [discriminate|reflexivity].
Defined.

(** C2. Extraction deduplicates by the (id, extension) pair: the
    extracted sequence holds no pair twice; a pair that the scan of the
    page finds N > 1 times appears in it exactly once; in particular, on
    a page of well-formed fragments (where the scan finds each pair as
    many times as the page writes its fragment), the pair of every
    fragment appears exactly once, however often the fragment is
    repeated. The items of a constructed instance are that sequence. *)
Theorem extraction_deduplicates (p : process) (extn : option (list string))
    (html : string) :
  NoDup (extract p extn html) ∧
  (∀ pair N,
     occurrences pair (found_pairs extn html) = N → 1 < N →
     occurrences pair (extract p extn html) = 1) ∧
  (∀ items tail,
     Forall well_formed items → all not_brace tail = true →
     found_pairs None (page items tail) = items.*2 ∧
     ∀ item, item ∈ items →
       occurrences item.2 (extract p None (page items tail)) = 1) ∧
  (∀ e url retry verbose w d w',
     __init__ e p url extn retry verbose w = (Ret d, w') →
     imageIDs d = extract p extn (text (response d))).
Proof.
  unfold extract. split; [apply list_of_set_NoDup|]. split; [|split].
  - intros pair N HN Hgt.
    apply occurrences_NoDup; [apply list_of_set_NoDup|].
    apply list_of_set_elem, occurrences_pos. lia.
  - intros items tail Hitems Htail.
    rewrite found_pairs_page by done. split; [done|]. intros item Hitem.
    apply occurrences_NoDup; [apply list_of_set_NoDup|].
    apply list_of_set_elem, list_elem_of_fmap. eauto.
  - intros e url retry verbose w d w' Hinit.
    by apply init_Ret in Hinit as (? & ? & r & _ & _ & _ & _ & ->).
Qed.

Lemma extraction_deduplicates_witness :
  occurrences ("abc1", ".jpg") (found_pairs None sample_page) = 2 ∧
  occurrences ("abc1", ".jpg") (extract process_a None sample_page) = 1.
Proof.
  split; [vm_compute; reflexivity|].
  apply (proj1 (proj2 (extraction_deduplicates process_a None sample_page))
           ("abc1", ".jpg") 2).
  - vm_compute. reflexivity.
  - lia.
Defined.

(** C3: the code at a failing input, and what it does in general. With
    the allow-list jpg, png the pattern asks for two dots before the
    extension: the fragment of abc1.jpg is not extracted, and a fragment
    whose extension is written ..jpg is, with the extension ..jpg, which
    is none of the listed values, with or without a leading dot. For
    every non-empty allow-list whose entries hold no pattern operator,
    the extension of every extracted item is two dots followed by a
    listed value. Without an allow-list every
    pair the scan finds is retained, and on a page of well-formed
    fragments the pair of every fragment is, whatever its extension. *)
Theorem allow_list_asks_for_two_dots :
  extract process_a (Some ["jpg"; "png"]) (fragment "abc1" ".jpg") = [] ∧
  extract process_a (Some ["jpg"; "png"]) (fragment "abc1" "..jpg")
  = [("abc1", "..jpg")] ∧
  ("..jpg" ∉ ["jpg"; "png"; ".jpg"; ".png"]) ∧
  (∀ p l html pair,
     l ≠ [] → Forall (λ entry, operator_free entry = true) l →
     pair ∈ extract p (Some l) html →
     ∃ e, e ∈ l ∧ pair.2 = ".." ++ e) ∧
  (∀ p html pair,
     pair ∈ found_pairs None html → pair ∈ extract p None html) ∧
  (∀ p items tail item,
     Forall well_formed items → all not_brace tail = true →
     item ∈ items → item.2 ∈ extract p None (page items tail)).
Proof.
  split; [vm_compute; reflexivity|]. split; [vm_compute; reflexivity|].
  split.
  { intros H. repeat (apply elem_of_cons in H as [H|H]; [discriminate H|]).
    by apply elem_of_nil in H. }
  split.
  { intros p l html pair Hl _ Hpair. apply list_of_set_elem in Hpair.
    by apply (found_pairs_allow_list l html). }
  split; [intros p html pair H; by apply list_of_set_elem|].
  intros p items tail item Hitems Htail Hitem. apply list_of_set_elem.
  rewrite found_pairs_page by done. apply list_elem_of_fmap. eauto.
Qed.

(** C9 as stated fails. The order of the extracted sequence is the
    iteration order of a set, which two interpreter processes need not
    share: on the same page, with the same filter, one process yields
    abc1 then xyz2 and another xyz2 then abc1. *)
Lemma order_differs_between_processes :
  extract process_a None sample_page
  = [("abc1", ".jpg"); ("xyz2", ".png")] ∧
  extract process_b None sample_page
  = [("xyz2", ".png"); ("abc1", ".jpg")] ∧
  extract process_a None sample_page ≠ extract process_b None sample_page.
Proof.
  split; [vm_compute; reflexivity|]. split; [vm_compute; reflexivity|].
  vm_compute. discriminate.
Qed.

(** C9, amended. For a fixed page body and extension filter, two runs of
    the extraction, in any two executions, produce the same items, each
    once: the two sequences are equal up to order. (Within one
    execution the order is that of the process and does not change.) *)
Theorem extraction_same_items_any_order (p1 p2 : process)
    (extn : option (list string)) (html : string) :
  extract p1 extn html ≡ₚ extract p2 extn html ∧
  NoDup (extract p1 extn html) ∧
  ∀ pair, pair ∈ extract p1 extn html ↔ pair ∈ found_pairs extn html.
Proof.
  unfold extract. split; [|split].
  - apply NoDup_Permutation; [apply list_of_set_NoDup..|].
    intros x. by rewrite !list_of_set_elem.
  - apply list_of_set_NoDup.
  - intros pair. apply list_of_set_elem.
Qed.

End Claims.

(** * Further properties of the program *)

Module Properties.
Import ImgurAlbumDownloader Script.

(** X1. Every item the extraction yields is written in the page: its
    id, non-empty and alphanumeric, stands between the opening text of
    a fragment and a quote, and its extension, which starts with a dot,
    further on between the text that announces it and a quote. *)
Theorem extracted_items_come_from_the_page (p : process)
    (extn : option (list string)) (html : string) (pair : string * string) :
  plain_filter extn →
  pair ∈ extract p extn html →
  pair.1 ≠ "" ∧ all (in_class Alnum) pair.1 = true ∧
  (∃ x, pair.2 = "." ++ x) ∧
  ∃ pre mid post,
    html = pre ++ hash_open ++ pair.1 ++ dq ++ mid ++ ext_open ++ pair.2
           ++ dq ++ post.
Proof.
  intros _ Hpair. apply list_of_set_elem in Hpair.
  destruct (found_pairs_sound extn html pair Hpair) as (? & ? & ?).
  repeat split; try done. by apply (found_pairs_in_page extn).
Qed.

Lemma extracted_items_come_from_the_page_witness :
  "xyz2" ≠ "" ∧ all (in_class Alnum) "xyz2" = true ∧
  (∃ x, ".png" = "." ++ x) ∧
  ∃ pre mid post,
    sample_page = pre ++ hash_open ++ "xyz2" ++ dq ++ mid ++ ext_open
                  ++ ".png" ++ dq ++ post.
Proof.
  apply (extracted_items_come_from_the_page process_a None sample_page
           ("xyz2", ".png")).
  - constructor.
  - apply (list_of_set_elem process_a). unfold found_pairs.
    vm_compute. right. right. left.
Defined.

(** X2. The number of images of an instance is the number of distinct
    (id, extension) pairs that the scan finds in the listing page,
    whatever order the process gives to a set; it is at most the number
    of pairs found, and it is the number of entries of [imageURLs]. *)
Theorem num_images_counts_distinct_pairs (e : env) (p : process)
    (url : string) (extn : option (list string)) (retry : option Retry)
    (verbose : bool) (w w' : world) (d : t) :
  plain_filter extn →
  __init__ e p url extn retry verbose w = (Ret d, w') →
  num_images d
  = length (remove_dups (found_pairs extn (text (response d)))) ∧
  (num_images d ≤ length (found_pairs extn (text (response d))))%nat ∧
  length (imageURLs d) = num_images d.
Proof.
  intros _ (protocol & key & r & _ & _ & _ & _ & ->)%init_Ret.
  unfold num_images, extract. cbn [imageIDs imageURLs response].
  rewrite length_fmap, list_of_set_length. split; [done|]. split; [|done].
  apply submseteq_length, NoDup_submseteq; [apply NoDup_remove_dups|].
  intros x. by rewrite elem_of_remove_dups.
Qed.

Lemma num_images_counts_distinct_pairs_witness :
  num_images (found_album false)
  = length (remove_dups (found_pairs None sample_page)) ∧
  (num_images (found_album false) ≤ length (found_pairs None sample_page))%nat ∧
  length (imageURLs (found_album false)) = num_images (found_album false).
Proof.
  apply (num_images_counts_distinct_pairs (serving sample_page) process_a
           "http://imgur.com/a/uOOju#6" None None false empty_world
           (World ∅ [EvGet "http://imgur.com/a/uOOju/layout/blog"])
           (found_album false)).
  - constructor.
  - vm_compute. reflexivity.
Defined.

(** X3. [list_extensions] lists every extension that some item has,
    once, with the number of items that have it, and no other; the
    counts add up to the number of images. *)
Theorem list_extensions_counts (e : env) (p : process)
    (url : string) (extn : option (list string)) (retry : option Retry)
    (verbose : bool) (w w' : world) (d : t) :
  __init__ e p url extn retry verbose w = (Ret d, w') →
  NoDup (list_extensions d).*1 ∧
  (∀ ext n, (ext, n) ∈ list_extensions d
            ↔ n = count_of ext (imageIDs d) ∧ 0 < n) ∧
  sum_list (list_extensions d).*2 = num_images d.
Proof.
  intros (protocol & key & r & _ & _ & _ & _ & ->)%init_Ret.
  unfold list_extensions, num_images. cbn [cnt imageIDs].
  destruct (count_extensions_spec (extract p extn (text r)))
    as (Hnd & Hsum & Hin).
  split; [by rewrite most_common_Permutation|].
  split; [|by rewrite most_common_Permutation].
  intros ext n. by rewrite most_common_Permutation.
Qed.

Lemma list_extensions_counts_witness :
  NoDup (list_extensions (found_album false)).*1 ∧
  (∀ ext n, (ext, n) ∈ list_extensions (found_album false)
            ↔ n = count_of ext [("abc1", ".jpg"); ("xyz2", ".png")]
              ∧ 0 < n) ∧
  sum_list (list_extensions (found_album false)).*2 = 2.
Proof.
  apply (list_extensions_counts (serving sample_page) process_a
           "http://imgur.com/a/uOOju#6" None None false empty_world
           (World ∅ [EvGet "http://imgur.com/a/uOOju/layout/blog"])
           (found_album false)).
  vm_compute. reflexivity.
Defined.

(** X4. [list_extensions] is the counter put in order: the same
    entries, by decreasing count, and among entries of equal count in
    the order in which the counter holds them, that is the order in
    which the extensions were first counted. *)
Theorem list_extensions_order (self : t) :
  list_extensions self ≡ₚ cnt self ∧
  StronglySorted (λ a b, (b.2 ≤ a.2)%nat) (list_extensions self) ∧
  ∀ n, filter (λ a, a.2 = n) (list_extensions self)
       = filter (λ a, a.2 = n) (cnt self).
Proof.
  unfold list_extensions. split; [apply most_common_Permutation|].
  split; [apply most_common_sorted|]. intros n. apply most_common_stable.
Qed.

(** X5. [imageURLs] holds the https URL of every item, in the order of
    the items, and no URL twice; the URLs that [save_images] requests
    for the items are distinct too. *)
Theorem imageURLs_distinct (e : env) (p : process)
    (url : string) (extn : option (list string)) (retry : option Retry)
    (verbose : bool) (w w' : world) (d : t) :
  plain_filter extn →
  __init__ e p url extn retry verbose w = (Ret d, w') →
  imageURLs d = (λ i, "https://i.imgur.com/" ++ i.1 ++ i.2) <$> imageIDs d ∧
  NoDup (imageIDs d) ∧
  NoDup (imageURLs d) ∧
  NoDup (item_url <$> enumerate 1 (imageIDs d)).
Proof.
  intros _ (protocol & key & r & _ & _ & _ & _ & ->)%init_Ret.
  cbn [imageIDs imageURLs]. split; [done|].
  pose proof (extract_sound p extn (text r)) as Hok.
  assert (Hnd : NoDup (extract p extn (text r)))
    by apply list_of_set_NoDup.
  split; [done|].
  assert (Hinj : ∀ (pre : string) (l : list (string * string)),
            Forall item_ok l → NoDup l →
            NoDup ((λ i, pre ++ i.1 ++ i.2) <$> l)).
  { intros pre l Hl Hl'. apply NoDup_fmap_2_strong; [|done].
    intros i j Hi Hj Heq%str_app_inv_head.
    apply id_ext_inj; [by apply (proj1 (Forall_forall _ _) Hl)..|done]. }
  split; [by apply Hinj|].
  replace (item_url <$> enumerate 1 (extract p extn (text r)))
    with ((λ i : string * string, "http://i.imgur.com/" ++ i.1 ++ i.2)
            <$> (enumerate 1 (extract p extn (text r))).*2).
  { rewrite enumerate_snd. by apply Hinj. }
  by rewrite <-list_fmap_compose.
Qed.

Lemma imageURLs_distinct_witness :
  imageURLs (found_album false)
  = (λ i, "https://i.imgur.com/" ++ i.1 ++ i.2)
      <$> imageIDs (found_album false) ∧
  NoDup (imageIDs (found_album false)) ∧
  NoDup (imageURLs (found_album false)) ∧
  NoDup (item_url <$> enumerate 1 (imageIDs (found_album false))).
Proof.
  apply (imageURLs_distinct (serving sample_page) process_a
           "http://imgur.com/a/uOOju#6" None None false empty_world
           (World ∅ [EvGet "http://imgur.com/a/uOOju/layout/blog"])
           (found_album false)).
  - constructor.
  - vm_compute. reflexivity.
Defined.




(** X8. The suffix of a file name is an underscore and the position of
    the item, written with a zero in front below 10 and as it is from
    10 on; it has three characters exactly up to position 99. *)
Theorem suffix_zero_padded (counter : nat) :
  (counter < 10 → suffix counter = "_0" ++ pretty counter) ∧
  ((10 ≤ counter)%nat → suffix counter = "_" ++ pretty counter) ∧
  (String.length (suffix counter) = 3 ↔ counter < 100) ∧
  ∀ other, suffix counter = suffix other → counter = other.
Proof.
  unfold suffix. rewrite rjust_counter.
  destruct (pretty_nat_length counter) as (H1 & H2 & H3).
  split; [intros ?; by rewrite decide_True|].
  split; [intros ?; by rewrite decide_False by lia|].
  split.
  - rewrite str_length_app. case_decide.
    + rewrite str_length_app, H1 by done. simpl. split; [lia|done].
    + destruct (decide (counter < 100)).
      * rewrite H2 by lia. simpl. split; [done|lia].
      * split; [|lia]. simpl. intros Hlen. specialize (H3 ltac:(lia)). lia.
  - intros other Heq. rewrite <-rjust_counter in Heq.
    injection Heq as Heq. by apply rjust_counter_inj.
Qed.






(** X12. An instance that is not verbose prints nothing: no line is
    printed during [save_images], whatever happens to the items. *)
Theorem quiet_unless_verbose (e : env) (self : t)
    (foldername : option string) (useKey : bool) (w : world) :
  verbose self = false →
  ∃ new,
    trace (save_images e self foldername useKey w).2 = (trace w ++ new)%list ∧
    prints new = [].
Proof.
  intros Hquiet. rewrite save_images_loop, ensure_folder_run.
  destruct (if _ || _ then _ else _) as [[]|ex0].
  2: { exists []. by rewrite (right_id_L [] (++)). }
  destruct (for_each_adds e self (album_folder self foldername) useKey
              (λ new, prints new = []) (enumerate 1 (imageIDs self)))
    with (w := w) as (new & Htr & Hnew).
  - done.
  - intros a b Ha Hb. unfold prints in *. by rewrite omap_app, Ha, Hb.
  - intros it w1.
    destruct (save_image_prints e self (album_folder self foldername)
                useKey it w1) as (new & Htr & Hnew).
    exists new. by rewrite Hquiet in Hnew.
  - destruct (for_each _ _ w) as [[[]|ex] w1]; cbn [snd trace] in *;
      [|by eauto].
    exists (new ++ (EvComplete <$> complete_callbacks self))%list.
    rewrite Htr, (assoc_L (++)). split; [done|].
    unfold prints in *. rewrite omap_app, Hnew.
    by induction (complete_callbacks self).
Qed.

Lemma quiet_unless_verbose_witness :
  ∃ new,
    trace (save_images third_fails sample_album None false empty_world).2
    = ([] ++ new)%list ∧
    prints new = [].
Proof.
  by apply (quiet_unless_verbose third_fails sample_album None false
              empty_world).
Defined.



(** X14. When a directory sits at the destination of an item, a failure
    of its request that the [except] clause lists is not absorbed: the
    [except] branch finds that the path exists and calls [os.remove] on
    it, which raises (on Linux, [IsADirectoryError]), out of the loop.
    (The path is no file, or the item would have been skipped: the
    [except] branch never removes a file.) *)
Theorem failed_download_on_a_directory (e : env) (self : t)
    (albumFolder : string) (useKey : bool) (counter : nat)
    (image : string * string) (w : world) (ex : exc) :
  let url := image_url_of image in
  let path := path_of self albumFolder useKey counter image in
  files w !! path = None →
  is_dir e path = true →
  http_get e url = inl ex →
  caught_by download_errors ex = true →
  save_image e self albumFolder useKey (counter, image) w
  = (Raise (Exc IsADirectoryError
              (errno_message "21" "Is a directory" path)),
     World (files w)
       (trace w
        ++ ((λ fn, EvImage fn counter url path) <$> image_callbacks self)
        ++ [EvGet url]
        ++ (if verbose self
            then [EvPrint ("Download failed: " ++ class_name (exc_cls ex)
                           ++ " " ++ exc_msg ex)]
            else []))).
Proof.
  intros url path Hfile Hdir Hget Hcaught.
  rewrite save_image_turn.
  unfold turn, item_events, item_files, classify, attempt, failure,
    item_url, item_path. cbn [fst snd]. fold url. fold path.
  by rewrite Hfile, Hget, Hcaught, Hdir.
Qed.

Lemma failed_download_on_a_directory_witness :
  save_image directory_in_the_way sample_album "uOOju" false
    (1, ("aa", ".jpg")) empty_world
  = (Raise (Exc IsADirectoryError
              (errno_message "21" "Is a directory" "uOOju/aa_01.jpg")),
     World ∅
       ([] ++ [EvImage "progress" 1 "http://i.imgur.com/aa.jpg"
                 "uOOju/aa_01.jpg"]
        ++ [EvGet "http://i.imgur.com/aa.jpg"] ++ [])).
Proof.
  by apply (failed_download_on_a_directory directory_in_the_way sample_album
              "uOOju" false 1 ("aa", ".jpg") empty_world
              (Exc Timeout "timed out")).
Defined.

(** X15. Registration keeps order. On an instance that the constructor
    built, after [on_image_download] was called with the callbacks [fs],
    [on_download_success] with [gs] and [on_complete] with [hs], each in
    that order, these are the callbacks of the instance, in that order
    (a callback registered twice is there twice), and the items are
    those of the constructor. A run of [save_images] that returns has
    called, for every item in order, every callback of [fs] in order,
    and at the very end every callback of [hs] in order; its success
    calls go to callbacks of [gs], in order, item by item. *)
Theorem registered_callbacks_are_called_in_order (e : env) (p : process)
    (url : string) (extn : option (list string)) (retry : option Retry)
    (verbose : bool) (w0 w0' : world) (d : t) (fs gs hs : list string) :
  __init__ e p url extn retry verbose w0 = (Ret d, w0') →
  let self := with_callbacks d fs gs hs in
  image_callbacks self = fs ∧ success_callbacks self = gs ∧
  complete_callbacks self = hs ∧ imageIDs self = imageIDs d ∧
  ∀ e' foldername useKey w,
    let dest := item_path self (album_folder self foldername) useKey in
    let items := enumerate 1 (imageIDs d) in
    (save_images e' self foldername useKey w).1 = Ret tt →
    ∃ during,
      trace (save_images e' self foldername useKey w).2
      = (trace w ++ during ++ (EvComplete <$> hs))%list ∧
      image_calls during
      = (items ≫= λ it, (λ fn, (fn, it.1, item_url it, dest it)) <$> fs) ∧
      sublist (success_calls during)
        (items ≫= λ it, (λ fn, (fn, it.1, item_url it, dest it)) <$> gs) ∧
      complete_calls during = [].
Proof.
  intros Hinit self.
  assert (image_callbacks d = [] ∧ success_callbacks d = [] ∧
          complete_callbacks d = []) as (H1 & H2 & H3).
  { by apply init_Ret in Hinit as (protocol & key & r & _ & _ & _ & _ & ->). }
  clear Hinit. subst self. rewrite with_callbacks_eq, H1, H2, H3.
  cbn [image_callbacks success_callbacks complete_callbacks imageIDs app].
  repeat split; try done.
  intros e' foldername useKey w. cbv zeta.
  set (self := Make _ _ fs gs hs _ _ _ _ _ _ _ _).
  set (dest := item_path self (album_folder self foldername) useKey).
  set (items := enumerate 1 (imageIDs d)).
  rewrite save_images_loop, ensure_folder_run.
  destruct (if _ || _ then _ else _) as [[]|ex0]; [|done].
  destruct (download_loop e' self (album_folder self foldername) useKey
              items w w)
    as (o & new & fs' & Hloop & _ & _ & Hsucc & Hcomp & Himg & _); [done|].
  change (imageIDs self) with (imageIDs d). fold items. rewrite Hloop.
  destruct o as [[]|ex]; [|done]. intros _.
  exists new. cbn [snd trace]. rewrite <-(assoc_L (++)).
  split; [done|]. split; [by apply Himg|]. split; [|done].
  etrans; [exact Hsucc|]. fold dest. change (success_callbacks self) with gs.
  clear. induction items as [|it items IH]; [done|].
  destruct (decide (files w !! dest it = None)).
  - rewrite filter_cons_True by done. csimpl. by apply sublist_app.
  - rewrite filter_cons_False by done. csimpl. by apply sublist_inserts_l.
Qed.

Lemma registered_callbacks_are_called_in_order_witness :
  image_callbacks
    (with_callbacks (found_album false) ["first"; "second"; "first"] []
       ["bye"])
  = ["first"; "second"; "first"].
Proof.
  apply (registered_callbacks_are_called_in_order (serving sample_page)
           process_a "http://imgur.com/a/uOOju#6" None None false
           empty_world
           (World ∅ [EvGet "http://imgur.com/a/uOOju/layout/blog"])
           (found_album false) ["first"; "second"; "first"] [] ["bye"]).
  vm_compute. reflexivity.
Defined.

(** X16. The script without an argument prints the help and exits with
    status 0. With a first argument that starts with no album URL it
    prints the error, an empty line, a heading and the help, and exits
    with status 1, whatever arguments follow. In both cases it sends no
    request and touches no file. *)
Theorem main_usage (e : env) (p : process) (prog : string) (w : world) :
  main e p prog [] w
  = (Exit 0, World (files w) (trace w ++ [EvPrint help_message])) ∧
  ∀ url more,
    (¬ ∃ protocol key, album_url_prefix protocol key url) →
    main e p prog (url :: more) w
    = (Exit 1,
       World (files w)
         (trace w
          ++ (EvPrint
                <$> [("Error: URL must be a valid Imgur Album " ++ url)%string;
                     ""; "How to use"; "============="; help_message]))).
Proof.
  split; [done|]. intros url more Hno. rewrite main_with_url.
  rewrite (try_block_raises e p prog url more
             (Exc ImgurAlbumException
                ("URL must be a valid Imgur Album " ++ url)) w w).
  - done.
  - by apply init_check_raises, check_url_no_prefix.
Qed.

(** X17. The script when the listing cannot be read, for a first
    argument that passes the URL check. If the listing is answered with
    a status other than 200, the script prints the error with the
    status code, an empty line, a heading and the help, and exits with
    status 1. If the request raises an exception (one that is an
    [Exception]), nothing is printed: the script ends with a traceback
    of the [AttributeError] that the constructor raises, which its
    [except ImgurAlbumException] does not handle. One request has been
    sent, no file touched. *)
Theorem main_listing_failures (e : env) (p : process) (prog url : string)
    (more : list string) (w : world) (protocol key : string) :
  check_url url w = (Ret (protocol, key), w) →
  let listing := "http://imgur.com/a/" ++ key ++ "/layout/blog" in
  (∀ r, http_get e listing = inr r → status_code r ≠ 200%Z →
     main e p prog (url :: more) w
     = (Exit 1,
        World (files w)
          (trace w ++ [EvGet listing]
           ++ (EvPrint
                 <$> [("Error: Error reading Imgur: Error Code "
                       ++ pretty (status_code r))%string;
                      ""; "How to use"; "============="; help_message])))) ∧
  (∀ ex, http_get e listing = inl ex → isinstance ex Exception = true →
     main e p prog (url :: more) w
     = (Traceback
          (Exc AttributeError
             ("'" ++ class_name (exc_cls ex)
              ++ "' object has no attribute 'code'")),
        World (files w) (trace w ++ [EvGet listing]))).
Proof.
  intros Hcheck listing. split.
  - intros r Hget Hstatus. rewrite main_with_url.
    rewrite (try_block_raises e p prog url more
               (Exc ImgurAlbumException
                  ("Error reading Imgur: Error Code "
                   ++ pretty (status_code r))) w
               (World (files w) (trace w ++ [EvGet listing]))).
    + cbn [files trace]. by rewrite <-(assoc_L (++)).
    + unfold __init__, mbind, M_bind, bind.
      rewrite Hcheck, (read_listing_response _ _ r) by done.
      by apply Z.eqb_neq in Hstatus as ->.
  - intros ex Hget Hex. rewrite main_with_url.
    rewrite (try_block_raises e p prog url more
               (Exc AttributeError
                  ("'" ++ class_name (exc_cls ex)
                   ++ "' object has no attribute 'code'")) w
               (World (files w) (trace w ++ [EvGet listing]))); [done|].
    unfold __init__, mbind, M_bind, bind.
    rewrite Hcheck, (read_listing_raises _ _ ex) by done. by rewrite Hex.
Qed.

Lemma main_listing_failures_witness :
  main (Env (answering (HttpResponse 404 "" [])) (sized 1 1)) process_a
    "imguralbum.py" ["http://imgur.com/a/uOOju"] empty_world
  = (Exit 1,
     World ∅
       ([] ++ [EvGet "http://imgur.com/a/uOOju/layout/blog"]
        ++ (EvPrint
              <$> [("Error: Error reading Imgur: Error Code "
                    ++ pretty 404%Z)%string;
                   ""; "How to use"; "============="; help_message]))).
Proof.
  apply (proj1 (main_listing_failures
                  (Env (answering (HttpResponse 404 "" [])) (sized 1 1))
                  process_a "imguralbum.py" "http://imgur.com/a/uOOju" []
                  empty_world "http" "uOOju" ltac:(vm_compute; reflexivity))
           (HttpResponse 404 "" [])).
  - reflexivity.
  - done.
Defined.

(** X18. The folder argument of the script counts only when it is the
    last of exactly two arguments: with more arguments after it, the
    script behaves as with the URL alone and saves into the folder
    named after the album key. In every case, once the constructor has
    returned, the script goes on as [save_images] does on the instance
    with the two callbacks of the script registered, after the lines
    that announce what was found: it exits with status 0 when
    [save_images] returns. *)
Theorem main_folder_argument (e : env) (p : process) (prog url : string)
    (w : world) :
  (∀ folder extra more,
     main e p prog (url :: folder :: extra :: more) w
     = main e p prog [url] w) ∧
  ∀ more d w1,
    __init__ e p url None None true w = (Ret d, w1) →
    main e p prog (url :: more) w
    = match save_images e (registered d) (folder_argument more) false
              (World (files w1) (trace w1 ++ (EvPrint <$> announcement d)))
      with
      | (Ret _, w2) => (Exit 0, w2)
      | (Raise ex, w2) =>
          if isinstance ex ImgurAlbumException
          then (Exit 1,
                World (files w2)
                  (trace w2 ++ (EvPrint <$> usage_lines (exc_msg ex))))
          else (Traceback ex, w2)
      end.
Proof.
  split.
  - intros folder extra more. rewrite !main_with_url.
    destruct (__init__ e p url None None true w) as [[d|ex] w1] eqn:Hinit.
    + by rewrite !(try_block_constructed _ _ _ _ _ d w w1).
    + by rewrite !(try_block_raises _ _ _ _ _ ex w w1).
  - intros more d w1 Hinit. rewrite main_with_url.
    by rewrite (try_block_constructed _ _ _ _ _ d w w1).
Qed.

(** X19. A run of the script that goes through. When the constructor
    returns, every failure of a request or of the decoder is of a class
    that the loop lists, the folder is there or can be made and the
    files can be written, the script exits with status 0. It has
    printed the number of images and a line for each extension, by
    decreasing count; then, for every item in order, the two lines of
    the progress callback (and in between what the loop prints, the
    script being verbose); at the very end an empty line and the last
    word. *)
Theorem main_completes (e : env) (p : process) (prog url : string)
    (more : list string) (w w1 : world) (d : t) :
  __init__ e p url None None true w = (Ret d, w1) →
  (∀ u ex, http_get e u = inl ex → caught_by download_errors ex = true) →
  (∀ data ex,
     image_size e data = inl ex → caught_by download_errors ex = true) →
  let self := registered d in
  let folder := album_folder self (folder_argument more) in
  let dest := item_path self folder false in
  let items := enumerate 1 (imageIDs d) in
  folder_ready e (files w1) folder →
  (∀ it, it ∈ items → write_error e (dest it) = None) →
  ∃ fs' during,
    main e p prog (url :: more) w
    = (Exit 0,
       World fs'
         (trace w1 ++ (EvPrint <$> announcement d) ++ during
          ++ [EvComplete all_done])) ∧
    image_calls during
    = (items ≫= λ it,
         [(print_image_progress, it.1, item_url it, dest it)]) ∧
    complete_calls during = [] ∧
    stdout ((EvPrint <$> announcement d) ++ during ++ [EvComplete all_done])
    = (announcement d ++ stdout during ++ [""; "Done!"])%list.
Proof.
  intros Hinit Hget Hsize self folder dest items Hfolder Hwrite.
  assert (image_callbacks d = [] ∧ complete_callbacks d = [])
    as (H1 & H3).
  { by apply init_Ret in Hinit as (protocol & key & r & _ & _ & _ & _ & ->). }
  rewrite main_with_url, (try_block_constructed _ _ _ _ _ d w w1) by done.
  rewrite save_images_loop. fold self. fold folder.
  rewrite ensure_folder_ready by done.
  change (imageIDs self) with (imageIDs d). fold items.
  assert (Hno : ∀ it, it ∈ items →
            turn_raises (attempt e (item_url it) (dest it)) = None).
  { intros it Hit. apply attempt_returns; auto. }
  set (w2 := World (files w1) (trace w1 ++ (EvPrint <$> announcement d))).
  rewrite (for_each_turns e self folder false items Hno w2).
  destruct (download_loop e self folder false items w2 w2)
    as (o & new & fs' & Hloop & _ & _ & _ & Hcomp & Himg & _); [done|].
  rewrite (for_each_turns e self folder false items Hno w2) in Hloop.
  injection Hloop as <- Hafter. rewrite Hafter. cbn [files trace].
  exists fs', new. split.
  { change (complete_callbacks self) with (complete_callbacks d ++ [all_done])%list.
    rewrite H3. subst w2. cbn [trace]. by rewrite <-!(assoc_L (++)). }
  split.
  { rewrite Himg by done.
    change (image_callbacks self)
      with (image_callbacks d ++ [print_image_progress])%list.
    by rewrite H1. }
  split; [done|].
  by rewrite !stdout_app, stdout_prints.
Qed.

Lemma main_completes_witness :
  ∃ fs' during,
    main (serving sample_page) process_a "imguralbum.py"
      ["http://imgur.com/a/uOOju#6"; "out"] empty_world
    = (Exit 0,
       World fs'
         ([EvGet "http://imgur.com/a/uOOju/layout/blog"]
          ++ (EvPrint <$> announcement (found_album true)) ++ during
          ++ [EvComplete all_done])) ∧
    image_calls during
    = [(print_image_progress, 1, "http://i.imgur.com/abc1.jpg",
        "out/abc1_01.jpg");
       (print_image_progress, 2, "http://i.imgur.com/xyz2.png",
        "out/xyz2_02.png")] ∧
    complete_calls during = [] ∧
    stdout ((EvPrint <$> announcement (found_album true)) ++ during
            ++ [EvComplete all_done])
    = (announcement (found_album true) ++ stdout during
       ++ [""; "Done!"])%list.
Proof.
  apply (main_completes (serving sample_page) process_a "imguralbum.py"
           "http://imgur.com/a/uOOju#6" ["out"] empty_world
           (World ∅ [EvGet "http://imgur.com/a/uOOju/layout/blog"])
           (found_album true)).
  - vm_compute. reflexivity.
  - intros u ex. simpl. by case_bool_decide.
  - done.
  - right. right. by split.
  - done.
Defined.

End Properties.
